(** * openclaw-plugin-mcp: a shallow embedding of the client, manager,
      security and bridge modules, and the properties checked against them.

    Layout:
    - [JsString]: JavaScript strings as lists of UTF-16 code units, the
      regular expressions of the sources as matchers, global [replace];
    - [Types]: types.ts (lines 323-423 of src/src/client.ts);
    - [Security]: security.ts (lines 204-322 of src/src/client.ts):
      [stripDangerous], [truncate], [applyTrustToText], [applyTrustPolicy];
    - [Bridge]: src/src/bridge.ts: [normalizeToolName];
    - [Client]: client.ts (lines 1-203 of src/src/client.ts):
      [McpClientWrapper] with connect, disconnect and callTool, as a
      labelled machine over the suspension points;
    - [Manager]: manager.ts (src/unnamed/part_003): [McpServerManager]
      with connectServer, doConnect, disconnectServer and setState, as a
      labelled machine over the suspension points;
    - [Props] and the modules of facts: the properties and their proofs;
    - [SecurityProps], [ClientProps], [ManagerProps]: further predicates;
    - [Status]: the status objects of manager.ts ([getServerStatus]);
    - [Config]: src/src/config.ts: [detectTransport], [parseConfig];
    - [Transport]: [createTransport] of client.ts with the three
      constructors it calls and the errors it throws;
    - [BridgeTools]: the rest of src/src/bridge.ts: [passesFilter],
      [normalizeSchema], [convertResult], [createBridgedTools];
    - [Index]: the tool names that index.ts (src/unnamed/part_001) lists;
    - [Registry]: registry.ts (src/unnamed/part_002): the catalog and the
      functions over it.

    An [async] function runs without interruption from one [await] to the
    next. Each machine has one transition per such stretch of code, and a
    label says which stretch runs next: a call from outside, or the
    continuation of an [await] that has settled. Line numbers are those
    of the files named above. *)

From Stdlib Require Import ZArith NArith List Ascii String Lia Bool.
From Stdlib Require Import DecimalString.
From stdpp Require Import base option list gmap strings.
Import ListNotations.

Local Open Scope Z_scope.

(* ===================================================================== *)
(** ** JavaScript strings and the regular expressions of the sources      *)
(* ===================================================================== *)

Module JsString.

(** A JavaScript string is a sequence of UTF-16 code units; [length] and
    [slice] count code units, and a regular expression without the [u]
    flag matches code unit by code unit. *)
Definition jsstring : Type := list N.

Definition cu (a : ascii) : N := N_of_ascii a.

(** A string literal of the source made of ASCII characters only. *)
Definition lit (s : string) : jsstring := map cu (list_ascii_of_string s).

Definition LT : N := 60.         (* "<" *)
Definition GT : N := 62.         (* ">" *)
Definition LF : N := 10.         (* "\n" *)
Definition UNDERSCORE : N := 95. (* "_" *)
Definition EMDASH : N := 8212.   (* U+2014 *)

Definition neqb (x y : N) : bool := negb (N.eqb x y).

(** [s.startsWith(p)], returning what follows [p]. *)
Fixpoint expect_str (p s : jsstring) : option jsstring :=
  match p with
  | [] => Some s
  | a :: p' =>
      match s with
      | c :: s' => if N.eqb a c then expect_str p' s' else None
      | [] => None
      end
  end.

(** A greedy character class repetition [cls*]: what is left after the
    longest run of [cls]. In every pattern of the sources the token after
    such a repetition is a character outside the class (or the pattern
    ends), so backtracking into the run never finds another match. *)
Fixpoint skip_while (cls : N -> bool) (s : jsstring) : jsstring :=
  match s with
  | c :: s' => if cls c then skip_while cls s' else s
  | [] => []
  end.

(** [cls+]: at least one character of the class, then the longest run. *)
Definition plus (cls : N -> bool) (s : jsstring) : option jsstring :=
  match s with
  | c :: s' => if cls c then Some (skip_while cls s') else None
  | [] => None
  end.

(** The [i] flag on an ASCII pattern letter: without the [u] flag a code
    unit matches when its upper-case form is the same single code unit, and
    a unit at or above 128 is never folded to one below 128, so only the
    two ASCII cases of the letter match. *)
Definition ascii_upper (c : N) : N :=
  if (N.leb 97 c && N.leb c 122)%bool then (c - 32)%N else c.

Definition ci_eqb (a c : N) : bool := N.eqb (ascii_upper a) (ascii_upper c).

Fixpoint expect_ci (p s : jsstring) : option jsstring :=
  match p with
  | [] => Some s
  | a :: p' =>
      match s with
      | c :: s' => if ci_eqb a c then expect_ci p' s' else None
      | [] => None
      end
  end.

(** The lazy [[\s\S]*?] followed by the literal [p] (with the [i] flag):
    what follows the first occurrence of [p]. *)
Fixpoint find_ci (p s : jsstring) : option jsstring :=
  match expect_ci p s with
  | Some r => Some r
  | None =>
      match s with
      | _ :: s' => find_ci p s'
      | [] => None
      end
  end.

(** [/<script[\s\S]*?<\/script>/gi], tried at the head of [s]. *)
Definition match_script (s : jsstring) : option jsstring :=
  match expect_ci (lit "<script") s with
  | Some r => find_ci (lit "</script>") r
  | None => None
  end.

(** [/<[^>]+>/g], tried at the head of [s]. *)
Definition match_tag (s : jsstring) : option jsstring :=
  match expect_str [LT] s with
  | Some r =>
      match plus (neqb GT) r with
      | Some r' => expect_str [GT] r'
      | None => None
      end
  | None => None
  end.

(** [/!\[[^\]]*\]\(https?:\/\/[^)]+\)/g], tried at the head of [s]. After
    [http] the optional [s] is taken when it is there: without it the
    next token [:] would have to match that same [s]. *)
Definition match_mdimage (s : jsstring) : option jsstring :=
  match expect_str (lit "![") s with
  | Some r1 =>
      match expect_str (lit "](http") (skip_while (neqb (cu "]")) r1) with
      | Some r2 =>
          let r3 := match expect_str (lit "s") r2 with
                    | Some r => r
                    | None => r2
                    end in
          match expect_str (lit "://") r3 with
          | Some r4 =>
              match plus (neqb (cu ")")) r4 with
              | Some r5 => expect_str (lit ")") r5
              | None => None
              end
          | None => None
          end
      | None => None
      end
  | None => None
  end.

(** [\w] without flags: [[A-Za-z0-9_]]. *)
Definition is_word (c : N) : bool :=
  ((N.leb 65 c && N.leb c 90) || (N.leb 97 c && N.leb c 122)
   || (N.leb 48 c && N.leb c 57) || N.eqb c UNDERSCORE)%bool.

(** The class [[\w+/=]]. *)
Definition is_b64 (c : N) : bool :=
  (is_word c || N.eqb c (cu "+") || N.eqb c (cu "/") || N.eqb c (cu "="))%bool.

(** [/data:[^,]+,[\w+/=]+/g], tried at the head of [s]. *)
Definition match_datauri (s : jsstring) : option jsstring :=
  match expect_str (lit "data:") s with
  | Some r1 =>
      match plus (neqb (cu ",")) r1 with
      | Some r2 =>
          match expect_str (lit ",") r2 with
          | Some r3 => plus is_b64 r3
          | None => None
          end
      | None => None
      end
  | None => None
  end.

(** [s.replace(/re/g, repl)] for a pattern that never matches the empty
    string: scan from the left; where the pattern matches, emit [repl] and
    go on after the match, otherwise copy one code unit. [m s] tries the
    pattern at the head of [s] and returns what follows the match. The
    fuel bounds the number of scan steps; [replaceAll] gives one more than
    the length of the string, which is never used up ([replace_from_fuel]). *)
Fixpoint replace_from (m : jsstring -> option jsstring) (repl : jsstring)
    (fuel : nat) (s : jsstring) : jsstring :=
  match fuel with
  | O => s
  | S fuel' =>
      match m s with
      | Some rest => repl ++ replace_from m repl fuel' rest
      | None =>
          match s with
          | c :: s' => c :: replace_from m repl fuel' s'
          | [] => []
          end
      end
  end.

Definition replaceAll (m : jsstring -> option jsstring) (repl s : jsstring)
    : jsstring :=
  replace_from m repl (S (length s)) s.

(** [s.slice(0, e)] for an integer [e]: a negative end counts from the end
    of the string, and the end is clamped to the string. *)
Definition slice0 (s : jsstring) (e : Z) : jsstring :=
  let len := Z.of_nat (length s) in
  let to := if e <? 0 then Z.max (len + e) 0 else Z.min e len in
  take (Z.to_nat to) s.

(** An integer in a template literal: its decimal digits, with a sign.
    This is what JavaScript prints for an integer below 10^21 in absolute
    value; from there on it prints an exponent form, which is not
    modelled. *)
Definition decimal (n : Z) : jsstring :=
  lit (NilZero.string_of_int (Z.to_int n)).

(** [s.includes(p)]. *)
Fixpoint includes (p s : jsstring) : bool :=
  match expect_str p s with
  | Some _ => true
  | None =>
      match s with
      | _ :: s' => includes p s'
      | [] => false
      end
  end.

End JsString.

(* ===================================================================== *)
(** ** types.ts                                                           *)
(* ===================================================================== *)

Module Types.

Inductive TrustLevel : Type := trusted | untrusted | sanitize.

Inductive TransportType : Type := stdio | http | sse | auto.

(** [McpServerConfig]. The fields [args], [env], [headers] and
    [toolFilter] are handed on to the SDK or to the bridge and are read by
    none of the functions modelled here; they are left out. *)
Record McpServerConfig : Type := mkConfig {
  enabled : bool;
  transport : TransportType;
  command : option string;
  url : option string;
  trust : TrustLevel;
  maxResultChars : Z;
  timeout : Z
}.

Record McpDefaults : Type := mkDefaults {
  defaults_trust : TrustLevel;
  defaults_timeout : Z;
  retries : nat;
  defaults_maxResultChars : Z
}.

Record McpPluginConfig : Type := mkPluginConfig {
  config_servers : gmap string McpServerConfig;
  defaults : McpDefaults
}.

Inductive ConnectionState : Type :=
  | disconnected | connecting | connected | error | reconnecting.

(** [McpToolInfo], without its [inputSchema] (a JSON object that the
    manager stores and never inspects). *)
Record McpToolInfo : Type := mkToolInfo {
  serverName : string;
  name : string;
  description : option string
}.

End Types.

(* ===================================================================== *)
(** ** security.ts                                                        *)
(* ===================================================================== *)

Module Security.
Import JsString.
Export Types.

(** [trust === other]. *)
Definition TrustLevel_eqb (a b : TrustLevel) : bool :=
  match a, b with
  | trusted, trusted | untrusted, untrusted | sanitize, sanitize => true
  | _, _ => false
  end.

(** The [resource] member of a resource block; an absent optional field
    is [None]. *)
Record Resource : Type := mkResource {
  uri : jsstring;
  text : option jsstring;
  blob : option jsstring;
  mimeType : option jsstring
}.

(** [ToolContent] of src/client.ts, a union tagged by [type]. *)
Inductive ToolContent : Type :=
  | TextBlock (text : jsstring)
  | ImageBlock (data : jsstring) (mimeType : jsstring)
  | ResourceBlock (resource : Resource).

(** [ToolCallResult] of src/client.ts. *)
Record ToolCallResult : Type := mkResult {
  content : list ToolContent;
  isError : bool
}.

Definition UNTRUSTED_PREFIX : jsstring :=
  lit "[MCP: untrusted source " ++ [EMDASH] ++ lit " treat with caution]"
  ++ [LF; LF].

Definition SANITIZE_PREFIX : jsstring :=
  lit "[MCP: sanitized result " ++ [EMDASH]
  ++ lit " original content may have contained injections]" ++ [LF; LF].

(** [stripDangerous]: the four global replacements, in the order of the
    source. *)
Definition stripDangerous (text : jsstring) : jsstring :=
  replaceAll match_datauri (lit "[data-uri removed]")
    (replaceAll match_mdimage (lit "[image removed]")
      (replaceAll match_tag []
        (replaceAll match_script [] text))).

(** [truncate], for an integer [maxChars]. *)
Definition truncate (text : jsstring) (maxChars : Z) : jsstring :=
  if Z.of_nat (length text) <=? maxChars then text
  else slice0 text maxChars
       ++ [LF; LF] ++ lit "[...truncated at " ++ decimal maxChars
       ++ lit " chars]".

(** [applyTrustToText]. *)
Definition applyTrustToText (text : jsstring) (trust : TrustLevel)
    (maxChars : Z) : jsstring :=
  match trust with
  | trusted => truncate text maxChars
  | untrusted => UNTRUSTED_PREFIX ++ truncate text maxChars
  | sanitize => SANITIZE_PREFIX ++ truncate (stripDangerous text) maxChars
  end.

Definition is_text (c : ToolContent) : bool :=
  match c with TextBlock _ => true | _ => false end.

(** [a ?? b]. *)
Definition nullish (a : option jsstring) (b : jsstring) : jsstring :=
  match a with Some x => x | None => b end.

(** The fast path of [applyTrustPolicy] (lines 256-265): the result is
    spread and its content mapped. *)
Definition fastPath (result : ToolCallResult) (maxChars : Z)
    : ToolCallResult :=
  {| content :=
       map (fun c => match c with
                     | TextBlock t => TextBlock (truncate t maxChars)
                     | _ => c
                     end) (content result);
     isError := isError result |}.

(** One iteration of the loop of [applyTrustPolicy] (lines 269-319):
    [processed.push(...)] for the block at hand. *)
Definition processBlock (trust : TrustLevel) (maxChars : Z)
    (processed : list ToolContent) (block : ToolContent)
    : list ToolContent :=
  match block with
  | TextBlock t =>
      processed ++ [TextBlock (applyTrustToText t trust maxChars)]
  | ImageBlock _ _ =>
      match trust with
      | sanitize =>
          processed
          ++ [TextBlock (lit "[image content removed by sanitize policy]")]
      | _ => processed ++ [block]
      end
  | ResourceBlock r =>
      match trust with
      | sanitize =>
          let text := nullish (text r) [] in
          processed
          ++ [TextBlock (applyTrustToText
                           (lit "Resource: " ++ uri r ++ [LF] ++ text)
                           trust maxChars)]
      | untrusted =>
          processed
          ++ [TextBlock (applyTrustToText
                           (lit "Resource: " ++ uri r ++ [LF]
                            ++ nullish (text r) [])
                           trust maxChars)]
      | trusted =>
          processed
          ++ [TextBlock (nullish (text r) (lit "Resource: " ++ uri r))]
      end
  end.

(** The general path of [applyTrustPolicy] (lines 267-321). *)
Definition generalPath (result : ToolCallResult) (trust : TrustLevel)
    (maxChars : Z) : ToolCallResult :=
  {| content := fold_left (processBlock trust maxChars) (content result) [];
     isError := isError result |}.

(** [applyTrustPolicy]. *)
Definition applyTrustPolicy (result : ToolCallResult) (trust : TrustLevel)
    (maxChars : Z) : ToolCallResult :=
  if (TrustLevel_eqb trust trusted && forallb is_text (content result))%bool
  then fastPath result maxChars
  else generalPath result trust maxChars.

End Security.

(* ===================================================================== *)
(** ** bridge.ts                                                          *)
(* ===================================================================== *)

Module Bridge.
Import JsString.

(** [s.toLowerCase()] on code units. The ASCII capitals go to their small
    letters; U+0130 goes to [i] followed by U+0307 and U+212A (the Kelvin
    sign) to [k]. Every other code unit is mapped by JavaScript to one
    code unit outside ASCII (or left alone); the model leaves it alone,
    which the replacement that follows in [safe] cannot tell apart. *)
Definition lower_unit (c : N) : jsstring :=
  if (N.leb 65 c && N.leb c 90)%bool then [(c + 32)%N]
  else if N.eqb c 304 then [105%N; 775%N]
  else if N.eqb c 8490 then [107%N]
  else [c].

Definition toLowerCase (s : jsstring) : jsstring := flat_map lower_unit s.

(** The class [[a-z0-9_]]. *)
Definition is_safe (c : N) : bool :=
  ((N.leb 97 c && N.leb c 122) || (N.leb 48 c && N.leb c 57)
   || N.eqb c UNDERSCORE)%bool.

(** [/[^a-z0-9_]/g], tried at the head of [s]. *)
Definition match_unsafe (s : jsstring) : option jsstring :=
  match s with
  | c :: s' => if is_safe c then None else Some s'
  | [] => None
  end.

(** [/_+/g], tried at the head of [s]. *)
Definition match_underscores (s : jsstring) : option jsstring :=
  plus (N.eqb UNDERSCORE) s.

(** [s.replace(/^_|_$/g, "")]: an underscore at index 0 is removed, and
    so is an underscore that is the last code unit. *)
Definition strip_edges (s : jsstring) : jsstring :=
  let s1 := match s with
            | c :: s' => if N.eqb c UNDERSCORE then s' else s
            | [] => []
            end in
  match last s1 with
  | Some c => if N.eqb c UNDERSCORE then removelast s1 else s1
  | None => s1
  end.

(** The local function [safe] of [normalizeToolName]. *)
Definition safe (s : jsstring) : jsstring :=
  strip_edges
    (replaceAll match_underscores [UNDERSCORE]
      (replaceAll match_unsafe [UNDERSCORE] (toLowerCase s))).

(** [normalizeToolName]. *)
Definition normalizeToolName (serverName toolName : jsstring) : jsstring :=
  lit "mcp_" ++ safe serverName ++ lit "_" ++ safe toolName.

End Bridge.

(* ===================================================================== *)
(** ** client.ts: McpClientWrapper                                        *)
(* ===================================================================== *)

Module Client.
Export Types.
Import Security.

(** The table [CONCURRENCY]: it has no entry for ["auto"]. *)
Definition CONCURRENCY (t : TransportType) : option Z :=
  match t with
  | stdio => Some 1
  | http => Some 4
  | sse => Some 2
  | auto => None
  end.

(** What a rejected promise of the wrapper carries. *)
Inductive CallError : Type :=
  | NotConnected            (* thrown by [ensureConnected] *)
  | NullClient              (* [this.client!.callTool] on a null client *)
  | SdkError (msg : string) (* the SDK call rejected *).

(** How the awaited [client.callTool] of the SDK settles. *)
Inductive SdkOutcome : Type :=
  | SdkOk (content : option (list ToolContent)) (isError : option bool)
  | SdkErr (msg : string).

(** Where an invocation of [callTool] stands. An [async] function runs
    until its next [await]; the statuses are the two [await]s of
    [callTool], the gap between a [resolve] and the continuation it
    schedules, and the two ways the returned promise settles. *)
Inductive CallStatus : Type :=
  | Queued                       (* line 105, promise not resolved *)
  | Woken                        (* line 105, resolved, not yet resumed *)
  | InFlight                     (* line 110, SDK call pending *)
  | Returned (r : ToolCallResult)
  | Threw (e : CallError).

(** The wrapper object ([config], [client], [pendingCalls], [callQueue])
    and the promises around it. A session of the SDK is named by a number;
    a [resolve] callback in [callQueue] is named by the invocation that
    awaits its promise. *)
Record McpClientWrapper : Type := mkWrapper {
  config : McpServerConfig;
  client : option nat;
  pendingCalls : Z;
  callQueue : list nat;
  calls : gmap nat CallStatus;  (* the invocations of [callTool] *)
  connecting : list nat;        (* sessions with [client.connect] awaited *)
  closing : nat;                (* [disconnect] calls awaiting [close] *)
  sessions : nat;               (* SDK clients constructed so far *)
  closed : list nat             (* sessions on which [close] was called *)
}.

(** The constructor. *)
Definition new (cfg : McpServerConfig) : McpClientWrapper :=
  {| config := cfg; client := None; pendingCalls := 0; callQueue := [];
     calls := ∅; connecting := []; closing := 0%nat; sessions := 0%nat;
     closed := [] |}.

(** [get maxConcurrency]. *)
Definition maxConcurrency (w : McpClientWrapper) : Z :=
  default 4 (CONCURRENCY (transport (config w))).

(** [get isConnected]. *)
Definition isConnected (w : McpClientWrapper) : bool :=
  bool_decide (is_Some (client w)).

Definition set_call (c : nat) (s : CallStatus) (w : McpClientWrapper)
    : McpClientWrapper :=
  {| config := config w; client := client w; pendingCalls := pendingCalls w;
     callQueue := callQueue w; calls := <[c := s]> (calls w);
     connecting := connecting w; closing := closing w;
     sessions := sessions w; closed := closed w |}.

Definition set_pending (n : Z) (w : McpClientWrapper) : McpClientWrapper :=
  {| config := config w; client := client w; pendingCalls := n;
     callQueue := callQueue w; calls := calls w;
     connecting := connecting w; closing := closing w;
     sessions := sessions w; closed := closed w |}.

Definition set_queue (q : list nat) (w : McpClientWrapper)
    : McpClientWrapper :=
  {| config := config w; client := client w; pendingCalls := pendingCalls w;
     callQueue := q; calls := calls w;
     connecting := connecting w; closing := closing w;
     sessions := sessions w; closed := closed w |}.

(** [createTransport] and the three constructors it calls: does the
    configuration get past their tests? [!this.config.command] and
    [!this.config.url] refuse a string that is absent or empty. A [url]
    that [new URL] cannot parse makes the constructor throw after the
    test; the machine lets such a [connect] go on, so it has every run of
    the code and some more. *)
Definition createTransport (cfg : McpServerConfig) : bool :=
  match transport cfg with
  | stdio =>
      match command cfg with
      | Some c => negb (String.eqb c "")
      | None => false
      end
  | http | sse =>
      match url cfg with
      | Some u => negb (String.eqb u "")
      | None => false
      end
  | auto => false
  end.

(** [connect], up to its [await] (lines 47-56), or to the error thrown
    by [createTransport]. *)
Definition connect (w : McpClientWrapper) : McpClientWrapper :=
  match client w with
  | Some _ => w
  | None =>
      {| config := config w; client := client w;
         pendingCalls := pendingCalls w; callQueue := callQueue w;
         calls := calls w;
         connecting := if createTransport (config w)
                       then sessions w :: connecting w
                       else connecting w;
         closing := closing w; sessions := S (sessions w);
         closed := closed w |}
  end.

(** [connect], after its [await] (line 57), when the SDK connected
    session [s]; when it failed the session is dropped. *)
Definition connect_settled (s : nat) (ok : bool) (w : McpClientWrapper)
    : McpClientWrapper :=
  {| config := config w; client := if ok then Some s else client w;
     pendingCalls := pendingCalls w; callQueue := callQueue w;
     calls := calls w;
     connecting := filter (fun x => x ≠ s) (connecting w);
     closing := closing w; sessions := sessions w; closed := closed w |}.

(** [disconnect], up to its [await] (lines 61-64). *)
Definition disconnect (w : McpClientWrapper) : McpClientWrapper :=
  match client w with
  | None => w
  | Some s =>
      {| config := config w; client := client w;
         pendingCalls := pendingCalls w; callQueue := callQueue w;
         calls := calls w; connecting := connecting w;
         closing := S (closing w); sessions := sessions w;
         closed := s :: closed w |}
  end.

(** The [finally] block of [disconnect] (lines 65-69); it runs whether
    [close] resolved or rejected. *)
Definition disconnect_finally (w : McpClientWrapper) : McpClientWrapper :=
  {| config := config w; client := None; pendingCalls := 0; callQueue := [];
     calls := calls w; connecting := connecting w;
     closing := pred (closing w); sessions := sessions w;
     closed := closed w |}.

(** The [finally] block of [callTool] (lines 119-124). *)
Definition callTool_finally (w : McpClientWrapper) : McpClientWrapper :=
  let w1 := set_pending (pendingCalls w - 1) w in
  match callQueue w1 with
  | next :: rest => set_call next Woken (set_queue rest w1)
  | [] => w1
  end.

(** [callTool] from line 107 on, up to the [await] of line 110:
    [pendingCalls++], then the SDK call on [this.client!]. *)
Definition callTool_admit (c : nat) (w : McpClientWrapper)
    : McpClientWrapper :=
  let w1 := set_pending (pendingCalls w + 1) w in
  match client w1 with
  | Some _ => set_call c InFlight w1
  | None => set_call c (Threw NullClient) (callTool_finally w1)
  end.

(** [callTool], invocation [c], up to its first [await]
    (lines 101-110). *)
Definition callTool (c : nat) (w : McpClientWrapper) : McpClientWrapper :=
  match client w with
  | None => set_call c (Threw NotConnected) w
  | Some _ =>
      if pendingCalls w >=? maxConcurrency w
      then set_call c Queued (set_queue (callQueue w ++ [c]) w)
      else callTool_admit c w
  end.

(** [callTool], invocation [c], after the [await] of line 110. *)
Definition callTool_settled (c : nat) (r : SdkOutcome)
    (w : McpClientWrapper) : McpClientWrapper :=
  let w1 := callTool_finally w in
  match r with
  | SdkOk content isError =>
      set_call c (Returned {| Security.content := default [] content;
                              Security.isError := default false isError |})
               w1
  | SdkErr msg => set_call c (Threw (SdkError msg)) w1
  end.

(** What the callers and the runtime can do next. *)
Inductive Label : Type :=
  | LConnect                           (* [connect()] is called *)
  | LConnectSettled (s : nat) (ok : bool)
  | LDisconnect                        (* [disconnect()] is called *)
  | LCloseSettled                      (* an awaited [close] settled *)
  | LCallTool (c : nat)                (* [callTool(...)] is called *)
  | LResume (c : nat)                  (* a woken invocation goes on *)
  | LCallSettled (c : nat) (r : SdkOutcome).

(** One step; [None] when the label cannot happen in this state. *)
Definition step (w : McpClientWrapper) (l : Label)
    : option McpClientWrapper :=
  match l with
  | LConnect => Some (connect w)
  | LConnectSettled s ok =>
      if bool_decide (s ∈ connecting w) then Some (connect_settled s ok w)
      else None
  | LDisconnect => Some (disconnect w)
  | LCloseSettled =>
      match closing w with
      | O => None
      | S _ => Some (disconnect_finally w)
      end
  | LCallTool c =>
      match calls w !! c with
      | None => Some (callTool c w)
      | Some _ => None
      end
  | LResume c =>
      match calls w !! c with
      | Some Woken => Some (callTool_admit c w)
      | _ => None
      end
  | LCallSettled c r =>
      match calls w !! c with
      | Some InFlight => Some (callTool_settled c r w)
      | _ => None
      end
  end.

Fixpoint exec (w : McpClientWrapper) (ls : list Label)
    : option McpClientWrapper :=
  match ls with
  | [] => Some w
  | l :: ls' =>
      match step w l with
      | Some w' => exec w' ls'
      | None => None
      end
  end.

(** The call-operations in flight: the invocations whose SDK call is
    pending. *)
Definition is_InFlight (s : CallStatus) : bool :=
  match s with InFlight => true | _ => false end.

Definition inFlight (w : McpClientWrapper) : nat :=
  size (filter (fun kv => is_InFlight kv.2 = true) (calls w)).

End Client.

(* ===================================================================== *)
(** ** manager.ts: McpServerManager                                       *)
(* ===================================================================== *)

Module Manager.
Export Types.

(** [ManagedServer] of src/types.ts, with the [_wrapper] field that
    [doConnect] attaches to it. A wrapper is named by the order in which
    the manager constructed it, a promise of [doConnect] by the order in
    which [doConnect] was called. *)
Record ManagedServer : Type := mkServer {
  name : string;
  config : McpServerConfig;
  client : option nat;
  state : ConnectionState;
  error : option string;
  tools : list McpToolInfo;
  lastPing : option Z;
  connectPromise : option nat;
  _wrapper : option nat
}.

(** The state ["error"] is written [Types.error] below, where [error] is
    the field of [ManagedServer]. *)

(** A quotation mark, for the messages of the errors. *)
Definition dquote : string := String (ascii_of_nat 34) EmptyString.

(** How a promise of the manager settles: [Rejected msg] carries an
    [Error] whose message is [msg]. *)
Inductive Settled : Type :=
  | Fulfilled
  | Rejected (msg : string).

(** The [await] at which an invocation of [doConnect] is suspended. *)
Inductive Pc : Type :=
  | AwaitConnect     (* line 79 *)
  | AwaitListTools   (* line 80 *)
  | AwaitTimer       (* line 103 *).

(** The locals of a suspended invocation of [doConnect]. *)
Record DoConnect : Type := mkDoConnect {
  dc_server : string;       (* the [server] parameter, by its key *)
  dc_retries : nat;         (* [const retries] *)
  lastError : option string;
  attempt : nat;
  dc_client : nat;          (* [const client], the wrapper of this attempt *)
  pc : Pc
}.

Inductive Promise : Type :=
  | Running (t : DoConnect)
  | Done (r : Settled).

(** Where an invocation of [connectServer] stands. *)
Inductive Caller : Type :=
  | AwaitShared (p : nat)                  (* line 47 *)
  | AwaitOwner (name : string) (p : nat)   (* line 53 *)
  | Finished (r : Settled).

(** The messages handed to the log sink, by their template. *)
Inductive LogMsg : Type :=
  | LogConnecting (name : string) (attempt retries : nat)
  | LogConnected (name : string) (ntools : nat)
  | LogFailed (name msg : string)
  | LogDisconnected (name : string)
  | LogErrorFrom (name msg : string).

(** What the manager does to the world around it: a message to the log
    sink, a call of [connect], [listTools] or [disconnect] on the wrapper
    with the given number, a call of [setTimeout] with the given delay. *)
Inductive Effect : Type :=
  | ELog (msg : LogMsg)
  | EConnect (w : nat)
  | EListTools (w : nat)
  | EDisconnect (w : nat)
  | ESetTimeout (delay : Z).

(** The manager ([servers], [config]) and the runtime around it: the
    effects so far, in order; the promises of [doConnect]; the
    invocations of [connectServer] and of [disconnectServer] that are
    suspended; the wrappers constructed, each with the server whose
    [onError] closure it was given. *)
Record McpServerManager : Type := mkManager {
  servers : gmap string ManagedServer;
  mconfig : McpPluginConfig;
  trace : list Effect;
  doConnects : list Promise;
  callers : gmap nat Caller;
  disconnecting : gmap nat string;
  wrappers : list string
}.

(** [initializeServers], called by the constructor. *)
Definition initializeServers (cfg : McpPluginConfig)
    : gmap string ManagedServer :=
  map_imap (fun name c =>
              if enabled c
              then Some {| name := name; config := c; client := None;
                           state := disconnected; error := None;
                           tools := []; lastPing := None;
                           connectPromise := None; _wrapper := None |}
              else None)
           (config_servers cfg).

(** The constructor. *)
Definition new (cfg : McpPluginConfig) : McpServerManager :=
  {| servers := initializeServers cfg; mconfig := cfg; trace := [];
     doConnects := []; callers := ∅; disconnecting := ∅; wrappers := [] |}.

(** [setState]. *)
Definition setState (server : ManagedServer) (st : ConnectionState)
    (err : option string) : ManagedServer :=
  {| name := name server; config := config server; client := client server;
     state := st;
     error := match err with Some e => Some e | None => error server end;
     tools := tools server; lastPing := lastPing server;
     connectPromise := connectPromise server;
     _wrapper := _wrapper server |}.

Definition set_connectPromise (p : option nat) (server : ManagedServer)
    : ManagedServer :=
  {| name := name server; config := config server; client := client server;
     state := state server; error := error server; tools := tools server;
     lastPing := lastPing server; connectPromise := p;
     _wrapper := _wrapper server |}.

(** Lines 82-88 of [doConnect]: the attempt succeeded. *)
Definition store_connected (w : nat) (ts : list McpToolInfo) (now : Z)
    (server : ManagedServer) : ManagedServer :=
  setState
    {| name := name server; config := config server; client := Some w;
       state := state server; error := None; tools := ts;
       lastPing := Some now; connectPromise := connectPromise server;
       _wrapper := Some w |}
    connected None.

(** Lines 146-149 of [disconnectServer]. *)
Definition clear_server (server : ManagedServer) : ManagedServer :=
  setState
    {| name := name server; config := config server; client := None;
       state := state server; error := error server; tools := [];
       lastPing := lastPing server;
       connectPromise := connectPromise server; _wrapper := None |}
    disconnected None.

Definition upd_servers (f : gmap string ManagedServer
                            -> gmap string ManagedServer)
    (m : McpServerManager) : McpServerManager :=
  {| servers := f (servers m); mconfig := mconfig m; trace := trace m;
     doConnects := doConnects m; callers := callers m;
     disconnecting := disconnecting m; wrappers := wrappers m |}.

Definition add_effect (e : Effect) (m : McpServerManager)
    : McpServerManager :=
  {| servers := servers m; mconfig := mconfig m; trace := trace m ++ [e];
     doConnects := doConnects m; callers := callers m;
     disconnecting := disconnecting m; wrappers := wrappers m |}.

(** [this.log(...)]. *)
Definition add_log (x : LogMsg) (m : McpServerManager) : McpServerManager :=
  add_effect (ELog x) m.

Definition upd_doConnects (f : list Promise -> list Promise)
    (m : McpServerManager) : McpServerManager :=
  {| servers := servers m; mconfig := mconfig m; trace := trace m;
     doConnects := f (doConnects m); callers := callers m;
     disconnecting := disconnecting m; wrappers := wrappers m |}.

Definition set_caller (c : nat) (s : Caller) (m : McpServerManager)
    : McpServerManager :=
  {| servers := servers m; mconfig := mconfig m; trace := trace m;
     doConnects := doConnects m; callers := <[c := s]> (callers m);
     disconnecting := disconnecting m; wrappers := wrappers m |}.

Definition upd_disconnecting (f : gmap nat string -> gmap nat string)
    (m : McpServerManager) : McpServerManager :=
  {| servers := servers m; mconfig := mconfig m; trace := trace m;
     doConnects := doConnects m; callers := callers m;
     disconnecting := f (disconnecting m); wrappers := wrappers m |}.

(** [new McpClientWrapper(...)] for the server [owner], and
    [client.connect()] on it (lines 70-79). *)
Definition add_wrapper (owner : string) (m : McpServerManager)
    : McpServerManager :=
  {| servers := servers m; mconfig := mconfig m;
     trace := trace m ++ [EConnect (length (wrappers m))];
     doConnects := doConnects m; callers := callers m;
     disconnecting := disconnecting m; wrappers := wrappers m ++ [owner] |}.

(** [doConnect], the end of the function (lines 108-109): the loop is
    over, the promise [p] rejects. *)
Definition loop_exit (p : nat) (t : DoConnect) (m : McpServerManager)
    : McpServerManager :=
  let m1 := upd_servers
              (alter (fun s => setState s Types.error (lastError t))
                     (dc_server t)) m in
  let thrown := default ("Failed to connect to " +:+ dquote
                         +:+ dc_server t +:+ dquote)
                        (lastError t) in
  upd_doConnects (<[p := Done (Rejected thrown)]>) m1.

(** [doConnect], the loop test and the body up to the [await] of line 79:
    [t] holds the locals with [attempt] already set for this round. *)
Definition loop_head (p : nat) (t : DoConnect) (m : McpServerManager)
    : McpServerManager :=
  if (attempt t <=? dc_retries t)%nat then
    let m1 := upd_servers
                (alter (fun s => setState s connecting None) (dc_server t))
                m in
    let m2 := add_log (LogConnecting (dc_server t) (attempt t)
                                     (dc_retries t)) m1 in
    let w := length (wrappers m2) in
    let m3 := add_wrapper (dc_server t) m2 in
    upd_doConnects
      (<[p := Running {| dc_server := dc_server t;
                         dc_retries := dc_retries t;
                         lastError := lastError t; attempt := attempt t;
                         dc_client := w; pc := AwaitConnect |}]>) m3
  else loop_exit p t m.

Definition next_round (t : DoConnect) : DoConnect :=
  {| dc_server := dc_server t; dc_retries := dc_retries t;
     lastError := lastError t; attempt := S (attempt t);
     dc_client := dc_client t; pc := pc t |}.

(** [doConnect], the [catch] block (lines 94-105) for the error [e]. *)
Definition catch_block (p : nat) (t : DoConnect) (e : string)
    (m : McpServerManager) : McpServerManager :=
  let t1 := {| dc_server := dc_server t; dc_retries := dc_retries t;
               lastError := Some e; attempt := attempt t;
               dc_client := dc_client t; pc := pc t |} in
  let m1 := add_log (LogFailed (dc_server t) e) m in
  if (attempt t <? dc_retries t)%nat then
    let delay := 1000 * 2 ^ Z.of_nat (attempt t) in
    upd_doConnects
      (<[p := Running {| dc_server := dc_server t1;
                         dc_retries := dc_retries t1;
                         lastError := lastError t1; attempt := attempt t1;
                         dc_client := dc_client t1; pc := AwaitTimer |}]>)
      (add_effect (ESetTimeout delay) m1)
  else loop_head p (next_round t1) m1.

(** [doConnect(server)] up to its first [await]; the promise it returns
    is the next one in [doConnects]. *)
Definition doConnect (server : string) (m : McpServerManager)
    : McpServerManager :=
  let p := length (doConnects m) in
  let t := {| dc_server := server;
              dc_retries := retries (defaults (mconfig m));
              lastError := None; attempt := 0%nat; dc_client := 0%nat;
              pc := AwaitConnect |} in
  loop_head p t (upd_doConnects (fun ps => ps ++ [Running t]) m).

(** [connectServer(name)], invocation [c], up to its [await]
    (lines 40-53). *)
Definition connectServer (c : nat) (nm : string) (m : McpServerManager)
    : McpServerManager :=
  match servers m !! nm with
  | None => set_caller c (Finished (Rejected ("Unknown MCP server: " +:+ nm)))
                       m
  | Some server =>
      match state server with
      | connected => set_caller c (Finished Fulfilled) m
      | _ =>
          match connectPromise server with
          | Some p => set_caller c (AwaitShared p) m
          | None =>
              let p := length (doConnects m) in
              let m1 := doConnect nm m in
              let m2 := upd_servers
                          (alter (set_connectPromise (Some p)) nm) m1 in
              set_caller c (AwaitOwner nm p) m2
          end
      end
  end.

(** [connectServer], invocation [c], after its [await]: the awaited
    promise settled with [r]. The owner runs its [finally] (line 55). *)
Definition connectServer_resume (c : nat) (who : Caller) (r : Settled)
    (m : McpServerManager) : McpServerManager :=
  match who with
  | AwaitOwner nm _ =>
      set_caller c (Finished r)
        (upd_servers (alter (set_connectPromise None) nm) m)
  | _ => set_caller c (Finished r) m
  end.

(** [disconnectServer], lines 146-150. *)
Definition disconnect_finish (nm : string) (m : McpServerManager)
    : McpServerManager :=
  add_log (LogDisconnected nm) (upd_servers (alter clear_server nm) m).

(** [disconnectServer(name)], invocation [d], up to its [await]
    (lines 133-140), or to its end when there is no wrapper. *)
Definition disconnectServer (d : nat) (nm : string) (m : McpServerManager)
    : McpServerManager :=
  match servers m !! nm with
  | None => m
  | Some server =>
      match _wrapper server with
      | Some w => upd_disconnecting (<[d := nm]>) (add_effect (EDisconnect w) m)
      | None => disconnect_finish nm m
      end
  end.

(** The [onError] closure that [doConnect] hands to every wrapper it
    constructs for [server] (lines 73-76). *)
Definition onError (server : string) (msg : string) (m : McpServerManager)
    : McpServerManager :=
  upd_servers (alter (fun s => setState s Types.error (Some msg)) server)
              (add_log (LogErrorFrom server msg) m).

(** What the callers and the runtime can do next. *)
Inductive Label : Type :=
  | LConnectServer (c : nat) (nm : string)
  | LConnectSettled (p : nat) (r : Settled)
      (* the [client.connect()] awaited by promise [p] settled *)
  | LListToolsSettled (p : nat) (r : list McpToolInfo + string) (now : Z)
      (* the [client.listTools()] awaited by promise [p] settled *)
  | LTimer (p : nat)        (* the backoff timer of promise [p] fired *)
  | LResume (c : nat)       (* an invocation of [connectServer] goes on *)
  | LDisconnectServer (d : nat) (nm : string)
  | LDisconnectSettled (d : nat)
      (* the [wrapper.disconnect()] awaited by [d] settled *)
  | LOnError (w : nat) (msg : string)
      (* wrapper [w] calls its [onError] *).

(** One step; [None] when the label cannot happen in this state. *)
Definition step (m : McpServerManager) (l : Label)
    : option McpServerManager :=
  match l with
  | LConnectServer c nm =>
      match callers m !! c with
      | None => Some (connectServer c nm m)
      | Some _ => None
      end
  | LConnectSettled p r =>
      match doConnects m !! p with
      | Some (Running t) =>
          match pc t, r with
          | AwaitConnect, Fulfilled =>
              Some (upd_doConnects
                      (<[p := Running {| dc_server := dc_server t;
                                         dc_retries := dc_retries t;
                                         lastError := lastError t;
                                         attempt := attempt t;
                                         dc_client := dc_client t;
                                         pc := AwaitListTools |}]>)
                      (add_effect (EListTools (dc_client t)) m))
          | AwaitConnect, Rejected e => Some (catch_block p t e m)
          | _, _ => None
          end
      | _ => None
      end
  | LListToolsSettled p r now =>
      match doConnects m !! p with
      | Some (Running t) =>
          match pc t, r with
          | AwaitListTools, inl ts =>
              Some (upd_doConnects (<[p := Done Fulfilled]>)
                      (add_log (LogConnected (dc_server t) (length ts))
                         (upd_servers
                            (alter (store_connected (dc_client t) ts now)
                                   (dc_server t)) m)))
          | AwaitListTools, inr e => Some (catch_block p t e m)
          | _, _ => None
          end
      | _ => None
      end
  | LTimer p =>
      match doConnects m !! p with
      | Some (Running t) =>
          match pc t with
          | AwaitTimer => Some (loop_head p (next_round t) m)
          | _ => None
          end
      | _ => None
      end
  | LResume c =>
      match callers m !! c with
      | Some (Finished _) | None => None
      | Some who =>
          let p := match who with
                   | AwaitShared p | AwaitOwner _ p => p
                   | Finished _ => 0%nat
                   end in
          match doConnects m !! p with
          | Some (Done r) => Some (connectServer_resume c who r m)
          | _ => None
          end
      end
  | LDisconnectServer d nm =>
      match disconnecting m !! d with
      | None => Some (disconnectServer d nm m)
      | Some _ => None
      end
  | LDisconnectSettled d =>
      match disconnecting m !! d with
      | Some nm =>
          Some (disconnect_finish nm (upd_disconnecting (delete d) m))
      | None => None
      end
  | LOnError w msg =>
      match wrappers m !! w with
      | Some server => Some (onError server msg m)
      | None => None
      end
  end.

Fixpoint exec (m : McpServerManager) (ls : list Label)
    : option McpServerManager :=
  match ls with
  | [] => Some m
  | l :: ls' =>
      match step m l with
      | Some m' => exec m' ls'
      | None => None
      end
  end.

End Manager.

(* ===================================================================== *)
(** ** Predicates in which the properties are stated                      *)
(* ===================================================================== *)

Module Props.
Import JsString.

(** A matcher consumes at least one code unit and returns a suffix of
    its input. *)
Definition consumes (m : jsstring -> option jsstring) : Prop :=
  forall s r, m s = Some r -> exists c k, s = c :: k ++ r.

(** No [<] of [s] opens a tag: each one is followed at once by [>], or by
    no [>] at all. *)
Fixpoint clean (s : jsstring) : Prop :=
  match s with
  | [] => True
  | c :: r => (c = LT -> head r = Some GT \/ GT ∉ r) /\ clean r
  end.

(** A name in normal form: code units of [[a-z0-9_]] only, no underscore
    at either end and no two underscores in a row. *)
Fixpoint no_double_underscore (s : jsstring) : bool :=
  match s with
  | c :: s' =>
      negb (N.eqb c UNDERSCORE
            && match s' with c' :: _ => N.eqb c' UNDERSCORE | [] => false end)
      && no_double_underscore s'
  | [] => true
  end.

(** The block that one round of the loop of [applyTrustPolicy] pushes. *)
Definition pushed (trust : Types.TrustLevel) (maxChars : Z)
    (block : Security.ToolContent) : Security.ToolContent :=
  default block (last (Security.processBlock trust maxChars [] block)).

Definition is_normal (s : jsstring) : bool :=
  forallb Bridge.is_safe s
  && negb (bool_decide (head s = Some UNDERSCORE))
  && negb (bool_decide (last s = Some UNDERSCORE))
  && no_double_underscore s.

(** The normalization of a name, said directly. What one code unit
    becomes when it is lower-cased and then, if it is outside
    [[a-z0-9_]], replaced by an underscore: a capital letter of ASCII
    becomes its small letter, the Kelvin sign U+212A becomes [k], U+0130
    becomes [i] and an underscore (for the combining dot that follows the
    [i]), and every other code unit outside the class an underscore. *)
Definition unit_form (c : N) : jsstring :=
  if (N.leb 65 c && N.leb c 90)%bool then [(c + 32)%N]
  else if Bridge.is_safe c then [c]
  else if N.eqb c 304 then [105%N; UNDERSCORE]
  else if N.eqb c 8490 then [107%N]
  else [UNDERSCORE].

(** Every run of underscores becomes one underscore. *)
Fixpoint collapse (s : jsstring) : jsstring :=
  match s with
  | c :: s' =>
      if N.eqb c UNDERSCORE
      then match s' with
           | c' :: _ => if N.eqb c' UNDERSCORE then collapse s'
                        else c :: collapse s'
           | [] => [c]
           end
      else c :: collapse s'
  | [] => []
  end.

(** The underscores at the head are dropped. *)
Fixpoint drop_underscores (s : jsstring) : jsstring :=
  match s with
  | c :: s' => if N.eqb c UNDERSCORE then drop_underscores s' else s
  | [] => []
  end.

(** The underscores at the two ends are stripped. *)
Definition trim (s : jsstring) : jsstring :=
  rev (drop_underscores (rev (drop_underscores s))).

(** Lower-case and replace, collapse, strip. *)
Definition normal_form (s : jsstring) : jsstring :=
  trim (collapse (flat_map unit_form s)).

(** *** The client *)

(** A stdio client, a streaming-HTTP client and a legacy-event-stream
    client. *)
Definition stdio_config : Types.McpServerConfig :=
  {| Types.enabled := true; Types.transport := Types.stdio;
     Types.command := Some "npx"%string; Types.url := None;
     Types.trust := Types.untrusted; Types.maxResultChars := 50000;
     Types.timeout := 30000 |}.

Definition http_config : Types.McpServerConfig :=
  {| Types.enabled := true; Types.transport := Types.http;
     Types.command := None;
     Types.url := Some "https://mcp.example.com"%string;
     Types.trust := Types.untrusted; Types.maxResultChars := 50000;
     Types.timeout := 30000 |}.

Definition sse_config : Types.McpServerConfig :=
  {| Types.enabled := true; Types.transport := Types.sse;
     Types.command := None;
     Types.url := Some "https://mcp.example.com"%string;
     Types.trust := Types.untrusted; Types.maxResultChars := 50000;
     Types.timeout := 30000 |}.

(** A connected stdio client with invocation 1 in flight and invocations
    2 and 3 queued behind it, in this order. *)
Definition busy_wrapper : Client.McpClientWrapper :=
  {| Client.config := stdio_config; Client.client := Some 0%nat;
     Client.pendingCalls := 1; Client.callQueue := [2%nat; 3%nat];
     Client.calls := {[ 1%nat := Client.InFlight; 2%nat := Client.Queued;
                        3%nat := Client.Queued ]};
     Client.connecting := []; Client.closing := 0%nat;
     Client.sessions := 1%nat; Client.closed := [] |}.

(** An invocation that was queued and has not been refused: it waits, it
    has been woken, its call is in flight, or it has settled the way its
    call did. *)
Definition passed (s : option Client.CallStatus) : Prop :=
  match s with
  | Some (Client.Threw Client.NotConnected) | None => False
  | Some _ => True
  end.

(** *** The manager *)

Definition is_onError (l : Manager.Label) : bool :=
  match l with Manager.LOnError _ _ => true | _ => false end.

(** What holds of the manager between any two steps: a running
    [doConnect] is the [connectPromise] of its server, which is not
    connected; the invocation of [connectServer] that started a
    [doConnect] and still waits for it finds it in [connectPromise], and
    no other invocation waits as the owner of the same promise. With
    [strict], and as long as no [onError] closure is called: tools are
    kept only by a connected server. *)
Record Inv (strict : bool) (m : Manager.McpServerManager) : Prop := mkInv {
  inv_tools : strict = true -> forall nm s,
    Manager.servers m !! nm = Some s ->
    Manager.tools s <> [] -> Manager.state s = Types.connected;
  inv_running : forall p t s,
    Manager.doConnects m !! p = Some (Manager.Running t) ->
    Manager.servers m !! Manager.dc_server t = Some s ->
    Manager.connectPromise s = Some p /\
    Manager.state s <> Types.connected;
  inv_owner : forall c nm p s,
    Manager.callers m !! c = Some (Manager.AwaitOwner nm p) ->
    Manager.servers m !! nm = Some s ->
    Manager.connectPromise s = Some p;
  inv_owner_lt : forall c nm p,
    Manager.callers m !! c = Some (Manager.AwaitOwner nm p) ->
    (p < length (Manager.doConnects m))%nat;
  inv_owner_unique : forall c c' nm nm' p,
    Manager.callers m !! c = Some (Manager.AwaitOwner nm p) ->
    Manager.callers m !! c' = Some (Manager.AwaitOwner nm' p) ->
    c = c'
}.

(** The promise an invocation of [connectServer] waits for. *)
Definition awaits (p : nat) (who : option Manager.Caller) : Prop :=
  match who with
  | Some (Manager.AwaitShared q) | Some (Manager.AwaitOwner _ q) => q = p
  | _ => False
  end.

(** Invocation [c] of [connectServer] observes the outcome of promise [p]
    and no other: it waits for [p], or it has finished the way [p]
    settled. *)
Definition observes (p : nat) (m : Manager.McpServerManager) (c : nat)
    : Prop :=
  awaits p (Manager.callers m !! c) \/
  exists r, Manager.callers m !! c = Some (Manager.Finished r) /\
            Manager.doConnects m !! p = Some (Manager.Done r).

(** While the owner of promise [p] waits for it, the server [nm] exists
    and is connected only once [p] has been fulfilled. *)
Definition window (nm : string) (p : nat) (m : Manager.McpServerManager)
    : Prop :=
  is_Some (Manager.servers m !! nm) /\
  forall s, Manager.servers m !! nm = Some s ->
            Manager.state s = Types.connected ->
            Manager.doConnects m !! p
            = Some (Manager.Done Manager.Fulfilled).

(** No server that is connected in [m'] was not connected in [m]: what
    every stretch of code does to the servers, except the end of a
    successful attempt. *)
Definition demotes (m m' : Manager.McpServerManager) : Prop :=
  (forall nm, is_Some (Manager.servers m !! nm) ->
              is_Some (Manager.servers m' !! nm)) /\
  forall nm s', Manager.servers m' !! nm = Some s' ->
                Manager.state s' = Types.connected ->
                exists s, Manager.servers m !! nm = Some s /\
                          Manager.state s = Types.connected.

(** The invocations of [doConnect] for the server [nm]: each one logs its
    first attempt, attempt 0, once. *)
Definition is_start (nm : string) (e : Manager.Effect) : bool :=
  match e with
  | Manager.ELog (Manager.LogConnecting nm' O _) => String.eqb nm nm'
  | _ => false
  end.

Definition starts (nm : string) (tr : list Manager.Effect) : nat :=
  length (List.filter (is_start nm) tr).

(** The labels of one failing attempt of the [doConnect] behind promise
    [p]: [client.connect()] rejects with the error, or it resolves and
    [client.listTools()] rejects with it ([true]). *)
Definition attempt_fails (p : nat) (x : bool * string)
    : list Manager.Label :=
  if x.1
  then [Manager.LConnectSettled p Manager.Fulfilled;
        Manager.LListToolsSettled p (inr x.2) 0]
  else [Manager.LConnectSettled p (Manager.Rejected x.2)].

(** The labels of a [doConnect] whose every attempt fails, with the timer
    firing between two attempts. *)
Fixpoint failing (p : nat) (xs : list (bool * string))
    : list Manager.Label :=
  match xs with
  | [] => []
  | x :: xs' =>
      attempt_fails p x
      ++ match xs' with
         | [] => []
         | _ :: _ => Manager.LTimer p :: failing p xs'
         end
  end.

(** The effects of that [doConnect] from the [connect] of attempt [a] on
    wrapper [w] onwards, when no other [doConnect] runs in between. *)
Fixpoint failing_effects (nm : string) (n a w : nat)
    (xs : list (bool * string)) : list Manager.Effect :=
  match xs with
  | [] => []
  | x :: xs' =>
      (if x.1 then [Manager.EListTools w] else [])
      ++ Manager.ELog (Manager.LogFailed nm x.2)
      :: match xs' with
         | [] => []
         | _ :: _ =>
             Manager.ESetTimeout (1000 * 2 ^ Z.of_nat a)
             :: Manager.ELog (Manager.LogConnecting nm (S a) n)
             :: Manager.EConnect (S w)
             :: failing_effects nm n (S a) (S w) xs'
         end
  end.

(** The delays handed to [setTimeout], and the wrappers on which
    [connect] was called, in order. *)
Definition timeouts (tr : list Manager.Effect) : list Z :=
  omap (fun e => match e with
                 | Manager.ESetTimeout d => Some d
                 | _ => None
                 end) tr.

Definition connects (tr : list Manager.Effect) : list nat :=
  omap (fun e => match e with
                 | Manager.EConnect w => Some w
                 | _ => None
                 end) tr.

(** The calls of [connect] among the effects [tr] that were made on a
    wrapper constructed for the server [nm]; [ws] gives the server of
    each wrapper. *)
Definition connects_for (nm : string) (ws : list string)
    (tr : list Manager.Effect) : list nat :=
  List.filter (fun w => bool_decide (ws !! w = Some nm)) (connects tr).

(** The messages of the failed attempts for the server [nm] among the
    effects [tr], in order. *)
Definition failures (nm : string) (tr : list Manager.Effect) : list string :=
  omap (fun e => match e with
                 | Manager.ELog (Manager.LogFailed nm' msg) =>
                     if String.eqb nm nm' then Some msg else None
                 | _ => None
                 end) tr.

(** The message that [doConnect] logs when an attempt for the server
    [nm] has connected and listed the tools. *)
Definition is_success (nm : string) (e : Manager.Effect) : bool :=
  match e with
  | Manager.ELog (Manager.LogConnected nm' _) => String.eqb nm nm'
  | _ => false
  end.

(** The number of successful attempts for the server [nm] among the
    effects [tr]. *)
Definition successes (nm : string) (tr : list Manager.Effect) : nat :=
  length (List.filter (is_success nm) tr).

(** How far the [doConnect] behind a promise has come, by the calls of
    [connect] [cs] made for [nm], the failures [fs] and the number [k] of
    successes logged for [nm] since it started, with [R] the configured
    retries. While it runs it is in attempt [attempt t], at most [R]: it
    has called [connect] [attempt t + 1] times, the last time on the
    wrapper of this attempt; every attempt before this one has failed,
    and this one too when it waits for the backoff timer; [lastError] is
    the last failure, and nothing has succeeded. Once fulfilled, every
    call of [connect] but the last has failed and one success is logged.
    Once rejected, [R + 1] calls of [connect] have all failed, and the
    promise carries the message of the last failure. *)
Definition progress (nm : string) (R : nat) (st : option Manager.Promise)
    (cs : list nat) (fs : list string) (k : nat) : Prop :=
  match st with
  | Some (Manager.Running t) =>
      Manager.dc_server t = nm /\ Manager.dc_retries t = R /\
      length cs = S (Manager.attempt t) /\
      last cs = Some (Manager.dc_client t) /\
      Manager.lastError t = last fs /\ k = 0%nat /\
      match Manager.pc t with
      | Manager.AwaitTimer =>
          length fs = S (Manager.attempt t) /\ (Manager.attempt t < R)%nat
      | _ => length fs = Manager.attempt t /\ (Manager.attempt t <= R)%nat
      end
  | Some (Manager.Done Manager.Fulfilled) =>
      length cs = S (length fs) /\ (length fs <= R)%nat /\ k = 1%nat
  | Some (Manager.Done (Manager.Rejected e)) =>
      length cs = S R /\ length fs = S R /\ last fs = Some e /\ k = 0%nat
  | None => False
  end.

(** The effects [tr] of the manager since the state [m0]; every call of
    [connect] among them is on a wrapper constructed since then, and no
    two are on the same wrapper. *)
Definition since (m0 m : Manager.McpServerManager)
    (tr : list Manager.Effect) : Prop :=
  Manager.trace m = Manager.trace m0 ++ tr /\
  (length (Manager.wrappers m0) <= length (Manager.wrappers m))%nat /\
  Forall (fun w => (length (Manager.wrappers m0) <= w
                    < length (Manager.wrappers m))%nat) (connects tr) /\
  NoDup (connects tr).

(** What the invocation [p] of [doConnect] for [nm] has done since the
    state [m0]. *)
Definition attempts_since (nm : string) (p R : nat)
    (m0 m : Manager.McpServerManager) : Prop :=
  exists tr, since m0 m tr /\
    progress nm R (Manager.doConnects m !! p)
      (connects_for nm (Manager.wrappers m) tr) (failures nm tr)
      (successes nm tr).

(** A manager of one enabled stdio server, ["web"], and a tool. *)
Definition web_config : Types.McpPluginConfig :=
  {| Types.config_servers := {[ "web"%string := stdio_config ]};
     Types.defaults :=
       {| Types.defaults_trust := Types.untrusted;
          Types.defaults_timeout := 30000; Types.retries := 2%nat;
          Types.defaults_maxResultChars := 50000 |} |}.

(** The server ["web"] as the constructor makes it. *)
Definition web_server : Manager.ManagedServer :=
  {| Manager.name := "web"%string; Manager.config := stdio_config;
     Manager.client := None; Manager.state := Types.disconnected;
     Manager.error := None; Manager.tools := []; Manager.lastPing := None;
     Manager.connectPromise := None; Manager._wrapper := None |}.

Definition read_tool : Types.McpToolInfo :=
  {| Types.serverName := "web"%string; Types.name := "read"%string;
     Types.description := None |}.

End Props.

(* ===================================================================== *)
(** ** Further predicates on the trust policy                             *)
(* ===================================================================== *)

Module SecurityProps.
Import JsString Security.

(** The prefix that [applyTrustToText] puts before a text. *)
Definition prefix_of (trust : TrustLevel) : jsstring :=
  match trust with
  | trusted => []
  | untrusted => UNTRUSTED_PREFIX
  | sanitize => SANITIZE_PREFIX
  end.

(** The text that stands for an image under [sanitize]. *)
Definition IMAGE_REMOVED : jsstring :=
  lit "[image content removed by sanitize policy]".

(** The marker that [truncate] appends. *)
Definition truncation_marker (maxChars : Z) : jsstring :=
  [LF; LF] ++ lit "[...truncated at " ++ decimal maxChars ++ lit " chars]".

End SecurityProps.
(* ===================================================================== *)
(** ** Further predicates on the client                                   *)
(* ===================================================================== *)

Module ClientProps.
Import Client.

Definition is_Woken (s : CallStatus) : bool :=
  match s with Woken => true | _ => false end.

Definition is_Queued (s : CallStatus) : bool :=
  match s with Queued => true | _ => false end.

(** The invocations of [callTool] with a status of the kind [f]. *)
Definition count (f : CallStatus -> bool) (w : McpClientWrapper) : nat :=
  size (filter (fun kv => f kv.2 = true) (calls w)).

(** The invocations whose promise of line 105 is resolved and whose
    continuation has not run yet. *)
Definition woken (w : McpClientWrapper) : nat := count is_Woken w.

Definition is_close (l : Label) : bool :=
  match l with LCloseSettled => true | _ => false end.

(** No [disconnect] gets to its [finally] block in the run [ls]. *)
Definition no_close (ls : list Label) : bool :=
  forallb (fun l => negb (is_close l)) ls.

(** In the run [ls] from [w], [callTool] is never called while a woken
    invocation has still to go on. *)
Fixpoint calm (w : McpClientWrapper) (ls : list Label) : bool :=
  match ls with
  | [] => true
  | l :: ls' =>
      match l with
      | LCallTool _ => Nat.eqb (woken w) 0
      | _ => true
      end
      && match step w l with
         | Some w' => calm w' ls'
         | None => true
         end
  end.

(** What the counter and the queue stand for as long as no [disconnect]
    completes: the counter is the number of calls in flight, and the
    queue holds, once each, the invocations that wait for a slot. *)
Record Acc (w : McpClientWrapper) : Prop := mkAcc {
  acc_pending : pendingCalls w = Z.of_nat (inFlight w);
  acc_queue : forall c, c ∈ callQueue w <-> calls w !! c = Some Queued;
  acc_nodup : NoDup (callQueue w)
}.

(** Someone is left to wake the head of the queue: a call is in flight,
    or an invocation was woken and has still to go on. *)
Definition Prog (w : McpClientWrapper) : Prop :=
  callQueue w <> [] -> (0 < inFlight w + woken w)%nat.

(** The calls in flight and the invocations about to be in flight fit
    under the ceiling. *)
Definition Ceil (w : McpClientWrapper) : Prop :=
  Z.of_nat (inFlight w + woken w) <= maxConcurrency w.

(** [c1] stands before [c2] in the queue. *)
Definition before (c1 c2 : nat) (q : list nat) : Prop :=
  exists q1 q2 q3, q = q1 ++ c1 :: q2 ++ c2 :: q3.

(** The invocation [c1] has been made, and as long as it waits for a
    slot it stands in the queue before [c2]. *)
Definition Stay (c1 c2 : nat) (w : McpClientWrapper) : Prop :=
  is_Some (calls w !! c1) /\
  (calls w !! c1 = Some Queued -> before c1 c2 (callQueue w)).

End ClientProps.
(* ===================================================================== *)
(** ** Further predicates on the manager                                  *)
(* ===================================================================== *)

Module ManagerProps.
Import Manager.

(** The entry of the configuration from which the constructor makes a
    server: an entry that is there and enabled. *)
Definition configured (cfg : McpPluginConfig) (nm : string)
    : option McpServerConfig :=
  match config_servers cfg !! nm with
  | Some c => if enabled c then Some c else None
  | None => None
  end.

(** What never changes of a server. *)
Definition identity (s : ManagedServer) : string * McpServerConfig :=
  (name s, config s).

(** The fields of a server agree: it has a wrapper exactly when it is
    connected, [client] is that wrapper, a connected server has no error,
    and the wrapper is one that the manager constructed for this server. *)
Record Coherent (m : McpServerManager) (nm : string) (s : ManagedServer)
    : Prop := mkCoherent {
  coh_wrapper : is_Some (_wrapper s) <-> state s = connected;
  coh_client : client s = _wrapper s;
  coh_error : state s = connected -> error s = None;
  coh_owner : forall w, _wrapper s = Some w -> wrappers m !! w = Some nm
}.

(** The wrapper of an attempt under way is the one constructed for it;
    the promise [p0] may be the exception. *)
Definition attempt_wrapper (p0 : option nat) (m : McpServerManager) : Prop :=
  forall p t, Some p <> p0 -> doConnects m !! p = Some (Running t) ->
              wrappers m !! dc_client t = Some (dc_server t).

Definition CohInv (p0 : option nat) (m : McpServerManager) : Prop :=
  (forall nm s, servers m !! nm = Some s -> Coherent m nm s) /\
  attempt_wrapper p0 m.

(** The labels of an attempt of the [doConnect] behind promise [p] that
    fails and is followed by another one: the timer fires. *)
Definition retrying (p : nat) (xs : list (bool * string)) : list Label :=
  flat_map (fun x => Props.attempt_fails p x ++ [LTimer p]) xs.

(** The effects of these attempts, from the [connect] of attempt [a] on
    wrapper [w] onwards, when no other [doConnect] runs in between. *)
Fixpoint retrying_effects (nm : string) (n a w : nat)
    (xs : list (bool * string)) : list Effect :=
  match xs with
  | [] => []
  | x :: xs' =>
      (if x.1 then [EListTools w] else [])
      ++ ELog (LogFailed nm x.2)
      :: ESetTimeout (1000 * 2 ^ Z.of_nat a)
      :: ELog (LogConnecting nm (S a) n)
      :: EConnect (S w)
      :: retrying_effects nm n (S a) (S w) xs'
  end.

End ManagerProps.
(* ===================================================================== *)
(** ** manager.ts: the status of a server                                 *)
(* ===================================================================== *)

Module Status.
Import Manager.

(** [McpServerStatus] of types.ts. *)
Record McpServerStatus : Type := mkStatus {
  status_name : string;
  status_state : ConnectionState;
  status_transport : TransportType;
  toolCount : nat;
  status_tools : list string;
  status_error : option string;
  status_lastPing : option Z
}.

(** The object that [getStatus] and [getServerStatus] make of a server
    (lines 181-189 and 196-204). *)
Definition status_of (s : ManagedServer) : McpServerStatus :=
  {| status_name := name s;
     status_state := state s;
     status_transport := transport (config s);
     toolCount := length (tools s);
     status_tools := map Types.name (tools s);
     status_error := error s;
     status_lastPing := lastPing s |}.

(** [getServerStatus]; [None] is [null]. *)
Definition getServerStatus (nm : string) (m : McpServerManager)
    : option McpServerStatus :=
  status_of <$> servers m !! nm.

End Status.
(* ===================================================================== *)
(** ** config.ts                                                          *)
(* ===================================================================== *)

Module Config.
Export Types.

(** [ToolFilter] of types.ts. *)
Record ToolFilter : Type := mkToolFilter {
  allow : option (list string);
  deny : option (list string)
}.

(** [McpServerConfig] of types.ts in full: the fields that
    [Types.McpServerConfig] holds, in [base], and the four that it leaves
    out. *)
Record ServerConfig : Type := mkServerConfig {
  base : McpServerConfig;
  args : option (list string);
  env : option (gmap string string);
  headers : option (gmap string string);
  toolFilter : option ToolFilter
}.

(** [McpPluginConfig] of types.ts with the servers in full. *)
Record PluginConfig : Type := mkParsed {
  parsed_servers : gmap string ServerConfig;
  parsed_defaults : McpDefaults
}.

(** What the manager reads of it. *)
Definition toPluginConfig (c : PluginConfig) : McpPluginConfig :=
  {| config_servers := base <$> parsed_servers c;
     defaults := parsed_defaults c |}.

(** A value of the shape of [serverSchema], [defaultsSchema] and
    [pluginConfigSchema]: every member is optional, and an absent one is
    [None]. The numbers of a configuration are taken to be integers, as
    in [Types]. *)
Record RawServer : Type := mkRawServer {
  raw_enabled : option bool;
  raw_transport : option TransportType;
  raw_command : option string;
  raw_args : option (list string);
  raw_env : option (gmap string string);
  raw_url : option string;
  raw_headers : option (gmap string string);
  raw_trust : option TrustLevel;
  raw_maxResultChars : option Z;
  raw_timeout : option Z;
  raw_toolFilter : option ToolFilter
}.

Record RawDefaults : Type := mkRawDefaults {
  raw_defaults_trust : option TrustLevel;
  raw_defaults_timeout : option Z;
  raw_retries : option Z;
  raw_defaults_maxResultChars : option Z
}.

Record RawConfig : Type := mkRawConfig {
  raw_servers : option (gmap string RawServer);
  raw_defaults : option RawDefaults
}.

Definition DEFAULT_DEFAULTS : McpDefaults :=
  {| defaults_trust := untrusted; defaults_timeout := 30000;
     retries := 2%nat; defaults_maxResultChars := 50000 |}.

(** An optional string used as a condition: [undefined] and the empty
    string are falsy. *)
Definition truthy (s : option string) : bool :=
  match s with
  | Some x => negb (String.eqb x "")
  | None => false
  end.

(** [detectTransport]. *)
Definition detectTransport (raw : RawServer) : TransportType :=
  match raw_transport raw with
  | Some stdio => stdio
  | Some http => http
  | Some sse => sse
  | Some auto | None =>
      if truthy (raw_command raw) then stdio
      else if truthy (raw_url raw) then http
      else stdio
  end.

(** [z.number().positive().optional()]. *)
Definition positive (x : option Z) : bool :=
  match x with
  | Some n => 0 <? n
  | None => true
  end.

(** [z.number().int().min(0).optional()]. *)
Definition nonnegative (x : option Z) : bool :=
  match x with
  | Some n => 0 <=? n
  | None => true
  end.

(** The refinements of [serverSchema] and of [defaultsSchema]. *)
Definition valid_server (srv : RawServer) : bool :=
  positive (raw_maxResultChars srv) && positive (raw_timeout srv).

Definition valid_defaults (d : RawDefaults) : bool :=
  positive (raw_defaults_timeout d) && nonnegative (raw_retries d)
  && positive (raw_defaults_maxResultChars d).

(** [pluginConfigSchema.parse]: the value, or [None] when a refinement
    fails and a [ZodError] is thrown. *)
Definition schema_parse (raw : RawConfig) : option RawConfig :=
  if match raw_defaults raw with
     | Some d => valid_defaults d
     | None => true
     end
     && match raw_servers raw with
        | Some ss =>
            bool_decide (map_Forall (fun _ srv => valid_server srv = true) ss)
        | None => true
        end
  then Some raw
  else None.

(** The object that the loop of [parseConfig] stores for a server
    (lines 76-88). *)
Definition parse_server (defaults : McpDefaults) (srv : RawServer)
    : ServerConfig :=
  {| base :=
       {| enabled := default true (raw_enabled srv);
          transport := detectTransport srv;
          command := raw_command srv;
          url := raw_url srv;
          trust := default (defaults_trust defaults) (raw_trust srv);
          maxResultChars := default (defaults_maxResultChars defaults)
                                    (raw_maxResultChars srv);
          timeout := default (defaults_timeout defaults) (raw_timeout srv) |};
     args := raw_args srv;
     env := raw_env srv;
     headers := raw_headers srv;
     toolFilter := raw_toolFilter srv |}.

(** [parseConfig]; the raw input is [None] when it is [undefined] or
    [null]. The loop stores the servers in a plain object with
    [servers[name] = ...] (line 76): for the key ["__proto__"] this sets
    the prototype of the object and adds no entry. *)
Definition parseConfig (raw : option RawConfig) : option PluginConfig :=
  match schema_parse (default {| raw_servers := None; raw_defaults := None |}
                              raw) with
  | None => None
  | Some parsed =>
      let defaults :=
        {| defaults_trust :=
             default (defaults_trust DEFAULT_DEFAULTS)
                     (raw_defaults parsed ≫= raw_defaults_trust);
           defaults_timeout :=
             default (defaults_timeout DEFAULT_DEFAULTS)
                     (raw_defaults parsed ≫= raw_defaults_timeout);
           retries :=
             default (retries DEFAULT_DEFAULTS)
                     (Z.to_nat <$> (raw_defaults parsed ≫= raw_retries));
           defaults_maxResultChars :=
             default (defaults_maxResultChars DEFAULT_DEFAULTS)
                     (raw_defaults parsed ≫= raw_defaults_maxResultChars) |}
      in
      Some {| parsed_servers :=
                parse_server defaults
                <$> delete "__proto__"%string (default ∅ (raw_servers parsed));
              parsed_defaults := defaults |}
  end.

(** A configuration handed to [parseConfig] as raw input: every member
    is present. *)
Definition toRawServer (s : ServerConfig) : RawServer :=
  {| raw_enabled := Some (enabled (base s));
     raw_transport := Some (transport (base s));
     raw_command := command (base s);
     raw_args := args s;
     raw_env := env s;
     raw_url := url (base s);
     raw_headers := headers s;
     raw_trust := Some (trust (base s));
     raw_maxResultChars := Some (maxResultChars (base s));
     raw_timeout := Some (timeout (base s));
     raw_toolFilter := toolFilter s |}.

Definition toRaw (c : PluginConfig) : RawConfig :=
  {| raw_servers := Some (toRawServer <$> parsed_servers c);
     raw_defaults :=
       Some {| raw_defaults_trust := Some (defaults_trust (parsed_defaults c));
               raw_defaults_timeout :=
                 Some (defaults_timeout (parsed_defaults c));
               raw_retries := Some (Z.of_nat (retries (parsed_defaults c)));
               raw_defaults_maxResultChars :=
                 Some (defaults_maxResultChars (parsed_defaults c)) |} |}.

(** A raw configuration with one server, which gives a [url] and no
    more, and with a timeout as its only default. *)
Definition remote_raw : RawConfig :=
  {| raw_servers :=
       Some {[ "remote"%string :=
                 {| raw_enabled := None; raw_transport := None;
                    raw_command := None; raw_args := None; raw_env := None;
                    raw_url := Some "https://mcp.example.com"%string;
                    raw_headers := None; raw_trust := None;
                    raw_maxResultChars := None; raw_timeout := None;
                    raw_toolFilter := None |} ]};
     raw_defaults :=
       Some {| raw_defaults_trust := None;
               raw_defaults_timeout := Some 5000;
               raw_retries := None;
               raw_defaults_maxResultChars := None |} |}.

(** The server that [parseConfig] makes of it. *)
Definition remote_server : ServerConfig :=
  {| base := {| enabled := true; transport := http; command := None;
                url := Some "https://mcp.example.com"%string;
                trust := untrusted; maxResultChars := 50000;
                timeout := 5000 |};
     args := None; env := None; headers := None; toolFilter := None |}.

Definition remote_config : PluginConfig :=
  {| parsed_servers := {[ "remote"%string := remote_server ]};
     parsed_defaults :=
       {| defaults_trust := untrusted; defaults_timeout := 5000;
          retries := 2%nat; defaults_maxResultChars := 50000 |} |}.

End Config.

(* ===================================================================== *)
(** ** client.ts: the transports                                          *)
(* ===================================================================== *)

Module Transport.
Import Config.

(** The transport that [createTransport] constructs, with the arguments
    of the constructor: the [command], [args] and [env] of the process to
    spawn, or the URL and the headers of the requests. *)
Inductive Transport : Type :=
  | StdioClientTransport (command : string) (args : list string)
      (env : gmap string string)
  | StreamableHTTPClientTransport (url : string)
      (headers : gmap string string)
  | SSEClientTransport (url : string) (headers : gmap string string).

(** The errors that [createTransport] and [ensureConnected] throw, and
    the [TypeError] of [new URL(...)]. *)
Inductive TransportError : Type :=
  | RequiresCommand
  | RequiresUrl (kind : string)
  | UnknownTransport
  | InvalidUrl (url : string).

Definition dquote : string := String (ascii_of_nat 34) EmptyString.

(** The name of a transport type, as the string it is in the source. *)
Definition transport_name (t : TransportType) : string :=
  match t with
  | stdio => "stdio"
  | http => "http"
  | sse => "sse"
  | auto => "auto"
  end.

(** The message of an error of [createTransport]; [new URL] has a message
    of its own, which is left open. *)
Definition message (serverName : string) (t : TransportType)
    (e : TransportError) : option string :=
  match e with
  | RequiresCommand =>
      Some ("Server " +:+ dquote +:+ serverName +:+ dquote
            +:+ ": stdio transport requires " +:+ dquote +:+ "command"
            +:+ dquote)
  | RequiresUrl kind =>
      Some ("Server " +:+ dquote +:+ serverName +:+ dquote +:+ ": " +:+ kind
            +:+ " transport requires " +:+ dquote +:+ "url" +:+ dquote)
  | UnknownTransport =>
      Some ("Unknown transport " +:+ dquote +:+ transport_name t +:+ dquote
            +:+ " for server " +:+ dquote +:+ serverName +:+ dquote)
  | InvalidUrl _ => None
  end.

Section CreateTransport.

(** [new URL(s)] parses [s] or throws; [process.env] is the environment
    of the process. Both are outside the program. *)
Variable valid_url : string -> bool.
Variable process_env : gmap string string.

(** [createHttpTransport]. *)
Definition createHttpTransport (cfg : ServerConfig)
    : Transport + TransportError :=
  match url (base cfg) with
  | Some u =>
      if String.eqb u "" then inr (RequiresUrl "http")
      else if valid_url u
           then inl (StreamableHTTPClientTransport u
                       (default ∅ (headers cfg)))
           else inr (InvalidUrl u)
  | None => inr (RequiresUrl "http")
  end.

(** [createSseTransport]. *)
Definition createSseTransport (cfg : ServerConfig)
    : Transport + TransportError :=
  match url (base cfg) with
  | Some u =>
      if String.eqb u "" then inr (RequiresUrl "sse")
      else if valid_url u
           then inl (SSEClientTransport u (default ∅ (headers cfg)))
           else inr (InvalidUrl u)
  | None => inr (RequiresUrl "sse")
  end.

(** [createStdioTransport]: the environment of the process, overridden by
    the [env] of the configuration. *)
Definition createStdioTransport (cfg : ServerConfig)
    : Transport + TransportError :=
  match command (base cfg) with
  | Some c =>
      if String.eqb c "" then inr RequiresCommand
      else inl (StdioClientTransport c (default [] (args cfg))
                  (default ∅ (env cfg) ∪ process_env))
  | None => inr RequiresCommand
  end.

(** [createTransport]. *)
Definition createTransport (cfg : ServerConfig)
    : Transport + TransportError :=
  match transport (base cfg) with
  | stdio => createStdioTransport cfg
  | http => createHttpTransport cfg
  | sse => createSseTransport cfg
  | auto => inr UnknownTransport
  end.

End CreateTransport.

End Transport.
(* ===================================================================== *)
(** ** bridge.ts: the bridged tools                                       *)
(* ===================================================================== *)

Module BridgeTools.
Import JsString Security Bridge Config.

(** [TextContent] and [ImageContent], the content of an
    [AgentToolResult]. *)
Inductive AgentContent : Type :=
  | TextContent (text : jsstring)
  | ImageContent (data mimeType : jsstring).

(** The two objects that [convertResult] returns as [details]. *)
Inductive Details : Type :=
  | ErrorDetails    (* { error: true, serverError: true } *)
  | McpResult       (* { mcpResult: true } *).

Record AgentToolResult : Type := mkAgentResult {
  agent_content : list AgentContent;
  details : Details
}.

(** [passesFilter]. *)
Definition passesFilter (toolName : string) (filter : option ToolFilter)
    : bool :=
  match filter with
  | None => true
  | Some f =>
      if match deny f with
         | Some d => bool_decide (toolName ∈ d)
         | None => false
         end
      then false
      else match allow f with
           | Some a =>
               if (0 <? length a)%nat then bool_decide (toolName ∈ a)
               else true
           | None => true
           end
  end.

(** [l.join(sep)]. *)
Fixpoint join (sep : jsstring) (l : list jsstring) : jsstring :=
  match l with
  | [] => []
  | x :: l' =>
      match l' with
      | [] => x
      | _ :: _ => x ++ sep ++ join sep l'
      end
  end.

Definition text_of (c : AgentContent) : option jsstring :=
  match c with
  | TextContent t => Some t
  | ImageContent _ _ => None
  end.

Section Bridge.

(** The values of a JSON schema are left open: [truthy_value] says which
    of them count as true in a condition, [string_value] is a string as a
    value. [stringify] is [JSON.stringify(block, null, 2)]. *)
Context {Value : Type}.
Variable truthy_value : Value -> bool.
Variable string_value : string -> Value.
Variable stringify : ToolContent -> jsstring.

(** [McpToolInfo] of types.ts with the [inputSchema] that
    [Types.McpToolInfo] leaves out. *)
Record ToolInfo : Type := mkTool {
  info : McpToolInfo;
  inputSchema : gmap string Value
}.

(** [normalizeSchema]: a copy of the schema, with [type] set when the
    schema has none that counts as true. *)
Definition normalizeSchema (schema : gmap string Value)
    : gmap string Value :=
  match schema !! "type"%string with
  | Some v =>
      if truthy_value v then schema
      else <["type"%string := string_value "object"]> schema
  | None => <["type"%string := string_value "object"]> schema
  end.

(** The loop of [convertResult] (lines 78-97): what is pushed for a
    block. *)
Definition convertBlock (block : ToolContent) : AgentContent :=
  match block with
  | TextBlock t => TextContent t
  | ImageBlock d mt => ImageContent d mt
  | ResourceBlock _ => TextContent (stringify block)
  end.

(** [convertResult]. *)
Definition convertResult (result : ToolCallResult) (config : ServerConfig)
    : AgentToolResult :=
  let secured := applyTrustPolicy result (trust (base config))
                                  (maxResultChars (base config)) in
  let content := map convertBlock (Security.content secured) in
  if isError secured then
    let errorText := join [LF] (omap text_of content) in
    {| agent_content :=
         [TextContent (lit "[MCP Error] "
                       ++ match errorText with
                          | [] => lit "Unknown error"
                          | _ :: _ => errorText
                          end)];
       details := ErrorDetails |}
  else
    {| agent_content :=
         match content with
         | [] => [TextContent (lit "(empty result)")]
         | _ :: _ => content
         end;
       details := McpResult |}.

(** A [BridgedTool]. Its [execute] is a closure over the client, the tool
    and the configuration: it calls [client.callTool] with the name
    [execute_calls], and once that call has resolved with a result it
    returns [execute_returns] of the result. *)
Record BridgedTool : Type := mkBridged {
  bridged_name : jsstring;
  label : string;
  bridged_description : string;
  parameters : gmap string Value;
  execute_calls : string;
  execute_returns : ToolCallResult -> AgentToolResult
}.

(** [createBridgedTools] for a client whose [serverName] is given. *)
Definition createBridgedTools (serverName : string) (tools : list ToolInfo)
    (config : ServerConfig) : list BridgedTool :=
  map (fun tool =>
         {| bridged_name :=
              normalizeToolName (lit serverName) (lit (name (info tool)));
            label := name (info tool);
            bridged_description :=
              "[MCP: " +:+ serverName +:+ "]" +:+ " "
              +:+ default ("Tool " +:+ Manager.dquote +:+ name (info tool)
                           +:+ Manager.dquote +:+ " from MCP server "
                           +:+ Manager.dquote +:+ serverName
                           +:+ Manager.dquote)
                          (description (info tool));
            parameters := normalizeSchema (inputSchema tool);
            execute_calls := name (info tool);
            execute_returns := fun result => convertResult result config |})
      (List.filter (fun t => passesFilter (name (info t)) (toolFilter config))
                   tools).

End Bridge.

(** A value of a schema for the examples: a string, or something that
    counts as false. *)
Definition example_truthy (v : option string) : bool :=
  match v with
  | Some s => negb (String.eqb s "")
  | None => false
  end.

End BridgeTools.

(* ===================================================================== *)
(** ** index.ts: the listing of the tools                                 *)
(* ===================================================================== *)

Module Index.
Import JsString.

(** The [fullName] that the gateway method [mcp.tools] and the command
    [mcp tools] show for the tool [t] of the server [s] (lines 123-129
    and 330-332 of src/unnamed/part_001). *)
Definition fullName (s t : jsstring) : jsstring :=
  lit "mcp_" ++ s ++ lit "_" ++ t.

End Index.
(* ===================================================================== *)
(** ** registry.ts (src/unnamed/part_002)                                 *)
(* ===================================================================== *)

Module Registry.
Import Config.

(** [CatalogEntry] of types.ts. *)
Record CatalogEntry : Type := mkEntry {
  entry_description : string;
  entry_command : option string;
  entry_args : option (list string);
  entry_url : option string;
  entry_env : option (gmap string string);
  entry_trust : TrustLevel;
  category : string
}.

Definition npx (description : string) (args : list string)
    (env : option (gmap string string)) (trust : TrustLevel)
    (category : string) : CatalogEntry :=
  {| entry_description := description; entry_command := Some "npx"%string;
     entry_args := Some args; entry_url := None; entry_env := env;
     entry_trust := trust; category := category |}.

(** [CATALOG], with its keys in the order of the source. *)
Definition CATALOG : list (string * CatalogEntry) :=
  [ ("context7",
     npx "Up-to-date documentation and code examples for any library"
         ["-y"; "@upstash/context7-mcp@latest"] None trusted "documentation");
    ("filesystem",
     npx "Read and write files on the local filesystem"
         ["-y"; "@modelcontextprotocol/server-filesystem"; "/tmp"] None
         trusted "filesystem");
    ("memory",
     npx "Knowledge graph-based persistent memory"
         ["-y"; "@modelcontextprotocol/server-memory"] None trusted "memory");
    ("brave-search",
     npx "Web search via Brave Search API"
         ["-y"; "@modelcontextprotocol/server-brave-search"]
         (Some {[ "BRAVE_API_KEY" := "" ]}) untrusted "search");
    ("github",
     npx "GitHub API - repos, issues, PRs, code search"
         ["-y"; "@modelcontextprotocol/server-github"]
         (Some {[ "GITHUB_PERSONAL_ACCESS_TOKEN" := "" ]}) trusted
         "developer");
    ("slack",
     npx "Slack workspace - channels, messages, users"
         ["-y"; "@modelcontextprotocol/server-slack"]
         (Some {[ "SLACK_BOT_TOKEN" := ""; "SLACK_TEAM_ID" := "" ]})
         untrusted "communication");
    ("postgres",
     npx "PostgreSQL database access"
         ["-y"; "@modelcontextprotocol/server-postgres"]
         (Some {[ "POSTGRES_CONNECTION_STRING" := "" ]}) trusted "database");
    ("sqlite",
     npx "SQLite database access"
         ["-y"; "@modelcontextprotocol/server-sqlite"] None trusted
         "database");
    ("puppeteer",
     npx "Browser automation and web scraping"
         ["-y"; "@modelcontextprotocol/server-puppeteer"] None sanitize
         "browser");
    ("fetch",
     npx "Fetch and convert web pages to Markdown"
         ["-y"; "@tokenizin/server-fetch"] None untrusted "web");
    ("sequential_thinking",
     npx "Dynamic problem-solving through structured thinking"
         ["-y"; "@modelcontextprotocol/server-sequential-thinking"] None
         trusted "reasoning");
    ("exa",
     npx "AI-powered web search via Exa API"
         ["-y"; "exa-mcp-server"] (Some {[ "EXA_API_KEY" := "" ]}) untrusted
         "search") ]%string.

(** The names of the members of [Object.prototype], which every plain
    object inherits. *)
Definition OBJECT_PROTOTYPE : list string :=
  [ "constructor"; "__defineGetter__"; "__defineSetter__"; "hasOwnProperty";
    "__lookupGetter__"; "__lookupSetter__"; "isPrototypeOf";
    "propertyIsEnumerable"; "toString"; "valueOf"; "__proto__";
    "toLocaleString" ]%string.

(** What [CATALOG[name]] evaluates to: an entry of the catalog, or the
    member of [Object.prototype] of that name. *)
Inductive Member : Type :=
  | Entry (e : CatalogEntry)
  | Inherited (member : string).

(** The first pair of an association list with the given key. *)
Fixpoint assoc {A : Type} (k : string) (l : list (string * A)) : option A :=
  match l with
  | [] => None
  | (k', v) :: l' => if String.eqb k k' then Some v else assoc k l'
  end.

(** [getCatalogEntry]; [None] is [undefined]. *)
Definition getCatalogEntry (name : string) : option Member :=
  match assoc name CATALOG with
  | Some e => Some (Entry e)
  | None =>
      if bool_decide (name ∈ OBJECT_PROTOTYPE) then Some (Inherited name)
      else None
  end.

(** [listCatalog]: every entry with its name. *)
Definition listCatalog : list (string * CatalogEntry) :=
  map (fun ne => (ne.1, ne.2)) CATALOG.

(** The [overrides] of [catalogToConfig]: a member that is absent is
    [None], a member that is present holds its value, which may be
    [undefined] where the type allows it. *)
Record Overrides : Type := mkOverrides {
  o_enabled : option (option bool);
  o_transport : option (option TransportType);
  o_command : option (option string);
  o_args : option (option (list string));
  o_env : option (option (gmap string string));
  o_url : option (option string);
  o_headers : option (option (gmap string string));
  o_trust : option (option TrustLevel);
  o_maxResultChars : option (option Z);
  o_timeout : option (option Z);
  o_toolFilter : option (option ToolFilter)
}.

Definition no_overrides : Overrides :=
  {| o_enabled := None; o_transport := None; o_command := None;
     o_args := None; o_env := None; o_url := None; o_headers := None;
     o_trust := None; o_maxResultChars := None; o_timeout := None;
     o_toolFilter := None |}.

(** [catalogToConfig]: the object literal with [...overrides] spread over
    it last. *)
Definition catalogToConfig (entry : CatalogEntry)
    (overrides : option Overrides) : RawServer :=
  let o := default no_overrides overrides in
  {| raw_enabled := default (Some true) (o_enabled o);
     raw_transport := default None (o_transport o);
     raw_command := default (entry_command entry) (o_command o);
     raw_args := default (entry_args entry) (o_args o);
     raw_env := default (entry_env entry) (o_env o);
     raw_url := default (entry_url entry) (o_url o);
     raw_headers := default None (o_headers o);
     raw_trust := default (Some (entry_trust entry)) (o_trust o);
     raw_maxResultChars := default None (o_maxResultChars o);
     raw_timeout := default None (o_timeout o);
     raw_toolFilter := default None (o_toolFilter o) |}.

(** One round of the loop of [listCatalogByCategory] (lines 131-135). *)
Definition add_to_category
    (result : gmap string (list (string * CatalogEntry)))
    (ne : string * CatalogEntry)
    : gmap string (list (string * CatalogEntry)) :=
  let cat := category ne.2 in
  <[cat := default [] (result !! cat) ++ [(ne.1, ne.2)]]> result.

(** [listCatalogByCategory]. No category of the catalog is the name of a
    member of [Object.prototype], so that [result[cat]] finds what the
    loop has stored under [cat] and nothing else. *)
Definition listCatalogByCategory
    : gmap string (list (string * CatalogEntry)) :=
  fold_left add_to_category CATALOG ∅.

End Registry.
Module JsStringFacts.
Import JsString Props.

Lemma consumes_intro (s k r : jsstring) :
  s = k ++ r -> (0 < length k)%nat -> exists c k', s = c :: k' ++ r.
Proof.
  intros -> Hk. destruct k as [|c k]; [simpl in Hk; lia|]. by exists c, k.
Qed.

Lemma expect_str_app p s r : expect_str p s = Some r -> s = p ++ r.
Proof.
  revert s. induction p as [|a p IH]; intros s H; simpl in H.
  - by inversion H.
  - destruct s as [|c s]; [done|].
    destruct (N.eqb_spec a c); [|done]. subst. simpl. f_equal. by apply IH.
Qed.

Lemma expect_ci_suffix p s r :
  expect_ci p s = Some r -> exists k, s = k ++ r /\ length k = length p.
Proof.
  revert s. induction p as [|a p IH]; intros s H; simpl in H.
  - inversion H. by exists [].
  - destruct s as [|c s]; [done|].
    destruct (ci_eqb a c); [|done].
    destruct (IH _ H) as (k & -> & Hk). exists (c :: k). simpl. by rewrite Hk.
Qed.

Lemma find_ci_suffix p s r : find_ci p s = Some r -> exists k, s = k ++ r.
Proof.
  induction s as [|c s IH]; simpl.
  - destruct (expect_ci p []) eqn:E; [|done].
    intros [= <-]. destruct (expect_ci_suffix _ _ _ E) as (k & ? & _). eauto.
  - destruct (expect_ci p (c :: s)) eqn:E.
    + intros [= <-]. destruct (expect_ci_suffix _ _ _ E) as (k & ? & _). eauto.
    + intros H. destruct (IH H) as [k ->]. by exists (c :: k).
Qed.

Lemma skip_while_suffix cls s : exists k, s = k ++ skip_while cls s.
Proof.
  induction s as [|c s [k IH]]; simpl; [by exists []|].
  destruct (cls c); [|by exists []].
  exists (c :: k). simpl. by f_equal.
Qed.

(** What [skip_while] leaves is empty or starts outside the class. *)
Lemma skip_while_head cls s c r :
  skip_while cls s = c :: r -> cls c = false.
Proof.
  induction s as [|a s IH]; simpl; [done|].
  destruct (cls a) eqn:E; [done|]. by intros [= <- _].
Qed.

Lemma skip_while_nil cls s :
  skip_while cls s = [] -> forall c, c ∈ s -> cls c = true.
Proof.
  induction s as [|a s IH]; simpl; intros H c Hc.
  - by apply elem_of_nil in Hc.
  - destruct (cls a) eqn:E; [|done].
    apply elem_of_cons in Hc as [->|Hc]; auto.
Qed.

Lemma plus_suffix cls s r : plus cls s = Some r -> exists c k, s = c :: k ++ r.
Proof.
  destruct s as [|c s]; simpl; [done|].
  destruct (cls c); [|done]. intros [= <-].
  destruct (skip_while_suffix cls s) as [k Hk]. exists c, k. by f_equal.
Qed.

Lemma consumes_match_script : consumes match_script.
Proof.
  intros s r. unfold match_script.
  destruct (expect_ci (lit "<script") s) as [r1|] eqn:E; [|done].
  intros H. destruct (expect_ci_suffix _ _ _ E) as (k & -> & Hk).
  destruct (find_ci_suffix _ _ _ H) as [k2 ->].
  apply (consumes_intro _ (k ++ k2)); [by rewrite app_assoc|].
  rewrite length_app, Hk. vm_compute. lia.
Qed.

Lemma consumes_match_tag : consumes match_tag.
Proof.
  intros s r. unfold match_tag.
  destruct (expect_str [LT] s) as [r1|] eqn:E1; [|done].
  apply expect_str_app in E1 as ->.
  destruct (plus (neqb GT) r1) as [r2|] eqn:E2; [|done].
  destruct (plus_suffix _ _ _ E2) as (c & k & ->).
  intros H%expect_str_app. subst r2.
  exists LT, (c :: k ++ [GT]). simpl. by rewrite <- app_assoc.
Qed.

Lemma length_lit_pos (a : ascii) (x : string) (k : jsstring) :
  (0 < length (lit (String a x) ++ k))%nat.
Proof. unfold lit. simpl. lia. Qed.

Lemma consumes_match_mdimage : consumes match_mdimage.
Proof.
  intros s r. unfold match_mdimage.
  destruct (expect_str (lit "![") s) as [r1|] eqn:E1; [|done].
  apply expect_str_app in E1 as ->.
  destruct (skip_while_suffix (neqb (cu "]")) r1) as [k1 Hk1].
  destruct (expect_str _ (skip_while _ r1)) as [r2|] eqn:E2; [|done].
  apply expect_str_app in E2. rewrite E2 in Hk1. clear E2. subst r1.
  assert (exists k3 r3, r2 = k3 ++ r3 /\
            match expect_str (lit "s") r2 with Some r => r | None => r2 end
            = r3) as (k3 & r3 & -> & ->).
  { destruct (expect_str (lit "s") r2) eqn:E; [|by exists [], r2].
    apply expect_str_app in E. eauto. }
  destruct (expect_str (lit "://") _) as [r4|] eqn:E4; [|done].
  apply expect_str_app in E4.
  destruct (plus _ r4) as [r5|] eqn:E5; [|done].
  destruct (plus_suffix _ _ _ E5) as (c & k5 & ->).
  intros H%expect_str_app. subst r5 r3.
  eapply (consumes_intro _ (lit "![" ++ k1 ++ lit "](http" ++ k3
                            ++ lit "://" ++ (c :: k5) ++ lit ")")).
  - rewrite <- !app_assoc. reflexivity.
  - apply length_lit_pos.
Qed.

Lemma consumes_match_datauri : consumes match_datauri.
Proof.
  intros s r. unfold match_datauri.
  destruct (expect_str (lit "data:") s) as [r1|] eqn:E1; [|done].
  apply expect_str_app in E1 as ->.
  destruct (plus _ r1) as [r2|] eqn:E2; [|done].
  destruct (plus_suffix _ _ _ E2) as (c & k & ->).
  destruct (expect_str _ r2) as [r3|] eqn:E3; [|done].
  apply expect_str_app in E3 as ->.
  intros H. destruct (plus_suffix _ _ _ H) as (c' & k' & ->).
  eapply (consumes_intro _ (lit "data:" ++ (c :: k) ++ lit ","
                            ++ (c' :: k'))).
  - rewrite <- !app_assoc. reflexivity.
  - apply length_lit_pos.
Qed.

(** *** Global replacement *)

Section Replace.
Variable m : jsstring -> option jsstring.
Variable repl : jsstring.
Hypothesis Hm : consumes m.

Lemma consumes_length s r : m s = Some r -> (length r < length s)%nat.
Proof.
  intros H. destruct (Hm _ _ H) as (c & k & ->).
  simpl. rewrite length_app. lia.
Qed.

(** The scan never runs out of fuel: any fuel at least the length of the
    string gives the same result. *)
Lemma replace_from_fuel f1 f2 s :
  (length s <= f1)%nat -> (length s <= f2)%nat ->
  replace_from m repl f1 s = replace_from m repl f2 s.
Proof.
  revert f2 s. induction f1 as [|f1 IH]; intros f2 s H1 H2.
  - destruct s; [|simpl in H1; lia].
    destruct f2; simpl; [done|].
    destruct (m []) eqn:E; [|done].
    apply consumes_length in E. simpl in E. lia.
  - destruct f2 as [|f2].
    + destruct s; [|simpl in H2; lia]. simpl.
      destruct (m []) eqn:E; [|done].
      apply consumes_length in E. simpl in E. lia.
    + simpl. destruct (m s) as [r|] eqn:E.
      * pose proof (consumes_length _ _ E). f_equal. apply IH; lia.
      * destruct s as [|c s]; [done|]. simpl in *. f_equal. apply IH; lia.
Qed.

(** The equation of the scan. *)
Lemma replaceAll_eq s :
  replaceAll m repl s =
  match m s with
  | Some rest => repl ++ replaceAll m repl rest
  | None =>
      match s with
      | c :: s' => c :: replaceAll m repl s'
      | [] => []
      end
  end.
Proof.
  unfold replaceAll at 1. simpl.
  destruct (m s) as [r|] eqn:E.
  - pose proof (consumes_length _ _ E). f_equal.
    apply replace_from_fuel; lia.
  - destruct s as [|c s]; [done|]. reflexivity.
Qed.

(** Induction along the scan. *)
Lemma replaceAll_ind (P : jsstring -> jsstring -> Prop) :
  P [] [] ->
  (forall s rest, m s = Some rest -> P rest (replaceAll m repl rest) ->
     P s (repl ++ replaceAll m repl rest)) ->
  (forall c s, m (c :: s) = None -> P s (replaceAll m repl s) ->
     P (c :: s) (c :: replaceAll m repl s)) ->
  forall s, P s (replaceAll m repl s).
Proof.
  intros Hnil Hmatch Hcopy s.
  remember (length s) as n eqn:Hn. revert s Hn.
  induction n as [n IH] using lt_wf_ind. intros s ->.
  rewrite replaceAll_eq. destruct (m s) as [r|] eqn:E.
  - apply Hmatch; [done|]. eapply IH; [|done]. by apply consumes_length.
  - destruct s as [|c s]; [done|].
    apply Hcopy; [done|]. eapply IH; [|done]. simpl. lia.
Qed.

(** The scan invents no code unit. *)
Lemma elem_of_replaceAll x s :
  x ∈ replaceAll m repl s -> x ∈ s \/ x ∈ repl.
Proof.
  revert x. pattern s, (replaceAll m repl s). apply replaceAll_ind.
  - auto.
  - intros s0 rest E IH x [Hx|Hx]%elem_of_app; [auto|].
    destruct (IH _ Hx) as [?|?]; [|auto]. left.
    destruct (Hm _ _ E) as (c & k & ->).
    rewrite app_comm_cons. apply elem_of_app. auto.
  - intros c s0 _ IH x [->|Hx]%elem_of_cons.
    + left. apply elem_of_cons. auto.
    + destruct (IH _ Hx); [left; apply elem_of_cons|]; auto.
Qed.
End Replace.

End JsStringFacts.

(* ===================================================================== *)
(** ** src/security.ts: properties                                        *)
(* ===================================================================== *)

Module SecurityFacts.
Import JsString Props JsStringFacts Security.

Local Arguments N.eqb : simpl never.

(** *** The tag filter *)

Lemma clean_app_r k r : clean (k ++ r) -> clean r.
Proof. induction k as [|c k IH]; simpl; [done|]. intros [_ H]. auto. Qed.

Lemma clean_app_l k r : LT ∉ k -> clean r -> clean (k ++ r).
Proof.
  induction k as [|c k IH]; simpl; [done|].
  intros Hk Hr. apply not_elem_of_cons in Hk as [Hc Hk].
  split; [congruence|auto].
Qed.

Lemma match_tag_not_lt c s : c <> LT -> match_tag (c :: s) = None.
Proof.
  intros Hc. unfold match_tag. simpl.
  destruct (N.eqb_spec LT c); [congruence|done].
Qed.

(** Where [/<[^>]+>/] fails on a [<], the [<] is followed at once by [>]
    or by no [>] at all. *)
Lemma match_tag_none r :
  match_tag (LT :: r) = None -> head r = Some GT \/ GT ∉ r.
Proof.
  unfold match_tag. simpl. destruct r as [|c r]; simpl.
  - intros _. right. apply not_elem_of_nil.
  - unfold neqb at 1. destruct (N.eqb_spec GT c) as [<-|Hc]; simpl; [auto|].
    intros H. right. apply not_elem_of_cons. split; [congruence|].
    destruct (skip_while (neqb GT) r) as [|c' r'] eqn:E.
    + intros Hin. pose proof (skip_while_nil _ _ E _ Hin) as Hf.
      unfold neqb in Hf. by rewrite N.eqb_refl in Hf.
    + apply skip_while_head in E. unfold neqb in E.
      apply negb_false_iff, N.eqb_eq in E. subst c'.
      by rewrite N.eqb_refl in H.
Qed.

Lemma match_tag_some r x :
  match_tag (LT :: r) = Some x -> head r <> Some GT /\ GT ∈ r.
Proof.
  intros H. destruct (consumes_match_tag _ _ H) as (c & k & Hk).
  unfold match_tag in H. simpl in H.
  destruct r as [|c1 r]; [done|]. simpl in H. unfold neqb at 1 in H.
  destruct (N.eqb_spec GT c1) as [->|Hc]; simpl in H; [done|].
  split; [simpl; congruence|].
  destruct (skip_while_suffix (neqb GT) r) as [k' Hk'].
  destruct (skip_while (neqb GT) r) as [|c' r'] eqn:E; [done|].
  simpl in H. destruct (N.eqb_spec GT c'); [|done]. subst c'.
  rewrite Hk'. apply elem_of_cons. right. apply elem_of_app. right.
  apply elem_of_cons. auto.
Qed.

(** After the tag filter no [<] opens a tag. *)
Lemma replace_tag_clean s : clean (replaceAll match_tag [] s).
Proof.
  pattern s, (replaceAll match_tag [] s).
  apply (replaceAll_ind _ _ consumes_match_tag); simpl; [done|done|].
  intros c s0 E IH. split; [|done]. intros ->.
  destruct (match_tag_none _ E) as [Hh|Hn].
  - left. destruct s0 as [|c' s1]; [done|]. simpl in Hh. injection Hh as ->.
    rewrite (replaceAll_eq _ _ consumes_match_tag).
    by rewrite match_tag_not_lt.
  - right. intros Hin.
    apply (elem_of_replaceAll _ _ consumes_match_tag) in Hin
      as [?|Hin]; [done|]. by apply elem_of_nil in Hin.
Qed.

(** A later replacement whose pattern cannot start at a [>] and whose
    replacement text has neither [<] nor [>] keeps the string clean. *)
Lemma replace_keeps_clean m repl :
  consumes m -> (forall s, m (GT :: s) = None) ->
  LT ∉ repl -> GT ∉ repl ->
  forall s, clean s -> clean (replaceAll m repl s).
Proof.
  intros Hm Hgt Hl Hg s.
  pattern s, (replaceAll m repl s). apply (replaceAll_ind _ _ Hm).
  - done.
  - intros s0 rest E IH Hc. apply clean_app_l; [done|]. apply IH.
    destruct (Hm _ _ E) as (c & k & ->).
    rewrite app_comm_cons in Hc. by apply clean_app_r in Hc.
  - intros c s0 E IH [Hc Hs]. split; [|auto]. intros ->.
    destruct (Hc eq_refl) as [Hh|Hn].
    + left. destruct s0 as [|c' s1]; [done|]. simpl in Hh. injection Hh as ->.
      by rewrite (replaceAll_eq _ _ Hm), Hgt.
    + right. intros Hin.
      apply (elem_of_replaceAll _ _ Hm) in Hin as [?|?]; done.
Qed.

Lemma lit_image_removed_no_angle :
  (LT ∉ lit "[image removed]") /\ (GT ∉ lit "[image removed]").
Proof. split; apply (bool_decide_unpack _); vm_compute; exact I. Qed.

Lemma lit_datauri_removed_no_angle :
  (LT ∉ lit "[data-uri removed]") /\ (GT ∉ lit "[data-uri removed]").
Proof. split; apply (bool_decide_unpack _); vm_compute; exact I. Qed.

Lemma stripDangerous_clean t : clean (stripDangerous t).
Proof.
  unfold stripDangerous.
  apply replace_keeps_clean;
    [apply consumes_match_datauri | done
    | apply lit_datauri_removed_no_angle
    | apply lit_datauri_removed_no_angle |].
  apply replace_keeps_clean;
    [apply consumes_match_mdimage | done
    | apply lit_image_removed_no_angle
    | apply lit_image_removed_no_angle |].
  apply replace_tag_clean.
Qed.

(** In a clean string [/<[^>]+>/] matches nowhere. *)
Lemma clean_no_tag s i : clean s -> match_tag (drop i s) = None.
Proof.
  intros Hc. assert (clean (drop i s)) as Hd.
  { rewrite <- (take_drop i s) in Hc. by apply clean_app_r in Hc. }
  destruct (drop i s) as [|c r]; [done|].
  destruct (N.eq_dec c LT) as [->|Hne]; [|by apply match_tag_not_lt].
  destruct (match_tag (LT :: r)) as [x|] eqn:E; [|done].
  apply match_tag_some in E as [Hh Hin]. destruct Hd as [Hd _].
  destruct (Hd eq_refl); done.
Qed.

(** In a clean string a [<] that is not closed at once is never closed. *)
Lemma clean_open_angle pre c post :
  clean (pre ++ LT :: c :: post) -> c <> GT -> GT ∉ post.
Proof.
  intros [Hc _]%clean_app_r Hne.
  destruct (Hc eq_refl) as [Hh|Hn]; [simpl in Hh; congruence|].
  by apply not_elem_of_cons in Hn as [_ ?].
Qed.

(** C2, as amended. Whatever the input, nothing in the output of
    [stripDangerous] matches the tag pattern [<[^>]+>], at any position.
    A literal [<script] can be left in the output, by an input that does
    not close it or by the removal of a script block or a tag nested
    inside it; but where the output holds a [<] followed by a code unit
    other than [>], and so wherever it holds [<script], no [>] follows
    anywhere. *)
Theorem stripDangerous_no_tag_left (t : jsstring) :
  (forall i, match_tag (drop i (stripDangerous t)) = None) /\
  (forall pre c post,
     stripDangerous t = pre ++ LT :: c :: post -> c <> GT -> GT ∉ post) /\
  (forall pre post,
     stripDangerous t = pre ++ lit "<script" ++ post -> GT ∉ post).
Proof.
  pose proof (stripDangerous_clean t) as Hc. split; [|split].
  - intros i. by apply clean_no_tag.
  - intros pre c post E Hne. rewrite E in Hc.
    by apply clean_open_angle in Hc.
  - intros pre post E. rewrite E in Hc.
    change (lit "<script" ++ post)
      with (LT :: cu "s" :: (lit "cript" ++ post)) in Hc.
    apply clean_open_angle in Hc; [|done].
    intros Hin. apply Hc. apply elem_of_app. auto.
Qed.

Lemma stripDangerous_no_tag_left_witness :
  stripDangerous (lit "a <scr<script>x</script>ipt src=x b")
  = lit "a " ++ lit "<script" ++ lit " src=x b" /\
  (GT ∉ lit " src=x b") /\
  match_tag (drop 2 (stripDangerous
                       (lit "a <scr<script>x</script>ipt src=x b")))
  = None.
Proof.
  destruct (stripDangerous_no_tag_left
              (lit "a <scr<script>x</script>ipt src=x b"))
    as (Htag & _ & Hscript).
  split; [vm_compute; reflexivity|]. split; [|exact (Htag 2%nat)].
  apply (Hscript (lit "a ") (lit " src=x b")). vm_compute; reflexivity.
Defined.

(** C2, as stated, fails: a [<script] that is never closed by a [>] goes
    through the filter untouched, and the removal of a script block that
    is nested in the letters of [<script] puts a [<script] together,
    which the filter does not see again. *)
Lemma stripDangerous_leaves_script :
  stripDangerous (lit "<script src=x") = lit "<script src=x" /\
  includes (lit "<script") (stripDangerous (lit "<script src=x")) = true /\
  stripDangerous (lit "<scr<script>x</script>ipt") = lit "<script" /\
  includes (lit "<script")
    (stripDangerous (lit "<scr<script>x</script>ipt")) = true.
Proof. repeat split; vm_compute; reflexivity. Qed.

(** *** Truncation *)

Lemma slice0_take s e : 0 <= e -> slice0 s e = take (Z.to_nat e) s.
Proof.
  intros He. unfold slice0. destruct (Z.ltb_spec e 0); [lia|].
  destruct (Z.le_gt_cases e (Z.of_nat (length s))).
  - by rewrite Z.min_l.
  - rewrite Z.min_r, Nat2Z.id by lia.
    rewrite !take_ge; [done| |]; lia.
Qed.

(** C8. Truncation is idempotent for a positive limit: the second pass
    cuts the marker that the first pass appended and appends it again. *)
Theorem truncate_idempotent (t : jsstring) (maxChars : Z) :
  0 < maxChars ->
  truncate (truncate t maxChars) maxChars = truncate t maxChars.
Proof.
  intros Hm. unfold truncate at 2 3.
  destruct (Z.leb_spec (Z.of_nat (length t)) maxChars) as [Hle|Hgt].
  - unfold truncate. by apply Z.leb_le in Hle as ->.
  - rewrite slice0_take by lia.
    set (marker := [LF; LF] ++ lit "[...truncated at " ++ decimal maxChars
                   ++ lit " chars]").
    assert (length (take (Z.to_nat maxChars) t) = Z.to_nat maxChars) as Hlen
      by (rewrite length_take; lia).
    unfold truncate. fold marker.
    destruct (Z.leb_spec (Z.of_nat (length (take (Z.to_nat maxChars) t
                                            ++ marker))) maxChars) as [H|_].
    + rewrite length_app, Hlen in H. subst marker. simpl in H. lia.
    + rewrite slice0_take by lia.
      by rewrite take_app_le, take_take, Nat.min_id by lia.
Qed.

Lemma truncate_idempotent_witness :
  0 < 3 /\
  truncate (truncate (lit "abcdefgh") 3) 3 = truncate (lit "abcdefgh") 3.
Proof. split; [lia|]. apply truncate_idempotent. lia. Defined.

(** *** The trust policy *)

Lemma processBlock_push trust maxChars processed block :
  processBlock trust maxChars processed block
  = processed ++ [pushed trust maxChars block].
Proof. by destruct block, trust. Qed.

(** The loop pushes one block per input block, in order. *)
Lemma generalPath_content result trust maxChars :
  content (generalPath result trust maxChars)
  = map (pushed trust maxChars) (content result).
Proof.
  unfold generalPath. simpl.
  change (map (pushed trust maxChars) (content result))
    with ([] ++ map (pushed trust maxChars) (content result)).
  generalize (@nil ToolContent) as acc.
  induction (content result) as [|b l IH]; intros acc; simpl.
  - by rewrite app_nil_r.
  - rewrite IH, processBlock_push, <- app_assoc. reflexivity.
Qed.

(** C10. On a result whose blocks are all text blocks, the fast path of
    [applyTrustPolicy] and its general loop under [trusted] return the
    same result, and [applyTrustPolicy] returns that result. *)
Theorem fastPath_refines_generalPath (result : ToolCallResult)
    (maxChars : Z) :
  forallb is_text (content result) = true ->
  fastPath result maxChars = generalPath result trusted maxChars /\
  applyTrustPolicy result trusted maxChars
  = generalPath result trusted maxChars.
Proof.
  intros Hall.
  assert (fastPath result maxChars = generalPath result trusted maxChars)
    as Heq.
  { pose proof (generalPath_content result trusted maxChars) as Hg.
    unfold fastPath. destruct (generalPath result trusted maxChars)
      as [gc ge] eqn:Eg. simpl in Hg. subst gc.
    assert (ge = isError result) as -> by (by inversion Eg).
    f_equal. clear Eg.
    induction (content result) as [|b l IH]; [done|].
    simpl in Hall. apply andb_true_iff in Hall as [Hb Hl].
    simpl. f_equal; [|by apply IH]. by destruct b. }
  split; [done|]. unfold applyTrustPolicy. simpl. by rewrite Hall.
Qed.

Lemma fastPath_refines_generalPath_witness :
  let r := {| content := [TextBlock (lit "abcdef"); TextBlock (lit "xy")];
              isError := false |} in
  forallb is_text (content r) = true /\
  fastPath r 3 = generalPath r trusted 3 /\
  applyTrustPolicy r trusted 3 = generalPath r trusted 3.
Proof.
  split; [reflexivity|]. by apply fastPath_refines_generalPath.
Defined.

(** Under [trusted] the loop turns a resource block, at its position,
    into a text block that holds the inline text of the resource when
    there is one, and [Resource: <uri>] otherwise. *)
Lemma trusted_resource_text result maxChars i r :
  content result !! i = Some (ResourceBlock r) ->
  content (applyTrustPolicy result trusted maxChars) !! i
  = Some (TextBlock (nullish (text r) (lit "Resource: " ++ uri r))).
Proof.
  intros Hi. unfold applyTrustPolicy. simpl.
  assert (forallb is_text (content result) = false) as ->.
  { apply not_true_is_false. intros Hall.
    rewrite forallb_forall in Hall.
    apply list_elem_of_lookup_2, list_elem_of_In, Hall in Hi. done. }
  by rewrite generalPath_content, list_lookup_fmap, Hi.
Qed.

(** C7, as amended. Under [trusted] every resource block becomes, at the
    same position, an unprefixed text block made from the inline text of
    the resource when there is one, and from [Resource: <uri>] otherwise:
    its text is that text, cut to [maxChars] or not. *)
Theorem trusted_resource_flattened (result : ToolCallResult) (maxChars : Z)
    (i : nat) (r : Resource) :
  content result !! i = Some (ResourceBlock r) ->
  let body := nullish (text r) (lit "Resource: " ++ uri r) in
  exists t,
    content (applyTrustPolicy result trusted maxChars) !! i
    = Some (TextBlock t) /\
    (t = body \/ t = truncate body maxChars).
Proof.
  intros Hi body. exists body. split; [|by left].
  by apply trusted_resource_text.
Qed.

Lemma trusted_resource_flattened_witness :
  let r := {| uri := lit "file:///x"; text := None; blob := None;
              mimeType := None |} in
  let result := {| content := [TextBlock (lit "a"); ResourceBlock r];
                   isError := false |} in
  content result !! 1%nat = Some (ResourceBlock r) /\
  exists t,
    content (applyTrustPolicy result trusted 50) !! 1%nat
    = Some (TextBlock t) /\
    (t = lit "Resource: file:///x"
     \/ t = truncate (lit "Resource: file:///x") 50).
Proof.
  intros r result. split; [reflexivity|].
  exact (trusted_resource_flattened result 50 1 r eq_refl).
Defined.

(** C7, as stated, fails: the text block made from a resource with an
    inline text does not hold the URI, and it is longer than [maxChars]. *)
Lemma trusted_resource_not_truncated :
  let r := {| uri := lit "file:///x"; text := Some (lit "abcdef");
              blob := None; mimeType := None |} in
  applyTrustPolicy {| content := [ResourceBlock r]; isError := false |}
                   trusted 3
  = {| content := [TextBlock (lit "abcdef")]; isError := false |} /\
  includes (lit "file:///x") (lit "abcdef") = false /\
  truncate (lit "abcdef") 3 <> lit "abcdef".
Proof. repeat split; vm_compute; congruence. Qed.

End SecurityFacts.

(* ===================================================================== *)
(** ** src/bridge.ts: properties                                          *)
(* ===================================================================== *)

Module BridgeFacts.
Import JsString Props JsStringFacts Bridge.

Local Arguments N.eqb : simpl never.
Local Arguments N.leb : simpl never.

Lemma consumes_match_unsafe : consumes match_unsafe.
Proof.
  intros [|c s] r; simpl; [done|].
  destruct (is_safe c); [done|]. intros [= <-]. by exists c, [].
Qed.

Lemma consumes_match_underscores : consumes match_underscores.
Proof. intros s r H. by apply plus_suffix in H. Qed.

Lemma lower_unit_safe c : is_safe c = true -> lower_unit c = [c].
Proof.
  unfold is_safe, lower_unit, UNDERSCORE. intros H.
  repeat match goal with
         | |- context [N.leb ?a ?b] => destruct (N.leb_spec a b)
         | |- context [N.eqb ?a ?b] => destruct (N.eqb_spec a b)
         | H : context [N.leb ?a ?b] |- _ => destruct (N.leb_spec a b)
         | H : context [N.eqb ?a ?b] |- _ => destruct (N.eqb_spec a b)
         end; simpl in *; try done; lia.
Qed.

Lemma toLowerCase_safe s : forallb is_safe s = true -> toLowerCase s = s.
Proof.
  induction s as [|c s IH]; simpl; [done|].
  intros [Hc Hs]%andb_true_iff. rewrite lower_unit_safe by done.
  simpl. f_equal. auto.
Qed.

Lemma replace_unsafe_safe s :
  forallb is_safe s = true -> replaceAll match_unsafe [UNDERSCORE] s = s.
Proof.
  induction s as [|c s IH]; simpl; [done|].
  intros [Hc Hs]%andb_true_iff.
  rewrite (replaceAll_eq _ _ consumes_match_unsafe). simpl. rewrite Hc.
  f_equal. auto.
Qed.

Lemma replace_underscores_single s :
  no_double_underscore s = true ->
  replaceAll match_underscores [UNDERSCORE] s = s.
Proof.
  induction s as [|c s IH]; simpl; [done|].
  intros [Hc Hs]%andb_true_iff.
  rewrite (replaceAll_eq _ _ consumes_match_underscores).
  unfold match_underscores. simpl.
  destruct (N.eqb_spec UNDERSCORE c) as [<-|Hne].
  - rewrite N.eqb_refl in Hc. simpl in Hc.
    destruct s as [|c' s]; simpl in *.
    + reflexivity.
    + apply negb_true_iff in Hc. rewrite N.eqb_sym in Hc. rewrite Hc.
      f_equal. auto.
  - f_equal. auto.
Qed.

Lemma strip_edges_id s :
  head s <> Some UNDERSCORE -> last s <> Some UNDERSCORE ->
  strip_edges s = s.
Proof.
  intros Hh Hl. unfold strip_edges.
  assert (match s with
          | c :: s' => if N.eqb c UNDERSCORE then s' else s
          | [] => []
          end = s) as ->.
  { destruct s as [|c s']; [done|].
    destruct (N.eqb_spec c UNDERSCORE) as [->|]; [|done]. by simpl in Hh. }
  destruct (last s) as [c|] eqn:E; [|done].
  destruct (N.eqb_spec c UNDERSCORE) as [->|]; done.
Qed.

(** A name in normal form is left as it is. *)
Lemma safe_normal s : is_normal s = true -> safe s = s.
Proof.
  unfold is_normal.
  intros [[[Hs Hh]%andb_true_iff Hl]%andb_true_iff Hd]%andb_true_iff.
  apply negb_true_iff, bool_decide_eq_false in Hh, Hl.
  unfold safe.
  by rewrite toLowerCase_safe, replace_unsafe_safe,
    replace_underscores_single, strip_edges_id.
Qed.

(** *** What [safe] returns is in normal form *)

Lemma replace_unsafe_is_safe s :
  forallb is_safe (replaceAll match_unsafe [UNDERSCORE] s) = true.
Proof.
  pattern s, (replaceAll match_unsafe [UNDERSCORE] s).
  apply (replaceAll_ind _ _ consumes_match_unsafe); [done|by intros|].
  intros c s0 E IH. simpl in *. destruct (is_safe c); done.
Qed.

Lemma replace_underscores_is_safe s :
  forallb is_safe s = true ->
  forallb is_safe (replaceAll match_underscores [UNDERSCORE] s) = true.
Proof.
  rewrite !forallb_forall. intros Hs c Hc%list_elem_of_In.
  apply (elem_of_replaceAll _ _ consumes_match_underscores) in Hc
    as [Hc|Hc].
  - by apply Hs, list_elem_of_In.
  - by apply list_elem_of_singleton in Hc as ->.
Qed.

Lemma replace_underscores_no_double s :
  no_double_underscore (replaceAll match_underscores [UNDERSCORE] s) = true
  /\ (head (replaceAll match_underscores [UNDERSCORE] s) = Some UNDERSCORE ->
      head s = Some UNDERSCORE).
Proof.
  pattern s, (replaceAll match_underscores [UNDERSCORE] s).
  apply (replaceAll_ind _ _ consumes_match_underscores); [done| |].
  - intros s0 rest E [IH1 IH2]. unfold match_underscores, plus in E.
    destruct s0 as [|c s0]; [done|].
    destruct (N.eqb_spec UNDERSCORE c) as [<-|]; [|done].
    injection E as <-. split; [|done].
    cbn [app no_double_underscore]. rewrite IH1, andb_true_r.
    apply negb_true_iff, andb_false_iff. right.
    destruct (replaceAll _ _ (skip_while _ s0)) as [|c' out] eqn:Eo; [done|].
    destruct (N.eqb_spec c' UNDERSCORE) as [->|]; [|done].
    specialize (IH2 eq_refl).
    destruct (skip_while _ s0) as [|c2 r2] eqn:Es; [done|].
    simpl in IH2. injection IH2 as ->.
    apply skip_while_head in Es. by rewrite N.eqb_refl in Es.
  - intros c s0 E [IH1 IH2]. unfold match_underscores, plus in E.
    destruct (N.eqb_spec UNDERSCORE c) as [<-|Hne]; [done|].
    split.
    + cbn [no_double_underscore]. rewrite IH1, andb_true_r.
      apply negb_true_iff, andb_false_iff. left.
      by apply N.eqb_neq.
    + simpl. congruence.
Qed.

Lemma no_double_tail c s :
  no_double_underscore (c :: s) = true -> no_double_underscore s = true.
Proof. by intros [_ ?]%andb_true_iff. Qed.

Lemma removelast_props s :
  forallb is_safe s = true -> no_double_underscore s = true ->
  forallb is_safe (removelast s) = true /\
  no_double_underscore (removelast s) = true /\
  (forall x, head (removelast s) = Some x -> head s = Some x) /\
  (last s = Some UNDERSCORE -> last (removelast s) <> Some UNDERSCORE).
Proof.
  induction s as [|a s IH]; [done|].
  intros [Ha Hs]%andb_true_iff Hd.
  destruct s as [|b s]; [done|].
  destruct (IH Hs (no_double_tail _ _ Hd)) as (I1 & I2 & I3 & I4).
  change (removelast (a :: b :: s)) with (a :: removelast (b :: s)).
  split; [|split; [|split]].
  - simpl in *. by rewrite Ha.
  - cbn [no_double_underscore]. rewrite I2, andb_true_r.
    cbn [no_double_underscore] in Hd.
    apply andb_true_iff in Hd as [Hd _].
    destruct (removelast (b :: s)) as [|b' s'] eqn:E;
      [by rewrite andb_false_r|].
    pose proof (I3 b' eq_refl) as Hb. simpl in Hb. by injection Hb as ->.
  - done.
  - intros Hl. change (last (a :: b :: s)) with (last (b :: s)) in Hl.
    specialize (I4 Hl).
    destruct (removelast (b :: s)) as [|b' s'] eqn:E; [|done].
    destruct s as [|? ?]; [|by destruct s].
    simpl in Hl. injection Hl as ->. simpl.
    cbn [no_double_underscore] in Hd. rewrite N.eqb_refl in Hd.
    intros [= ->]. by rewrite N.eqb_refl in Hd.
Qed.

Lemma is_normal_intro s :
  forallb is_safe s = true -> no_double_underscore s = true ->
  head s <> Some UNDERSCORE -> last s <> Some UNDERSCORE ->
  is_normal s = true.
Proof.
  intros Hs Hd Hh Hl. unfold is_normal. rewrite Hs, Hd. simpl.
  rewrite andb_true_r. apply andb_true_iff.
  split; by apply negb_true_iff, bool_decide_eq_false.
Qed.

Lemma strip_edges_normal s :
  forallb is_safe s = true -> no_double_underscore s = true ->
  is_normal (strip_edges s) = true.
Proof.
  intros Hs Hd. unfold strip_edges.
  set (s1 := match s with
             | c :: s' => if N.eqb c UNDERSCORE then s' else s
             | [] => []
             end).
  assert (forallb is_safe s1 = true /\ no_double_underscore s1 = true /\
          head s1 <> Some UNDERSCORE) as (Hs1 & Hd1 & Hh1).
  { subst s1. destruct s as [|c s]; [done|].
    destruct (N.eqb_spec c UNDERSCORE) as [->|Hne].
    - apply andb_true_iff in Hs as [_ Hs]. split; [done|].
      split; [by eapply no_double_tail|].
      cbn [no_double_underscore] in Hd. rewrite N.eqb_refl in Hd.
      destruct s as [|c' s]; [done|]. simpl. intros [= ->].
      by rewrite N.eqb_refl in Hd.
    - repeat split; try done. simpl. congruence. }
  clearbody s1.
  destruct (removelast_props s1 Hs1 Hd1) as (R1 & R2 & R3 & R4).
  destruct (last s1) as [c|] eqn:El.
  - destruct (N.eqb_spec c UNDERSCORE) as [->|Hne].
    + apply is_normal_intro; [done|done| |by apply R4].
      intros H. by apply R3 in H.
    + apply is_normal_intro; [done|done|done|]. congruence.
  - apply is_normal_intro; [done|done|done|]. congruence.
Qed.

(** Whatever the name, its normalization is in normal form. *)
Lemma safe_is_normal s : is_normal (safe s) = true.
Proof.
  unfold safe. apply strip_edges_normal.
  - apply replace_underscores_is_safe, replace_unsafe_is_safe.
  - apply replace_underscores_no_double.
Qed.

(** *** The normalization, step by step *)

Lemma replace_unsafe_map s :
  replaceAll match_unsafe [UNDERSCORE] s
  = map (fun c => if is_safe c then c else UNDERSCORE) s.
Proof.
  induction s as [|c s IH]; [done|].
  rewrite (replaceAll_eq _ _ consumes_match_unsafe). simpl.
  destruct (is_safe c); simpl; by rewrite IH.
Qed.

Lemma lower_unit_form c :
  map (fun c => if is_safe c then c else UNDERSCORE) (lower_unit c)
  = unit_form c.
Proof.
  unfold lower_unit, unit_form.
  destruct (N.leb 65 c && N.leb c 90)%bool eqn:Hcap.
  - simpl. apply andb_true_iff in Hcap as [H1 H2].
    apply N.leb_le in H1, H2.
    assert (is_safe (c + 32) = true) as ->; [|done].
    unfold is_safe. apply orb_true_iff. left. apply orb_true_iff. left.
    apply andb_true_iff. split; apply N.leb_le; lia.
  - destruct (N.eqb_spec c 304) as [->|H304]; [by vm_compute|].
    destruct (N.eqb_spec c 8490) as [->|H8490]; [by vm_compute|].
    simpl. by destruct (is_safe c).
Qed.

Lemma unsafe_toLowerCase s :
  replaceAll match_unsafe [UNDERSCORE] (toLowerCase s)
  = flat_map unit_form s.
Proof.
  rewrite replace_unsafe_map. unfold toLowerCase.
  induction s as [|c s IH]; [done|].
  simpl. by rewrite map_app, lower_unit_form, IH.
Qed.

Lemma collapse_cons c s :
  collapse (c :: s)
  = if N.eqb c UNDERSCORE
    then match s with
         | c' :: _ => if N.eqb c' UNDERSCORE then collapse s
                      else c :: collapse s
         | [] => [c]
         end
    else c :: collapse s.
Proof. reflexivity. Qed.

Lemma collapse_run s :
  collapse (UNDERSCORE :: s)
  = UNDERSCORE :: collapse (skip_while (N.eqb UNDERSCORE) s).
Proof.
  induction s as [|c s IH]; [done|].
  rewrite (collapse_cons UNDERSCORE), N.eqb_refl.
  cbn [skip_while]. rewrite (N.eqb_sym UNDERSCORE c).
  destruct (N.eqb_spec c UNDERSCORE) as [->|Hne]; [exact IH|done].
Qed.

Lemma replace_underscores_collapse s :
  replaceAll match_underscores [UNDERSCORE] s = collapse s.
Proof.
  pattern s, (replaceAll match_underscores [UNDERSCORE] s).
  apply (replaceAll_ind _ _ consumes_match_underscores); [done| |].
  - intros s0 rest E IH. unfold match_underscores, plus in E.
    destruct s0 as [|c s0]; [done|].
    destruct (N.eqb_spec UNDERSCORE c) as [<-|]; [|done].
    injection E as <-. rewrite collapse_run. simpl. by rewrite IH.
  - intros c s0 E IH. unfold match_underscores, plus in E.
    destruct (N.eqb_spec UNDERSCORE c) as [<-|Hne]; [done|].
    rewrite collapse_cons. destruct (N.eqb_spec c UNDERSCORE); [congruence|].
    by rewrite IH.
Qed.

Lemma drop_underscores_id s :
  head s <> Some UNDERSCORE -> drop_underscores s = s.
Proof.
  destruct s as [|c s]; [done|]. simpl.
  destruct (N.eqb_spec c UNDERSCORE) as [->|]; done.
Qed.

Lemma no_double_last s :
  no_double_underscore (s ++ [UNDERSCORE]) = true ->
  last s <> Some UNDERSCORE.
Proof.
  induction s as [|a s IH]; [done|].
  intros H. cbn [app no_double_underscore] in H.
  apply andb_true_iff in H as [Ha Hs].
  destruct s as [|b s].
  - simpl in *. rewrite N.eqb_refl, andb_true_r in Ha.
    apply negb_true_iff in Ha. intros [= ->]. by rewrite N.eqb_refl in Ha.
  - change (last (a :: b :: s)) with (last (b :: s)). by apply IH.
Qed.

Lemma strip_edges_trim s :
  no_double_underscore s = true -> strip_edges s = trim s.
Proof.
  intros Hd. unfold strip_edges, trim.
  set (s1 := match s with
             | c :: s' => if N.eqb c UNDERSCORE then s' else s
             | [] => []
             end).
  assert (drop_underscores s = s1 /\ no_double_underscore s1 = true)
    as [-> Hd1].
  { subst s1. destruct s as [|c s]; [done|]. simpl.
    destruct (N.eqb_spec c UNDERSCORE) as [->|Hne]; [|done].
    split; [|by eapply no_double_tail].
    apply drop_underscores_id.
    cbn [no_double_underscore] in Hd. rewrite N.eqb_refl in Hd.
    destruct s as [|c' s]; [done|]. simpl. intros [= ->].
    by rewrite N.eqb_refl in Hd. }
  clearbody s1. clear Hd s.
  destruct (decide (s1 = [])) as [->|Hne]; [done|].
  destruct (exists_last Hne) as (init & l & ->).
  rewrite last_snoc, removelast_last, rev_unit. simpl.
  destruct (N.eqb_spec l UNDERSCORE) as [->|Hl].
  - rewrite drop_underscores_id, rev_involutive; [done|].
    apply no_double_last in Hd1.
    destruct init as [|x init] using rev_ind; [done|].
    rewrite rev_unit. simpl. rewrite last_snoc in Hd1. congruence.
  - by rewrite <- rev_unit, rev_involutive.
Qed.

(** The local function [safe] computes the normal form. *)
Lemma safe_normal_form s : safe s = normal_form s.
Proof.
  unfold safe, normal_form.
  rewrite unsafe_toLowerCase, replace_underscores_collapse.
  apply strip_edges_trim. rewrite <- replace_underscores_collapse.
  apply replace_underscores_no_double.
Qed.

(** C9, as amended. Whatever the two names are, the qualified name is
    [mcp_], the normal form of the endpoint name, [_] and the normal form
    of the operation name, where the normal form of a name is made as
    follows ([normal_form]): every code unit is lower-cased and, when it
    is then outside [[a-z0-9_]], replaced by an underscore; every run of
    underscores, those of the input included, is collapsed into one; the
    underscores at the two ends are stripped. What comes out is in
    normal form (code units of [[a-z0-9_]] only, no underscore at either
    end, no two underscores in a row), and a name in normal form is its
    own normal form. For one endpoint, the qualified name is injective
    over operation names in normal form. *)
Theorem normalizeToolName_injective
    (serverName toolName o1 o2 : jsstring) :
  normalizeToolName serverName toolName
  = lit "mcp_" ++ normal_form serverName ++ lit "_" ++ normal_form toolName /\
  is_normal (normal_form toolName) = true /\
  (is_normal toolName = true -> normal_form toolName = toolName) /\
  (is_normal o1 = true -> is_normal o2 = true ->
   normalizeToolName serverName o1 = normalizeToolName serverName o2 ->
   o1 = o2).
Proof.
  split; [unfold normalizeToolName; by rewrite !safe_normal_form|].
  split; [rewrite <- safe_normal_form; apply safe_is_normal|].
  split; [intros H; rewrite <- safe_normal_form; by apply safe_normal|].
  intros H1 H2. unfold normalizeToolName.
  rewrite (safe_normal o1), (safe_normal o2) by done.
  intros H. by repeat apply app_inv_head in H.
Qed.

Lemma normalizeToolName_injective_witness :
  normalizeToolName (lit "My Server") (lit "__Read--File!")
  = lit "mcp_my_server_read_file" /\
  normal_form (lit "__Read--File!") = lit "read_file" /\
  is_normal (lit "read_file") = true /\
  is_normal (lit "write_file") = true /\
  (normalizeToolName (lit "My Server") (lit "read_file")
   = normalizeToolName (lit "My Server") (lit "write_file") ->
   lit "read_file" = lit "write_file").
Proof.
  split; [vm_compute; reflexivity|]. split; [vm_compute; reflexivity|].
  split; [reflexivity|]. split; [reflexivity|].
  exact (proj2 (proj2 (proj2
           (normalizeToolName_injective (lit "My Server") []
              (lit "read_file") (lit "write_file")))) eq_refl eq_refl).
Defined.

(** C9, as stated, fails: two operation names over [[a-z0-9_]] that
    differ only in a run of underscores get one qualified name from the
    same endpoint; the run of underscores, which lies inside the
    alphabet, is collapsed too. *)
Lemma normalizeToolName_collision :
  forallb is_safe (lit "a_b") = true /\
  forallb is_safe (lit "a__b") = true /\
  lit "a_b" <> lit "a__b" /\
  normalizeToolName (lit "web") (lit "a_b")
  = normalizeToolName (lit "web") (lit "a__b") /\
  safe (lit "a__b") = lit "a_b" /\
  normalizeToolName (lit "a_b") (lit "c")
  = normalizeToolName (lit "a") (lit "b_c").
Proof. repeat split; vm_compute; congruence. Qed.

End BridgeFacts.

(* ===================================================================== *)
(** ** src/client.ts: properties                                          *)
(* ===================================================================== *)

Module ClientFacts.
Import Props Client.

(** *** The ceiling *)

(** C3 fails on the code. A completion wakes the queued invocation 2 and
    frees a slot; invocation 3 arrives before 2 goes on and takes the
    slot; 2 then goes on without testing the ceiling again. Two
    call-operations are in flight on a stdio client, five on a
    streaming-HTTP client and three on a legacy-event-stream client.
    In the last run [disconnect] sets the counter to 0 while invocation 1
    is in flight; when 1 settles the counter is -1, and after a second
    [connect] two invocations are admitted on a stdio client. *)
Theorem callTool_ceiling_exceeded :
  (exists w,
     exec (new stdio_config)
          [LConnect; LConnectSettled 0 true; LCallTool 1; LCallTool 2;
           LCallSettled 1 (SdkOk None None); LCallTool 3; LResume 2]
     = Some w /\ maxConcurrency w = 1 /\ inFlight w = 2%nat) /\
  (exists w,
     exec (new http_config)
          [LConnect; LConnectSettled 0 true; LCallTool 1; LCallTool 2;
           LCallTool 3; LCallTool 4; LCallTool 5;
           LCallSettled 1 (SdkOk None None); LCallTool 6; LResume 5]
     = Some w /\ maxConcurrency w = 4 /\ inFlight w = 5%nat) /\
  (exists w,
     exec (new sse_config)
          [LConnect; LConnectSettled 0 true; LCallTool 1; LCallTool 2;
           LCallTool 3; LCallSettled 1 (SdkOk None None); LCallTool 4;
           LResume 3]
     = Some w /\ maxConcurrency w = 2 /\ inFlight w = 3%nat) /\
  (exists w,
     exec (new stdio_config)
          [LConnect; LConnectSettled 0 true; LCallTool 1; LDisconnect;
           LCloseSettled; LCallSettled 1 (SdkErr "Connection closed");
           LConnect; LConnectSettled 1 true; LCallTool 2; LCallTool 3]
     = Some w /\ maxConcurrency w = 1 /\ inFlight w = 2%nat).
Proof.
  repeat split; eexists; (split; [vm_compute; reflexivity|]);
    split; vm_compute; reflexivity.
Qed.

(** *** Disconnect *)

Lemma callTool_finally_dropped w c :
  calls w !! c = Some Queued -> c ∉ callQueue w ->
  calls (callTool_finally w) !! c = Some Queued /\
  c ∉ callQueue (callTool_finally w).
Proof.
  intros Hc Hq. unfold callTool_finally. simpl.
  destruct (callQueue w) as [|next rest] eqn:E; simpl; [by rewrite E|].
  apply not_elem_of_cons in Hq as [Hne Hq].
  by rewrite lookup_insert_ne.
Qed.

Lemma callTool_admit_dropped w c c' :
  c' <> c -> calls w !! c = Some Queued -> c ∉ callQueue w ->
  calls (callTool_admit c' w) !! c = Some Queued /\
  c ∉ callQueue (callTool_admit c' w).
Proof.
  intros Hne Hc Hq. unfold callTool_admit. simpl.
  destruct (client w); simpl.
  - by rewrite lookup_insert_ne.
  - rewrite lookup_insert_ne by done.
    apply (callTool_finally_dropped (set_pending (pendingCalls w + 1) w));
      done.
Qed.

(** An invocation that waits on a promise whose [resolve] is no longer in
    the queue keeps waiting, whatever happens next. *)
Lemma step_dropped w l w' c :
  step w l = Some w' ->
  calls w !! c = Some Queued -> c ∉ callQueue w ->
  calls w' !! c = Some Queued /\ c ∉ callQueue w'.
Proof.
  intros Hstep Hc Hq. destruct l as [| s ok | | | c' | c' | c' r];
    simpl in Hstep.
  - injection Hstep as <-. unfold connect. by destruct (client w).
  - case_bool_decide; [|done]. by injection Hstep as <-.
  - injection Hstep as <-. unfold disconnect. by destruct (client w).
  - destruct (closing w); [done|]. injection Hstep as <-. simpl.
    split; [done|]. apply not_elem_of_nil.
  - destruct (calls w !! c') eqn:E; [done|]. injection Hstep as <-.
    assert (c' <> c) by congruence. unfold callTool.
    destruct (client w) eqn:Ecl; simpl.
    + destruct (pendingCalls w >=? maxConcurrency w); simpl.
      * rewrite lookup_insert_ne by done. split; [done|].
        apply not_elem_of_app. split; [done|].
        apply not_elem_of_cons. split; [done|apply not_elem_of_nil].
      * by apply callTool_admit_dropped.
    + by rewrite lookup_insert_ne.
  - destruct (calls w !! c') as [[]|] eqn:E; try done.
    injection Hstep as <-. apply callTool_admit_dropped; congruence.
  - destruct (calls w !! c') as [[]|] eqn:E; try done.
    injection Hstep as <-. assert (c' <> c) by congruence.
    destruct (callTool_finally_dropped w c Hc Hq) as [H1 H2].
    unfold callTool_settled. destruct r; simpl;
      by rewrite lookup_insert_ne.
Qed.

Lemma exec_dropped ls w w' c :
  exec w ls = Some w' ->
  calls w !! c = Some Queued -> c ∉ callQueue w ->
  calls w' !! c = Some Queued.
Proof.
  revert w. induction ls as [|l ls IH]; intros w; simpl.
  - by intros [= <-].
  - destruct (step w l) as [w1|] eqn:E; [|done]. intros Hex Hc Hq.
    destruct (step_dropped _ _ _ _ E Hc Hq). eauto.
Qed.

(** An invocation that got past [ensureConnected] is never given its
    error later. *)
Lemma callTool_finally_passed w c :
  passed (calls w !! c) -> passed (calls (callTool_finally w) !! c).
Proof.
  intros H. unfold callTool_finally. simpl.
  destruct (callQueue w) as [|next rest]; simpl; [done|].
  destruct (decide (next = c)) as [->|Hne].
  - by rewrite lookup_insert_eq.
  - by rewrite lookup_insert_ne.
Qed.

Lemma callTool_admit_passed w c c' :
  passed (calls w !! c) -> passed (calls (callTool_admit c' w) !! c).
Proof.
  intros H. unfold callTool_admit. simpl.
  destruct (decide (c' = c)) as [->|Hne].
  - destruct (client w); simpl; by rewrite lookup_insert_eq.
  - destruct (client w); simpl; rewrite lookup_insert_ne by done; [done|].
    by apply (callTool_finally_passed (set_pending (pendingCalls w + 1) w)).
Qed.

Lemma step_passed w l w' c :
  step w l = Some w' -> passed (calls w !! c) -> passed (calls w' !! c).
Proof.
  intros Hstep Hc. destruct l as [| s ok | | | c' | c' | c' r];
    simpl in Hstep.
  - injection Hstep as <-. unfold connect. by destruct (client w).
  - case_bool_decide; [|done]. by injection Hstep as <-.
  - injection Hstep as <-. unfold disconnect. by destruct (client w).
  - destruct (closing w); [done|]. by injection Hstep as <-.
  - destruct (calls w !! c') eqn:E; [done|]. injection Hstep as <-.
    assert (c' <> c) as Hne by (intros ->; by rewrite E in Hc).
    unfold callTool. destruct (client w); simpl.
    + destruct (pendingCalls w >=? maxConcurrency w); simpl.
      * by rewrite lookup_insert_ne.
      * by apply callTool_admit_passed.
    + by rewrite lookup_insert_ne.
  - destruct (calls w !! c') as [[]|] eqn:E; try done.
    injection Hstep as <-. by apply callTool_admit_passed.
  - destruct (calls w !! c') as [[]|] eqn:E; try done.
    injection Hstep as <-.
    pose proof (callTool_finally_passed w c Hc) as H1.
    unfold callTool_settled.
    destruct (decide (c' = c)) as [->|Hne].
    + destruct r; simpl; by rewrite lookup_insert_eq.
    + destruct r; simpl; by rewrite lookup_insert_ne.
Qed.

Lemma exec_passed ls w w' c :
  exec w ls = Some w' -> passed (calls w !! c) -> passed (calls w' !! c).
Proof.
  revert w. induction ls as [|l ls IH]; intros w; simpl.
  - by intros [= <-].
  - destruct (step w l) as [w1|] eqn:E; [|done]. intros Hex Hc.
    apply (IH w1 Hex). by eapply step_passed.
Qed.

(** C1, as amended. Called without a session, [disconnect] changes
    nothing. Called with a session, it calls [close] on it and waits;
    once [close] has settled, the session is gone, the counter is 0 and
    the queue is empty. An invocation of [callTool] that is still queued
    then is dropped with the queue and never resumed: it stays queued in
    every later state, and its promise settles neither way. An invocation
    that was woken before, by a call that settled while [close] was
    awaited, goes on: it calls the session if there still is one, and
    fails on the null session otherwise. Whatever happens, an invocation
    that has been queued never gets the error of [ensureConnected]. *)
Theorem disconnect_resets_and_drops (w : McpClientWrapper) :
  (client w = None -> disconnect w = w) /\
  (forall s, client w = Some s ->
     closed (disconnect w) = s :: closed w /\
     closing (disconnect w) = S (closing w)) /\
  (client (disconnect_finally w) = None /\
   pendingCalls (disconnect_finally w) = 0 /\
   callQueue (disconnect_finally w) = []) /\
  (forall c ls w',
     calls w !! c = Some Queued ->
     exec (disconnect_finally w) ls = Some w' ->
     calls w' !! c = Some Queued) /\
  (forall c,
     calls w !! c = Some Woken ->
     exists w', step w (LResume c) = Some w' /\
       calls w' !! c = Some (match client w with
                             | Some _ => InFlight
                             | None => Threw NullClient
                             end)) /\
  (forall c ls w',
     calls w !! c = Some Queued -> exec w ls = Some w' ->
     exists st, calls w' !! c = Some st /\ st <> Threw NotConnected).
Proof.
  split; [unfold disconnect; by intros ->|].
  split; [intros s H; unfold disconnect; by rewrite H|].
  split; [done|]. split; [|split].
  - intros c ls w' Hc Hex. eapply exec_dropped; [done|done|].
    simpl. apply not_elem_of_nil.
  - intros c Hc. simpl. rewrite Hc. eexists. split; [done|].
    unfold callTool_admit. simpl.
    destruct (client w); simpl; by rewrite lookup_insert_eq.
  - intros c ls w' Hc Hex.
    assert (passed (calls w' !! c)) as H.
    { eapply exec_passed; [done|]. by rewrite Hc. }
    destruct (calls w' !! c) as [st|]; [|done].
    exists st. split; [done|]. by intros ->.
Qed.

Lemma disconnect_resets_and_drops_witness :
  exists w w',
    exec busy_wrapper
         [LDisconnect; LCallSettled 1 (SdkErr "Connection closed");
          LResume 2] = Some w /\
    calls w !! 3%nat = Some Queued /\
    closed w = [0%nat] /\
    callQueue (disconnect_finally w) = [] /\
    exec (disconnect_finally w)
         [LCallSettled 2 (SdkErr "Not connected"); LConnect;
          LConnectSettled 1 true; LCallTool 4;
          LCallSettled 4 (SdkOk None None)] = Some w' /\
    calls w' !! 3%nat = Some Queued /\
    calls w' !! 2%nat = Some (Threw (SdkError "Not connected")) /\
    Threw (SdkError "Not connected") <> Threw NotConnected.
Proof.
  assert (exists w, exec busy_wrapper
            [LDisconnect; LCallSettled 1 (SdkErr "Connection closed");
             LResume 2] = Some w) as [w E] by (vm_compute; eauto).
  assert (exists w', exec (disconnect_finally w)
            [LCallSettled 2 (SdkErr "Not connected"); LConnect;
             LConnectSettled 1 true; LCallTool 4;
             LCallSettled 4 (SdkOk None None)] = Some w') as [w' E'].
  { vm_compute in E. injection E as <-. vm_compute. eauto. }
  assert (calls w !! 3%nat = Some Queued) as H3.
  { vm_compute in E. injection E as <-. vm_compute. reflexivity. }
  exists w, w'.
  destruct (disconnect_resets_and_drops w)
    as (_ & _ & (_ & _ & Hqueue) & Hdrop & _ & _).
  split; [exact E|]. split; [exact H3|].
  split; [vm_compute in E; injection E as <-; reflexivity|].
  split; [exact Hqueue|]. split; [exact E'|].
  split; [exact (Hdrop 3%nat _ w' H3 E')|].
  split; [|done].
  vm_compute in E. injection E as <-. vm_compute in E'.
  injection E' as <-. vm_compute. reflexivity.
Defined.

(** C1, as stated, fails. Invocation 1 is in flight and invocations 2 and
    3 are queued when [disconnect] is called. While [close] is awaited
    the call of 1 is rejected and its [finally] block wakes 2, which goes
    on and calls the closing session; then [close] settles and the queue,
    which still holds the [resolve] of 3, is replaced by an empty one.
    Invocation 2 fails the way its call does; invocation 3 is queued in
    every later state and never fails with "not connected". When
    invocation 2 has settled the counter is -1, which a further
    [disconnect], called without a session, leaves as it is. *)
Lemma disconnect_leaves_queued_caller :
  exists w,
    exec (new stdio_config)
         [LConnect; LConnectSettled 0 true; LCallTool 1; LCallTool 2;
          LCallTool 3; LDisconnect;
          LCallSettled 1 (SdkErr "Connection closed"); LResume 2;
          LCloseSettled; LCallSettled 2 (SdkErr "Not connected")]
    = Some w /\
    client w = None /\ callQueue w = [] /\
    calls w !! 2%nat = Some (Threw (SdkError "Not connected")) /\
    calls w !! 3%nat = Some Queued /\
    (forall ls w', exec w ls = Some w' -> calls w' !! 3%nat = Some Queued) /\
    pendingCalls w = -1 /\
    exists w2, exec w [LDisconnect] = Some w2 /\ pendingCalls w2 = -1.
Proof.
  eexists. split; [vm_compute; reflexivity|].
  split; [reflexivity|]. split; [reflexivity|].
  split; [vm_compute; reflexivity|].
  split; [vm_compute; reflexivity|]. split; [|split].
  - intros ls w' Hex. eapply exec_dropped; [exact Hex| |].
    + vm_compute; reflexivity.
    + simpl. apply not_elem_of_nil.
  - reflexivity.
  - eexists. split; [vm_compute; reflexivity|]. reflexivity.
Qed.

End ClientFacts.

(* ===================================================================== *)
(** ** src/manager.ts: properties                                         *)
(* ===================================================================== *)

Module ManagerFacts.
Import Props Manager.

(** *** The invariant *)

Lemma Inv_new strict cfg : Inv strict (new cfg).
Proof.
  split; simpl; try done.
  intros _ nm s Hs. unfold initializeServers in Hs.
  rewrite map_lookup_imap in Hs.
  destruct (config_servers cfg !! nm) as [c|]; simpl in Hs; [|done].
  destruct (enabled c); [|done]. by injection Hs as <-.
Qed.

(** A server without a connection has no tools. *)
Lemma Inv_no_tools m nm s :
  Inv true m -> servers m !! nm = Some s -> state s <> connected ->
  tools s = [].
Proof.
  intros HI Hs Hst. destruct (tools s) as [|t ts] eqn:E; [done|].
  destruct Hst. eapply inv_tools; [done|done|done|]. by rewrite E.
Qed.

(** Fields that the invariant does not read. *)
Lemma Inv_ext strict m m' :
  servers m' = servers m -> doConnects m' = doConnects m ->
  callers m' = callers m -> Inv strict m -> Inv strict m'.
Proof.
  intros Hs Hd Hc [I1 I2 I3 I4 I5].
  split; rewrite ?Hs, ?Hd, ?Hc; assumption.
Qed.

Lemma Inv_add_log strict x m : Inv strict m -> Inv strict (add_log x m).
Proof. by apply Inv_ext. Qed.

Lemma Inv_add_wrapper strict x m : Inv strict m -> Inv strict (add_wrapper x m).
Proof. by apply Inv_ext. Qed.

Lemma Inv_add_effect strict x m : Inv strict m -> Inv strict (add_effect x m).
Proof. by apply Inv_ext. Qed.

Lemma Inv_upd_disconnecting strict f m :
  Inv strict m -> Inv strict (upd_disconnecting f m).
Proof. by apply Inv_ext. Qed.

(** An invocation of [connectServer] stops waiting as an owner. *)
Lemma Inv_set_caller strict m c x :
  (forall nm p, x <> AwaitOwner nm p) ->
  Inv strict m -> Inv strict (set_caller c x m).
Proof.
  intros Hx [I1 I2 I3 I4 I5]. split; simpl; [done|done| | |].
  - intros c' nm p s [[-> ->]|[_ H]]%lookup_insert_Some; [by destruct (Hx nm p)|].
    eauto.
  - intros c' nm p [[-> ->]|[_ H]]%lookup_insert_Some; [by destruct (Hx nm p)|].
    eauto.
  - intros c1 c2 nm nm' p [[-> ->]|[_ H1]]%lookup_insert_Some;
      [by destruct (Hx nm p)|].
    intros [[-> ->]|[_ H2]]%lookup_insert_Some; [by destruct (Hx nm' p)|].
    eauto.
Qed.

(** A running [doConnect] moves on to another [await], or settles. *)
Lemma Inv_set_promise strict m p t x :
  doConnects m !! p = Some (Running t) ->
  (forall t', x = Running t' -> dc_server t' = dc_server t) ->
  Inv strict m -> Inv strict (upd_doConnects (<[p := x]>) m).
Proof.
  intros Hp Hx [I1 I2 I3 I4 I5]. split; simpl; [done| |done| |done].
  - intros q t' s [(-> & -> & _)|[_ H]]%list_lookup_insert_Some; [|eauto].
    rewrite (Hx t' eq_refl). eauto.
  - intros c nm q H. rewrite length_insert. eauto.
Qed.

(** The server of a running [doConnect], or of a [disconnectServer], is
    given a state other than [connected], with no tools. *)
Lemma Inv_alter_quiet strict m nm f :
  (forall s, servers m !! nm = Some s ->
     connectPromise (f s) = connectPromise s /\
     (strict = true -> tools (f s) = []) /\ state (f s) <> connected) ->
  Inv strict m -> Inv strict (upd_servers (alter f nm) m).
Proof.
  intros Hf [I1 I2 I3 I4 I5]. split; simpl; [| | |done|done].
  - intros Hstrict nm' s [[<- (x & Hx & ->)]|[_ H]]%lookup_alter_Some;
      [|eauto].
    destruct (Hf _ Hx) as (_ & Ht & _). by rewrite Ht.
  - intros p t s Hp [[Hnm (x & Hx & ->)]|[_ H]]%lookup_alter_Some; [|eauto].
    destruct (Hf x) as (Hc & _ & Hst); [by rewrite Hnm|].
    rewrite Hc. split; [|done]. by eapply I2.
  - intros c nm' p s Hc [[<- (x & Hx & ->)]|[_ H]]%lookup_alter_Some;
      [|eauto].
    destruct (Hf _ Hx) as (-> & _). eauto.
Qed.

Lemma Inv_loop_exit strict m p t t0 :
  doConnects m !! p = Some (Running t0) -> dc_server t = dc_server t0 ->
  Inv strict m -> Inv strict (loop_exit p t m).
Proof.
  intros Hp Ht HI. unfold loop_exit.
  eapply Inv_set_promise; [exact Hp|done|].
  apply Inv_alter_quiet; [|done].
  intros s Hs. simpl. repeat split; [|done]. intros ->.
  eapply Inv_no_tools; [done|done|]. rewrite Ht in Hs.
  by destruct (inv_running _ _ HI _ _ _ Hp Hs).
Qed.

Lemma Inv_loop_head strict m p t t0 :
  doConnects m !! p = Some (Running t0) -> dc_server t = dc_server t0 ->
  Inv strict m -> Inv strict (loop_head p t m).
Proof.
  intros Hp Ht HI. unfold loop_head.
  destruct (attempt t <=? dc_retries t)%nat; [|by eapply Inv_loop_exit].
  eapply Inv_set_promise; [exact Hp|by intros t' [= <-]|].
  apply Inv_add_wrapper, Inv_add_log.
  apply Inv_alter_quiet; [|done].
  intros s Hs. simpl. repeat split; [|done]. intros ->.
  eapply Inv_no_tools; [done|done|]. rewrite Ht in Hs.
  by destruct (inv_running _ _ HI _ _ _ Hp Hs).
Qed.

Lemma Inv_catch_block strict m p t e :
  doConnects m !! p = Some (Running t) ->
  Inv strict m -> Inv strict (catch_block p t e m).
Proof.
  intros Hp HI. unfold catch_block.
  destruct (attempt t <? dc_retries t)%nat.
  - eapply Inv_set_promise; [exact Hp|by intros t' [= <-]|].
    by apply Inv_add_effect, Inv_add_log.
  - eapply Inv_loop_head; [exact Hp|done|]. by apply Inv_add_log.
Qed.

Lemma Inv_disconnect_finish strict m nm :
  Inv strict m -> Inv strict (disconnect_finish nm m).
Proof.
  intros HI. unfold disconnect_finish.
  apply Inv_add_log. by apply Inv_alter_quiet.
Qed.

(** An attempt succeeded: the server is connected and its [doConnect]
    is over. *)
Lemma Inv_connected strict m p t w ts now :
  doConnects m !! p = Some (Running t) ->
  Inv strict m ->
  Inv strict (upd_doConnects (<[p := Done Fulfilled]>)
         (add_log (LogConnected (dc_server t) (length ts))
            (upd_servers (alter (store_connected w ts now) (dc_server t))
               m))).
Proof.
  intros Hp [I1 I2 I3 I4 I5]. split; simpl.
  - intros Hstrict nm s [[<- (x & Hx & ->)]|[_ H]]%lookup_alter_Some;
      [done|eauto].
  - intros q t' s [(_ & ? & _)|[Hne Hq]]%list_lookup_insert_Some; [done|].
    intros [[Hnm (x & Hx & ->)]|[_ H]]%lookup_alter_Some; [|eauto].
    destruct (I2 _ _ _ Hq Hx) as [Hc _].
    rewrite <- Hnm in Hx. destruct (I2 _ _ _ Hp Hx) as [Hc' _]. congruence.
  - intros c nm q s Hc [[<- (x & Hx & ->)]|[_ H]]%lookup_alter_Some;
      simpl; eauto.
  - intros c nm q H. rewrite length_insert. eauto.
  - done.
Qed.

Lemma lookup_alter2_Some {A} (f g : A -> A) (m : gmap string A) i j y :
  alter f i (alter g i m) !! j = Some y ->
  (i = j /\ exists x, m !! j = Some x /\ y = f (g x)) \/
  (i <> j /\ m !! j = Some y).
Proof.
  intros [[<- (x & Hx & ->)]|[Hne H]]%lookup_alter_Some.
  - apply lookup_alter_Some in Hx as [[_ (z & Hz & ->)]|[? _]]; [|done].
    left. eauto.
  - apply lookup_alter_Some in H as [[? _]|[_ H]]; [done|]. auto.
Qed.

(** [connectServer] starts a [doConnect] and waits for it as its owner. *)
Lemma Inv_start strict m c nm s :
  servers m !! nm = Some s -> connectPromise s = None ->
  state s <> connected ->
  Inv strict m ->
  Inv strict (set_caller c (AwaitOwner nm (length (doConnects m)))
         (upd_servers
            (alter (set_connectPromise (Some (length (doConnects m)))) nm)
            (doConnect nm m))).
Proof.
  intros Hs Hnone Hst [I1 I2 I3 I4 I5]. split; simpl.
  - intros Hstrict nm' s' [[<- (x & Hx & ->)]|[_ H]]%lookup_alter2_Some;
      [|eauto].
    simpl. intros Ht. destruct Hst. rewrite Hs in Hx. injection Hx as <-.
    eauto.
  - intros q t' s' [(<- & [= <-] & _)|[Hne Hq]]%list_lookup_insert_Some; simpl.
    + by intros [[_ (x & Hx & ->)]|[? _]]%lookup_alter2_Some.
    + apply lookup_snoc_Some in Hq as [[_ Hq]|[? _]]; [|done].
      intros [[Hnm (x & Hx & ->)]|[_ H]]%lookup_alter2_Some; [|eauto].
      destruct (I2 _ _ _ Hq Hx) as [Hc _].
      rewrite <- Hnm, Hs in Hx. injection Hx as <-. congruence.
  - intros c' nm' q s' [[<- [= <- <-]]|[_ Hc]]%lookup_insert_Some.
    + by intros [[_ (x & Hx & ->)]|[? _]]%lookup_alter2_Some.
    + intros [[<- (x & Hx & ->)]|[_ H]]%lookup_alter2_Some; [|eauto].
      pose proof (I3 _ _ _ _ Hc Hx) as Hq.
      rewrite Hs in Hx. injection Hx as <-. congruence.
  - intros c' nm' q [[<- [= <- <-]]|[_ Hc]]%lookup_insert_Some;
      rewrite length_insert, length_app; simpl; [lia|].
    apply I4 in Hc. lia.
  - intros c1 c2 nm1 nm2 q [[<- E1]|[_ H1]]%lookup_insert_Some
      [[<- E2]|[_ H2]]%lookup_insert_Some; simplify_eq; eauto.
    + apply I4 in H2. lia.
    + apply I4 in H1. lia.
Qed.

(** The owner goes on once its [doConnect] has settled, and clears
    [connectPromise]. *)
Lemma Inv_resume_owner strict m c nm p r :
  callers m !! c = Some (AwaitOwner nm p) ->
  doConnects m !! p = Some (Done r) ->
  Inv strict m ->
  Inv strict (set_caller c (Finished r)
                (upd_servers (alter (set_connectPromise None) nm) m)).
Proof.
  intros Hc Hp [I1 I2 I3 I4 I5]. split; simpl.
  - intros Hstrict nm' s [[<- (x & Hx & ->)]|[_ H]]%lookup_alter_Some;
      simpl; eauto.
  - intros q t s Hq [[Hnm (x & Hx & ->)]|[_ H]]%lookup_alter_Some; [|eauto].
    destruct (I2 _ _ _ Hq Hx) as [Hcp _].
    rewrite <- Hnm in Hx. pose proof (I3 _ _ _ _ Hc Hx). congruence.
  - intros c' nm' q s [[_ ?]|[Hne Hc']]%lookup_insert_Some; [done|].
    intros [[<- (x & Hx & ->)]|[_ H]]%lookup_alter_Some; [|eauto].
    pose proof (I3 _ _ _ _ Hc Hx) as H1.
    pose proof (I3 _ _ _ _ Hc' Hx) as H2.
    destruct Hne. eapply I5; [done|]. by replace p with q by congruence.
  - intros c' nm' q [[_ ?]|[_ Hc']]%lookup_insert_Some; [done|eauto].
  - intros c1 c2 nm1 nm2 q [[_ ?]|[_ H1]]%lookup_insert_Some; [done|].
    intros [[_ ?]|[_ H2]]%lookup_insert_Some; [done|eauto].
Qed.

(** A call of an [onError] closure keeps the part of the invariant that
    is not about tools. *)
Lemma Inv_onError server msg m : Inv false m -> Inv false (onError server msg m).
Proof.
  intros HI. unfold onError. apply Inv_alter_quiet; [|by apply Inv_add_log].
  intros s Hs. by simpl.
Qed.

(** Every step keeps the invariant; with [strict], every step other than
    a call of an [onError] closure. *)
Lemma step_Inv strict m l m' :
  (strict = true -> is_onError l = false) ->
  step m l = Some m' -> Inv strict m -> Inv strict m'.
Proof.
  intros Hl Hstep HI.
  destruct l as [c nm|p r|p r now|p|c|d nm|d|w msg]; simpl in Hstep;
    [| | | | | | |].
  - destruct (callers m !! c) eqn:Ec; [done|]. injection Hstep as <-.
    unfold connectServer. destruct (servers m !! nm) as [s|] eqn:Es;
      [|by apply Inv_set_caller].
    destruct (state s) eqn:Est; try (by apply Inv_set_caller);
      (destruct (connectPromise s) eqn:Ep; [by apply Inv_set_caller|];
       eapply Inv_start; [done|done|congruence|done]).
  - destruct (doConnects m !! p) as [[t|]|] eqn:Ep; try done.
    destruct (pc t), r; try done; injection Hstep as <-.
    + eapply Inv_set_promise; [exact Ep|by intros t' [= <-]|].
      by apply Inv_add_effect.
    + by apply Inv_catch_block.
  - destruct (doConnects m !! p) as [[t|]|] eqn:Ep; try done.
    destruct (pc t), r; try done; injection Hstep as <-.
    + by apply Inv_connected.
    + by apply Inv_catch_block.
  - destruct (doConnects m !! p) as [[t|]|] eqn:Ep; try done.
    destruct (pc t); try done; injection Hstep as <-.
    by eapply Inv_loop_head.
  - destruct (callers m !! c) as [[q|nm q|]|] eqn:Ec; try done;
      destruct (doConnects m !! q) as [[|r]|] eqn:Eq; try done;
      injection Hstep as <-; simpl.
    + by apply Inv_set_caller.
    + by eapply Inv_resume_owner.
  - destruct (disconnecting m !! d); [done|]. injection Hstep as <-.
    unfold disconnectServer. destruct (servers m !! nm) as [s|]; [|done].
    destruct (_wrapper s); [by apply Inv_upd_disconnecting, Inv_add_effect|].
    by apply Inv_disconnect_finish.
  - destruct (disconnecting m !! d); [|done]. injection Hstep as <-.
    by apply Inv_disconnect_finish, Inv_upd_disconnecting.
  - destruct (wrappers m !! w); [|done]. injection Hstep as <-.
    destruct strict; [by specialize (Hl eq_refl)|]. by apply Inv_onError.
Qed.

Lemma exec_Inv strict ls m m' :
  (strict = true -> forallb (fun l => negb (is_onError l)) ls = true) ->
  exec m ls = Some m' -> Inv strict m -> Inv strict m'.
Proof.
  revert m. induction ls as [|l ls IH]; intros m; simpl.
  - by intros _ [= <-].
  - intros Hls. destruct (step m l) as [m1|] eqn:E; [|done].
    intros Hex HI. apply (IH m1); [|done|].
    + intros Hs. by destruct (andb_prop _ _ (Hls Hs)).
    + eapply step_Inv; [|done|done]. intros Hs.
      destruct (andb_prop _ _ (Hls Hs)). by apply negb_true_iff.
Qed.

(** Every state of a manager is reached with the invariant. *)
Lemma reachable_Inv cfg ls m : exec (new cfg) ls = Some m -> Inv false m.
Proof. intros Hex. eapply exec_Inv; [done|done|apply Inv_new]. Qed.

(** C6, as amended. After any sequence of connect, disconnect and
    retry-loop steps in which no [onError] closure is called, every server
    that has tools is connected. *)
Theorem tools_only_when_connected (cfg : McpPluginConfig)
    (ls : list Label) (m : McpServerManager) (nm : string)
    (s : ManagedServer) :
  forallb (fun l => negb (is_onError l)) ls = true ->
  exec (new cfg) ls = Some m ->
  servers m !! nm = Some s ->
  tools s <> [] -> state s = connected.
Proof.
  intros Hls Hex. apply (inv_tools true); [|done].
  eapply exec_Inv; [done|done|]. apply Inv_new.
Qed.

Lemma tools_only_when_connected_witness :
  exists m s,
    exec (new web_config)
         [LConnectServer 0 "web"; LConnectSettled 0 Fulfilled;
          LListToolsSettled 0 (inl [read_tool]) 7; LResume 0] = Some m /\
    servers m !! "web" = Some s /\
    tools s <> [] /\ state s = connected.
Proof.
  eexists _, _. split; [vm_compute; reflexivity|].
  split; [vm_compute; reflexivity|].
  assert ([read_tool] <> []) as Hne by done.
  split; [exact Hne|].
  eapply (tools_only_when_connected web_config
            [LConnectServer 0 "web"; LConnectSettled 0 Fulfilled;
             LListToolsSettled 0 (inl [read_tool]) 7; LResume 0]
            _ "web"); [reflexivity| | |exact Hne];
    vm_compute; reflexivity.
Defined.

(** C6, as stated, fails: when the [onError] closure of a wrapper is
    called on a connected server, the server goes to the state [error]
    and keeps its tools. *)
Lemma onError_keeps_tools :
  exists m s,
    exec (new web_config)
         [LConnectServer 0 "web"; LConnectSettled 0 Fulfilled;
          LListToolsSettled 0 (inl [read_tool]) 7; LResume 0;
          LOnError 0 "socket hang up"] = Some m /\
    servers m !! "web" = Some s /\
    tools s = [read_tool] /\ state s = Types.error /\
    error s = Some "socket hang up".
Proof.
  eexists _, _. split; [vm_compute; reflexivity|].
  split; [vm_compute; reflexivity|]. repeat split.
Qed.

End ManagerFacts.

(** *** Deduplication of connect attempts *)

Module DedupFacts.
Import Props Manager ManagerFacts.

(** A settled promise stays as it is. *)
Lemma insert_keeps_done (l : list Promise) q t x p r :
  l !! q = Some (Running t) -> l !! p = Some (Done r) ->
  <[q := x]> l !! p = Some (Done r).
Proof.
  intros Hq Hp. rewrite list_lookup_insert_ne; [done|congruence].
Qed.

Lemma loop_head_done q t t0 m p r :
  doConnects m !! q = Some (Running t0) ->
  doConnects m !! p = Some (Done r) ->
  doConnects (loop_head q t m) !! p = Some (Done r).
Proof.
  intros Hq Hp. unfold loop_head.
  destruct (attempt t <=? dc_retries t)%nat; simpl;
    by eapply insert_keeps_done.
Qed.

Lemma catch_block_done q t e m p r :
  doConnects m !! q = Some (Running t) ->
  doConnects m !! p = Some (Done r) ->
  doConnects (catch_block q t e m) !! p = Some (Done r).
Proof.
  intros Hq Hp. unfold catch_block.
  destruct (attempt t <? dc_retries t)%nat; simpl.
  - by eapply insert_keeps_done.
  - by eapply loop_head_done.
Qed.

Lemma connectServer_done c nm m p r :
  doConnects m !! p = Some (Done r) ->
  doConnects (connectServer c nm m) !! p = Some (Done r).
Proof.
  intros Hp. unfold connectServer.
  destruct (servers m !! nm) as [s|]; [|done].
  destruct (state s); try done;
    (destruct (connectPromise s); [done|]; simpl;
     pose proof (lookup_lt_Some _ _ _ Hp);
     rewrite list_lookup_insert_ne by lia; by rewrite lookup_app_l).
Qed.

Lemma step_done m l m' p r :
  step m l = Some m' ->
  doConnects m !! p = Some (Done r) -> doConnects m' !! p = Some (Done r).
Proof.
  intros Hstep Hp.
  destruct l as [c nm|q x|q x now|q|c|d nm|d|w msg]; simpl in Hstep.
  - destruct (callers m !! c); [done|]. injection Hstep as <-.
    by apply connectServer_done.
  - destruct (doConnects m !! q) as [[t|]|] eqn:Eq; try done.
    destruct (pc t), x; try done; injection Hstep as <-.
    + simpl. by eapply insert_keeps_done.
    + by apply catch_block_done.
  - destruct (doConnects m !! q) as [[t|]|] eqn:Eq; try done.
    destruct (pc t), x; try done; injection Hstep as <-.
    + simpl. by eapply insert_keeps_done.
    + by apply catch_block_done.
  - destruct (doConnects m !! q) as [[t|]|] eqn:Eq; try done.
    destruct (pc t); try done; injection Hstep as <-.
    by eapply loop_head_done.
  - destruct (callers m !! c) as [[q|nm q|]|]; try done;
      destruct (doConnects m !! q) as [[|x]|]; try done;
      by injection Hstep as <-.
  - destruct (disconnecting m !! d); [done|]. injection Hstep as <-.
    unfold disconnectServer. destruct (servers m !! nm) as [s|]; [|done].
    by destruct (_wrapper s).
  - destruct (disconnecting m !! d); [|done]. by injection Hstep as <-.
  - destruct (wrappers m !! w); [|done]. by injection Hstep as <-.
Qed.

Lemma loop_head_callers q t m : callers (loop_head q t m) = callers m.
Proof. unfold loop_head. by destruct (attempt t <=? dc_retries t)%nat. Qed.

Lemma catch_block_callers q t e m :
  callers (catch_block q t e m) = callers m.
Proof.
  unfold catch_block. destruct (attempt t <? dc_retries t)%nat; [done|].
  by rewrite loop_head_callers.
Qed.

Lemma connectServer_callers c nm m c' :
  c <> c' -> callers (connectServer c nm m) !! c' = callers m !! c'.
Proof.
  intros Hne. unfold connectServer.
  destruct (servers m !! nm) as [s|]; simpl; [|by rewrite lookup_insert_ne].
  destruct (state s); simpl; try (by rewrite lookup_insert_ne);
    (destruct (connectPromise s); simpl; by rewrite lookup_insert_ne).
Qed.

(** An invocation of [connectServer] that waits for promise [p] keeps
    waiting for it until it goes on, and then it finishes with the outcome
    of [p]; once finished, it stays so. *)
Lemma step_caller m l m' c who :
  step m l = Some m' -> callers m !! c = Some who ->
  callers m' !! c = Some who \/
  exists p r, awaits p (Some who) /\ doConnects m !! p = Some (Done r) /\
              callers m' !! c = Some (Finished r).
Proof.
  intros Hstep Hc.
  destruct l as [c' nm|q x|q x now|q|c'|d nm|d|w msg]; simpl in Hstep.
  - destruct (callers m !! c') eqn:E; [done|]. injection Hstep as <-.
    left. rewrite connectServer_callers; [done|congruence].
  - destruct (doConnects m !! q) as [[t|]|] eqn:Eq; try done.
    destruct (pc t), x; try done; injection Hstep as <-; left; [done|].
    by rewrite catch_block_callers.
  - destruct (doConnects m !! q) as [[t|]|] eqn:Eq; try done.
    destruct (pc t), x; try done; injection Hstep as <-; left; [done|].
    by rewrite catch_block_callers.
  - destruct (doConnects m !! q) as [[t|]|] eqn:Eq; try done.
    destruct (pc t); try done; injection Hstep as <-. left.
    by rewrite loop_head_callers.
  - destruct (decide (c' = c)) as [->|Hne].
    + rewrite Hc in Hstep. right.
      destruct who as [q|nm q|]; [| |done];
        destruct (doConnects m !! q) as [[|r]|] eqn:Eq; try done;
        injection Hstep as <-; exists q, r; simpl;
        by rewrite lookup_insert_eq.
    + left. destruct (callers m !! c') as [[q|nm q|]|]; try done;
        destruct (doConnects m !! q) as [[|r]|]; try done;
        injection Hstep as <-; simpl; by rewrite lookup_insert_ne.
  - destruct (disconnecting m !! d); [done|]. injection Hstep as <-.
    left. unfold disconnectServer.
    destruct (servers m !! nm) as [s|]; [|done]. by destruct (_wrapper s).
  - destruct (disconnecting m !! d); [|done]. injection Hstep as <-.
    by left.
  - destruct (wrappers m !! w); [|done]. injection Hstep as <-. by left.
Qed.

(** Whoever observes [p] goes on observing it. *)
Lemma step_observes m l m' c p :
  step m l = Some m' -> observes p m c -> observes p m' c.
Proof.
  intros E [Hw|(r & Hc & Hp)].
  - destruct (callers m !! c) as [who|] eqn:Ec; [|done].
    destruct (step_caller _ _ _ _ _ E Ec) as [Hsame|(q & r & Hq & Hd & Hf)].
    + left. by rewrite Hsame.
    + right. exists r. split; [done|].
      assert (q = p) as -> by (destruct who; simpl in *; try done; congruence).
      by eapply step_done.
  - right. exists r. split; [|by eapply step_done].
    destruct (step_caller _ _ _ _ _ E Hc) as [?|(q & r' & [] & _)]; done.
Qed.

Lemma exec_observes ls m m' c p :
  exec m ls = Some m' -> observes p m c -> observes p m' c.
Proof.
  revert m. induction ls as [|l ls IH]; intros m; simpl.
  - by intros [= <-].
  - destruct (step m l) as [m1|] eqn:E; [|done]. intros Hex H.
    apply (IH m1 Hex). by eapply step_observes.
Qed.

(** Once [p] has settled, whoever waits for it can go on, and finishes
    with the outcome of [p]. *)
Lemma resume_observes m c p r :
  awaits p (callers m !! c) -> doConnects m !! p = Some (Done r) ->
  exists m', step m (LResume c) = Some m' /\
             callers m' !! c = Some (Finished r).
Proof.
  intros Hw Hp. simpl.
  destruct (callers m !! c) as [[q|nm q|]|] eqn:Ec; try done;
    simpl in Hw; subst q; rewrite Hp; eexists; (split; [done|]); simpl;
    by rewrite lookup_insert_eq.
Qed.

(** Once finished, an invocation stays finished; until then it keeps its
    place. *)
Lemma exec_caller ls m m' c who :
  exec m ls = Some m' -> callers m !! c = Some who ->
  callers m' !! c = Some who \/ exists r, callers m' !! c = Some (Finished r).
Proof.
  revert m who. induction ls as [|l ls IH]; intros m who; simpl.
  - intros [= <-]. by left.
  - destruct (step m l) as [m1|] eqn:E; [|done]. intros Hex Hc.
    destruct (step_caller _ _ _ _ _ E Hc) as [H1|(q & r & _ & _ & H1)].
    + by apply (IH m1).
    + right. destruct (IH m1 _ Hex H1) as [?|?]; eauto.
Qed.

(** *** The servers along a step *)

Lemma demotes_refl m : demotes m m.
Proof. split; eauto. Qed.

Lemma demotes_trans m1 m2 m3 : demotes m1 m2 -> demotes m2 m3 -> demotes m1 m3.
Proof.
  intros [A1 B1] [A2 B2]. split; [eauto|].
  intros nm s3 H3 Hc. destruct (B2 _ _ H3 Hc) as (s2 & H2 & Hc2). eauto.
Qed.

Lemma demotes_ext m m' : servers m' = servers m -> demotes m m'.
Proof. intros E. unfold demotes. rewrite E. eauto. Qed.

Lemma demotes_alter f nm m :
  (forall s, state (f s) = connected -> state s = connected) ->
  demotes m (upd_servers (alter f nm) m).
Proof.
  intros Hf. split; simpl.
  - intros nm' H. by apply lookup_alter_is_Some.
  - intros nm' s' [[<- (x & Hx & ->)]|[_ H]]%lookup_alter_Some Hc; eauto.
Qed.

Lemma demotes_loop_exit p t m : demotes m (loop_exit p t m).
Proof.
  unfold loop_exit. eapply demotes_trans; [|by apply demotes_ext].
  by apply demotes_alter.
Qed.

Lemma demotes_loop_head p t m : demotes m (loop_head p t m).
Proof.
  unfold loop_head.
  destruct (attempt t <=? dc_retries t)%nat; [|apply demotes_loop_exit].
  eapply demotes_trans; [|by apply demotes_ext].
  by apply demotes_alter.
Qed.

Lemma demotes_catch_block p t e m : demotes m (catch_block p t e m).
Proof.
  unfold catch_block. destruct (attempt t <? dc_retries t)%nat.
  - by apply demotes_ext.
  - eapply demotes_trans; [|apply demotes_loop_head]. by apply demotes_ext.
Qed.

Lemma demotes_connectServer c nm m : demotes m (connectServer c nm m).
Proof.
  unfold connectServer.
  destruct (servers m !! nm) as [s|]; [|by apply demotes_ext].
  assert (demotes m
            match connectPromise s with
            | Some p => set_caller c (AwaitShared p) m
            | None =>
                set_caller c (AwaitOwner nm (length (doConnects m)))
                  (upd_servers
                     (alter (set_connectPromise
                               (Some (length (doConnects m)))) nm)
                     (doConnect nm m))
            end) as H.
  { destruct (connectPromise s); [by apply demotes_ext|].
    eapply demotes_trans; [|by apply demotes_ext].
    eapply demotes_trans; [|by apply demotes_alter].
    unfold doConnect. eapply demotes_trans; [|apply demotes_loop_head].
    by apply demotes_ext. }
  destruct (state s); try done. by apply demotes_ext.
Qed.

Lemma demotes_disconnect_finish nm m : demotes m (disconnect_finish nm m).
Proof.
  unfold disconnect_finish. eapply demotes_trans; [|by apply demotes_ext].
  by apply demotes_alter.
Qed.

(** Where a step leaves a server connected, the server was connected
    before, or the step is the end of a successful attempt for it. *)
Lemma step_connected m l m' nm s' :
  step m l = Some m' -> servers m' !! nm = Some s' -> state s' = connected ->
  (exists s, servers m !! nm = Some s /\ state s = connected) \/
  (exists q t, doConnects m !! q = Some (Running t) /\ dc_server t = nm /\
               doConnects m' !! q = Some (Done Fulfilled)).
Proof.
  intros Hstep Hs' Hc.
  assert (demotes m m' ->
          exists s, servers m !! nm = Some s /\ state s = connected) as Hdem.
  { intros [_ H]. eauto. }
  destruct l as [c nm'|q r|q r now|q|c|d nm'|d|w msg]; simpl in Hstep.
  - destruct (callers m !! c); [done|]. injection Hstep as <-.
    left. apply Hdem, demotes_connectServer.
  - destruct (doConnects m !! q) as [[t|]|] eqn:Eq; try done.
    destruct (pc t), r; try done; injection Hstep as <-; left; apply Hdem.
    + by apply demotes_ext.
    + apply demotes_catch_block.
  - destruct (doConnects m !! q) as [[t|]|] eqn:Eq; try done.
    destruct (pc t), r as [ts|e]; try done; injection Hstep as <-.
    + simpl in Hs'.
      apply lookup_alter_Some in Hs' as [[Hnm _]|[_ Hs']]; [right|left; eauto].
      exists q, t. split; [done|]. split; [done|]. simpl.
      apply list_lookup_insert_eq. by eapply lookup_lt_Some.
    + left. apply Hdem, demotes_catch_block.
  - destruct (doConnects m !! q) as [[t|]|] eqn:Eq; try done.
    destruct (pc t); try done; injection Hstep as <-.
    left. apply Hdem, demotes_loop_head.
  - left. apply Hdem.
    destruct (callers m !! c) as [[q|nm' q|]|]; try done;
      destruct (doConnects m !! q) as [[|r]|]; try done;
      injection Hstep as <-; simpl.
    + by apply demotes_ext.
    + eapply demotes_trans; [|by apply demotes_ext]. by apply demotes_alter.
  - destruct (disconnecting m !! d); [done|]. injection Hstep as <-.
    left. apply Hdem. unfold disconnectServer.
    destruct (servers m !! nm') as [s|]; [|apply demotes_refl].
    destruct (_wrapper s); [by apply demotes_ext|].
    apply demotes_disconnect_finish.
  - destruct (disconnecting m !! d); [|done]. injection Hstep as <-.
    left. apply Hdem.
    eapply demotes_trans; [|apply demotes_disconnect_finish].
    by apply demotes_ext.
  - destruct (wrappers m !! w); [|done]. injection Hstep as <-.
    left. apply Hdem. unfold onError.
    eapply demotes_trans; [|by apply demotes_alter]. by apply demotes_ext.
Qed.

Lemma step_servers_some m l m' nm :
  step m l = Some m' -> is_Some (servers m !! nm) ->
  is_Some (servers m' !! nm).
Proof.
  intros Hstep Hs.
  assert (demotes m m' -> is_Some (servers m' !! nm)) as Hdem.
  { intros [H _]. eauto. }
  destruct l as [c nm'|q r|q r now|q|c|d nm'|d|w msg]; simpl in Hstep.
  - destruct (callers m !! c); [done|]. injection Hstep as <-.
    apply Hdem, demotes_connectServer.
  - destruct (doConnects m !! q) as [[t|]|] eqn:Eq; try done.
    destruct (pc t), r; try done; injection Hstep as <-; apply Hdem.
    + by apply demotes_ext.
    + apply demotes_catch_block.
  - destruct (doConnects m !! q) as [[t|]|] eqn:Eq; try done.
    destruct (pc t), r as [ts|e]; try done; injection Hstep as <-.
    + simpl. by apply lookup_alter_is_Some.
    + apply Hdem, demotes_catch_block.
  - destruct (doConnects m !! q) as [[t|]|] eqn:Eq; try done.
    destruct (pc t); try done; injection Hstep as <-.
    apply Hdem, demotes_loop_head.
  - destruct (callers m !! c) as [[q|nm' q|]|]; try done;
      destruct (doConnects m !! q) as [[|r]|]; try done;
      injection Hstep as <-; simpl; [done|].
    by apply lookup_alter_is_Some.
  - destruct (disconnecting m !! d); [done|]. injection Hstep as <-.
    apply Hdem. unfold disconnectServer.
    destruct (servers m !! nm') as [s|]; [|apply demotes_refl].
    destruct (_wrapper s); [by apply demotes_ext|].
    apply demotes_disconnect_finish.
  - destruct (disconnecting m !! d); [|done]. injection Hstep as <-.
    apply Hdem.
    eapply demotes_trans; [|apply demotes_disconnect_finish].
    by apply demotes_ext.
  - destruct (wrappers m !! w); [|done]. injection Hstep as <-.
    apply Hdem. unfold onError.
    eapply demotes_trans; [|by apply demotes_alter]. by apply demotes_ext.
Qed.

(** *** The invocations of [doConnect] for one server *)

Lemma starts_app nm a b : starts nm (a ++ b) = (starts nm a + starts nm b)%nat.
Proof. unfold starts. by rewrite List.filter_app, length_app. Qed.

Lemma starts_snoc nm a e :
  is_start nm e = false -> starts nm (a ++ [e]) = starts nm a.
Proof. intros H. rewrite starts_app. unfold starts at 2. simpl. rewrite H. simpl. lia. Qed.

Lemma loop_head_starts nm q t m :
  starts nm (trace (loop_head q (next_round t) m)) = starts nm (trace m).
Proof.
  unfold loop_head. destruct (_ <=? _)%nat; [|done]. simpl.
  by rewrite !starts_snoc.
Qed.

Lemma catch_block_starts nm q t e m :
  starts nm (trace (catch_block q t e m)) = starts nm (trace m).
Proof.
  unfold catch_block. destruct (_ <? _)%nat; simpl.
  - by rewrite !starts_snoc.
  - rewrite loop_head_starts. simpl. by rewrite starts_snoc.
Qed.

(** A step starts no [doConnect] for [nm], unless it is a call of
    [connectServer] for [nm]. *)
Lemma step_starts m l m' nm :
  step m l = Some m' -> (forall c, l <> LConnectServer c nm) ->
  starts nm (trace m') = starts nm (trace m).
Proof.
  intros Hstep Hl.
  destruct l as [c nm'|q r|q r now|q|c|d nm'|d|w msg]; simpl in Hstep.
  - destruct (callers m !! c); [done|]. injection Hstep as <-.
    assert (nm <> nm') as Hne by (intros ->; by destruct (Hl c)).
    unfold connectServer. destruct (servers m !! nm') as [s|]; [|done].
    destruct (state s); try done;
      (destruct (connectPromise s); [done|]; simpl;
       rewrite starts_snoc by done; rewrite starts_snoc; [done|];
       simpl; by apply String.eqb_neq).
  - destruct (doConnects m !! q) as [[t|]|] eqn:Eq; try done.
    destruct (pc t), r; try done; injection Hstep as <-.
    + simpl. by rewrite starts_snoc.
    + apply catch_block_starts.
  - destruct (doConnects m !! q) as [[t|]|] eqn:Eq; try done.
    destruct (pc t), r as [ts|e]; try done; injection Hstep as <-.
    + simpl. by rewrite starts_snoc.
    + apply catch_block_starts.
  - destruct (doConnects m !! q) as [[t|]|] eqn:Eq; try done.
    destruct (pc t); try done; injection Hstep as <-.
    apply loop_head_starts.
  - destruct (callers m !! c) as [[q|nm' q|]|]; try done;
      destruct (doConnects m !! q) as [[|r]|]; try done;
      by injection Hstep as <-.
  - destruct (disconnecting m !! d); [done|]. injection Hstep as <-.
    unfold disconnectServer. destruct (servers m !! nm') as [s|]; [|done].
    destruct (_wrapper s); simpl; by rewrite starts_snoc.
  - destruct (disconnecting m !! d); [|done]. injection Hstep as <-.
    simpl. by rewrite starts_snoc.
  - destruct (wrappers m !! w); [|done]. injection Hstep as <-.
    simpl. by rewrite starts_snoc.
Qed.

(** *** While the owner waits *)

Section Window.
Variables (nm : string) (p c0 : nat).

(** While the owner [c0] waits for [p], a call of [connectServer] for the
    same server starts nothing and observes [p]. *)
Lemma enter_observes m c m' :
  Inv false m -> window nm p m ->
  callers m !! c0 = Some (AwaitOwner nm p) ->
  step m (LConnectServer c nm) = Some m' ->
  observes p m' c /\ trace m' = trace m.
Proof.
  intros HI [[s Hs] HJ] Hown Hstep. simpl in Hstep.
  destruct (callers m !! c) eqn:Ec; [done|]. injection Hstep as <-.
  pose proof (inv_owner _ _ HI _ _ _ _ Hown Hs) as Hp.
  unfold connectServer, observes. rewrite Hs, Hp.
  destruct (state s) eqn:Est; simpl; rewrite lookup_insert_eq;
    try (split; [by left|done]).
  split; [|done]. right. exists Fulfilled. split; [done|].
  by apply (HJ s).
Qed.

Lemma step_window m l m' :
  Inv false m -> window nm p m ->
  callers m !! c0 = Some (AwaitOwner nm p) ->
  step m l = Some m' -> window nm p m'.
Proof.
  intros HI [Hsome HJ] Hown Hstep. split; [by eapply step_servers_some|].
  intros s' Hs' Hc.
  destruct (step_connected _ _ _ _ _ Hstep Hs' Hc)
    as [(s & Hs & Hcs)|(q & t & Hq & Hnm & Hd)].
  - eapply step_done; [done|]. by eapply HJ.
  - destruct Hsome as [s Hs]. rewrite <- Hnm in Hs.
    destruct (inv_running _ _ HI _ _ _ Hq Hs) as [Hcp _].
    rewrite Hnm in Hs.
    pose proof (inv_owner _ _ HI _ _ _ _ Hown Hs) as Hp.
    by replace p with q by congruence.
Qed.

(** While the owner waits for [p], no other [doConnect] starts for the
    server, and every caller for the server observes [p]. *)
Lemma exec_window ls : forall m m',
  Inv false m -> window nm p m ->
  callers m !! c0 = Some (AwaitOwner nm p) ->
  exec m ls = Some m' ->
  callers m' !! c0 = Some (AwaitOwner nm p) ->
  starts nm (trace m') = starts nm (trace m) /\
  forall c, In (LConnectServer c nm) ls -> observes p m' c.
Proof.
  induction ls as [|l ls IH]; intros m m' HI HW Hown; simpl.
  - intros [= <-] _. by split.
  - destruct (step m l) as [m1|] eqn:E; [|done]. intros Hex Hend.
    assert (callers m1 !! c0 = Some (AwaitOwner nm p)) as Hown1.
    { destruct (step_caller _ _ _ _ _ E Hown) as [?|(q & r & _ & _ & Hf)];
        [done|].
      destruct (exec_caller _ _ _ _ _ Hex Hf) as [H|[r' H]]; congruence. }
    destruct (IH m1 m') as [Hst Hobs]; try done.
    { eapply step_Inv; [done|done|done]. }
    { by eapply step_window. }
    split.
    + rewrite Hst.
      assert ((exists c, l = LConnectServer c nm) \/
              (forall c, l <> LConnectServer c nm)) as [[c ->]|Hno].
      { destruct l as [c nm'| | | | | | |]; try (by right).
        destruct (decide (nm' = nm)) as [->|]; [left; eauto|].
        right. congruence. }
      * by destruct (enter_observes m c m1) as [_ ->].
      * by eapply step_starts.
    + intros c [->|Hin]; [|by apply Hobs].
      eapply exec_observes; [done|].
      by destruct (enter_observes m c m1).
Qed.

End Window.

(** *** The calls of [connect] while the owner waits *)

Lemma connects_app a b : connects (a ++ b) = connects a ++ connects b.
Proof. apply omap_app. Qed.

Lemma failures_app nm a b :
  failures nm (a ++ b) = failures nm a ++ failures nm b.
Proof. apply omap_app. Qed.

Lemma successes_app nm a b :
  successes nm (a ++ b) = (successes nm a + successes nm b)%nat.
Proof. unfold successes. by rewrite List.filter_app, length_app. Qed.

Lemma since_refl m0 : since m0 m0 [].
Proof.
  split; [by rewrite app_nil_r|]. split; [done|].
  split; [constructor|constructor].
Qed.

Lemma since_extend m0 m m' tr ex wx :
  since m0 m tr ->
  trace m' = trace m ++ ex -> wrappers m' = wrappers m ++ wx ->
  connects ex = seq (length (wrappers m)) (length wx) ->
  since m0 m' (tr ++ ex).
Proof.
  intros (Ht & Hl & Hb & Hn) Et Ew Ec. unfold since.
  rewrite Et, Ht, Ew, length_app, connects_app, Ec.
  split; [by rewrite app_assoc|]. split; [lia|]. split.
  - apply Forall_app. split.
    + eapply Forall_impl; [exact Hb|]. simpl. intros w Hw. lia.
    + apply Forall_forall. intros w Hw%elem_of_seq. lia.
  - apply NoDup_app. split; [done|]. split; [|apply NoDup_seq].
    intros w Hw Hw'%elem_of_seq.
    rewrite Forall_forall in Hb. specialize (Hb _ Hw). lia.
Qed.

Lemma connects_for_extend nm m0 m tr ex wx :
  since m0 m tr ->
  connects_for nm (wrappers m ++ wx) (tr ++ ex)
  = connects_for nm (wrappers m) tr
    ++ connects_for nm (wrappers m ++ wx) ex.
Proof.
  intros (_ & _ & Hb & _). unfold connects_for.
  rewrite connects_app, List.filter_app. f_equal.
  apply List.filter_ext_in. intros w Hw%list_elem_of_In.
  rewrite Forall_forall in Hb. specialize (Hb _ Hw).
  by rewrite lookup_app_l by lia.
Qed.

Lemma connects_for_log_new nm ws x o :
  connects_for nm (ws ++ [o]) [ELog x; EConnect (length ws)]
  = if decide (o = nm) then [length ws] else [].
Proof.
  unfold connects_for. simpl. rewrite list_lookup_middle by done.
  destruct (decide (o = nm)) as [->|Hne].
  - by rewrite bool_decide_eq_true_2.
  - rewrite bool_decide_eq_false_2; [done|congruence].
Qed.

Local Arguments connects_for : simpl never.
Section Attempts.
Variables (nm : string) (p R : nat) (m0 : McpServerManager).

Lemma attempts_intro m m' tr ex wx :
  since m0 m tr ->
  trace m' = trace m ++ ex -> wrappers m' = wrappers m ++ wx ->
  connects ex = seq (length (wrappers m)) (length wx) ->
  progress nm R (doConnects m' !! p)
    (connects_for nm (wrappers m) tr
     ++ connects_for nm (wrappers m ++ wx) ex)
    (failures nm tr ++ failures nm ex)
    (successes nm tr + successes nm ex) ->
  attempts_since nm p R m0 m'.
Proof.
  intros Hs Et Ew Ec Hp. exists (tr ++ ex).
  split; [by eapply since_extend|].
  rewrite Ew, (connects_for_extend _ _ _ _ _ _ Hs), failures_app,
    successes_app. exact Hp.
Qed.

Lemma attempts_quiet m m' ex wx :
  attempts_since nm p R m0 m ->
  trace m' = trace m ++ ex -> wrappers m' = wrappers m ++ wx ->
  connects ex = seq (length (wrappers m)) (length wx) ->
  connects_for nm (wrappers m ++ wx) ex = [] ->
  failures nm ex = [] -> successes nm ex = 0%nat ->
  doConnects m' !! p = doConnects m !! p ->
  attempts_since nm p R m0 m'.
Proof.
  intros (tr & Hs & Hp) Et Ew Ec H1 H2 H3 Hd.
  eapply attempts_intro; [done|done|done|done|].
  by rewrite H1, H2, H3, Hd, !app_nil_r, Nat.add_0_r.
Qed.

Lemma attempts_same m m' :
  attempts_since nm p R m0 m ->
  trace m' = trace m -> wrappers m' = wrappers m ->
  doConnects m' !! p = doConnects m !! p ->
  attempts_since nm p R m0 m'.
Proof.
  intros H Et Ew Hd.
  apply (attempts_quiet m m' [] []); try done.
  - by rewrite app_nil_r.
  - by rewrite app_nil_r.
Qed.

Lemma attempts_lt m :
  attempts_since nm p R m0 m -> (p < length (doConnects m))%nat.
Proof.
  intros (tr & _ & Hp). destruct (doConnects m !! p) eqn:E; [|done].
  by eapply lookup_lt_Some.
Qed.

(** *** The steps of another [doConnect] *)

Lemma loop_head_other q t m :
  attempts_since nm p R m0 m -> q <> p -> dc_server t <> nm ->
  attempts_since nm p R m0 (loop_head q t m).
Proof.
  intros H Hq Hne. unfold loop_head, loop_exit.
  destruct (attempt t <=? dc_retries t)%nat.
  - eapply (attempts_quiet m _ [_; _] [_]); [done| | | | | | |]; simpl.
    + by rewrite <- app_assoc.
    + done.
    + done.
    + rewrite connects_for_log_new.
      by destruct (decide (dc_server t = nm)).
    + done.
    + done.
    + by rewrite list_lookup_insert_ne.
  - apply (attempts_same m); simpl; [done|done|done|].
    by rewrite list_lookup_insert_ne.
Qed.

Lemma catch_block_other q t e m :
  attempts_since nm p R m0 m -> q <> p -> dc_server t <> nm ->
  attempts_since nm p R m0 (catch_block q t e m).
Proof.
  intros H Hq Hne.
  assert (attempts_since nm p R m0 (add_log (LogFailed (dc_server t) e) m))
    as H1.
  { eapply (attempts_quiet m _ [_] []); [done| | | | | | |]; simpl;
      try done.
    - by rewrite app_nil_r.
    - cbn. destruct (String.eqb_spec nm (dc_server t)); [congruence|done]. }
  unfold catch_block. destruct (attempt t <? dc_retries t)%nat.
  - eapply (attempts_quiet _ _ [_] []); [exact H1| | | | | | |]; simpl;
      try done.
    + by rewrite app_nil_r.
    + by rewrite list_lookup_insert_ne.
  - by apply loop_head_other.
Qed.

(** *** The steps of the [doConnect] behind [p] *)

Lemma loop_head_own t m :
  attempts_since nm p R m0 m ->
  doConnects m !! p = Some (Running t) -> pc t = AwaitTimer ->
  attempts_since nm p R m0 (loop_head p (next_round t) m).
Proof.
  intros (tr & Hs & Hp) Ht Hpc. rewrite Ht in Hp. simpl in Hp.
  destruct Hp as (Hnm & HR & Hcs & Hlast & Herr & Hk & Hfs).
  rewrite Hpc in Hfs. destruct Hfs as [Hfs Hlt].
  pose proof (lookup_lt_Some _ _ _ Ht) as Hlen.
  assert ((attempt (next_round t) <=? dc_retries (next_round t))%nat = true)
    as E by (apply Nat.leb_le; simpl; lia).
  unfold loop_head. rewrite E.
  eapply (attempts_intro m _ tr [_; _] [_]); [done| | | |]; simpl.
  - by rewrite <- app_assoc.
  - done.
  - done.
  - rewrite list_lookup_insert_eq by done. simpl.
    rewrite connects_for_log_new.
    destruct (decide (dc_server t = nm)); [|done].
    rewrite ?app_nil_r, ?length_app, ?last_snoc.
      unfold successes in *. simpl.
    repeat split; try done; lia.
Qed.

Lemma catch_block_own t e m :
  attempts_since nm p R m0 m ->
  doConnects m !! p = Some (Running t) -> pc t <> AwaitTimer ->
  attempts_since nm p R m0 (catch_block p t e m).
Proof.
  intros (tr & Hs & Hp) Ht Hpc. rewrite Ht in Hp. simpl in Hp.
  destruct Hp as (Hnm & HR & Hcs & Hlast & Herr & Hk & Hfs).
  assert (length (failures nm tr) = attempt t /\ (attempt t <= R)%nat)
    as [Hfs' Hle] by (by destruct (pc t)).
  pose proof (lookup_lt_Some _ _ _ Ht) as Hlen.
  unfold catch_block.
  destruct (Nat.ltb_spec (attempt t) (dc_retries t)) as [Hlt|Hge].
  - eapply (attempts_intro m _ tr [_; _] []); [done| | | |]; simpl.
    + by rewrite <- app_assoc.
    + by rewrite app_nil_r.
    + done.
    + rewrite list_lookup_insert_eq by done. cbn. rewrite Hnm.
      rewrite String.eqb_refl. cbn.
      rewrite ?app_nil_r, ?length_app, ?last_snoc.
      unfold successes in *. simpl.
      repeat split; try done; lia.
  - unfold loop_head.
    match goal with
    | |- context [(?a <=? ?b)%nat] =>
        assert ((a <=? b)%nat = false) as E
          by (apply Nat.leb_gt; simpl; lia);
        rewrite E
    end.
    unfold loop_exit.
    eapply (attempts_intro m _ tr [_] []); [done| | | |]; simpl.
    + done.
    + by rewrite app_nil_r.
    + done.
    + rewrite list_lookup_insert_eq by done. cbn. rewrite Hnm.
      rewrite String.eqb_refl. cbn.
      rewrite ?app_nil_r, ?length_app, ?last_snoc.
      unfold successes in *. simpl.
      repeat split; try done; lia.
Qed.

(** While its owner waits for [p], a running [doConnect] for [nm] is the
    one behind [p]. *)
Lemma running_is_own c0 m q t :
  Inv false m -> is_Some (servers m !! nm) ->
  callers m !! c0 = Some (AwaitOwner nm p) ->
  doConnects m !! q = Some (Running t) -> q <> p -> dc_server t <> nm.
Proof.
  intros HI [s Hs] Hown Hq Hne Hnm. rewrite <- Hnm in Hs.
  destruct (inv_running _ _ HI _ _ _ Hq Hs) as [Hcp _].
  rewrite Hnm in Hs.
  pose proof (inv_owner _ _ HI _ _ _ _ Hown Hs). congruence.
Qed.

Lemma step_attempts c0 m l m' :
  Inv false m -> is_Some (servers m !! nm) ->
  callers m !! c0 = Some (AwaitOwner nm p) ->
  step m l = Some m' ->
  attempts_since nm p R m0 m -> attempts_since nm p R m0 m'.
Proof.
  intros HI Hsome Hown Hstep HA.
  pose proof (attempts_lt _ HA) as Hlt.
  destruct l as [c nm'|q r|q r now|q|c|d nm'|d|w msg]; simpl in Hstep.
  - destruct (callers m !! c); [done|]. injection Hstep as <-.
    unfold connectServer.
    destruct (servers m !! nm') as [s'|] eqn:Es'; [|by apply (attempts_same m)].
    assert (attempts_since nm p R m0
              match connectPromise s' with
              | Some p' => set_caller c (AwaitShared p') m
              | None =>
                  set_caller c (AwaitOwner nm' (length (doConnects m)))
                    (upd_servers
                       (alter (set_connectPromise
                                 (Some (length (doConnects m)))) nm')
                       (doConnect nm' m))
              end) as H.
    { destruct (connectPromise s') eqn:Ecp; [by apply (attempts_same m)|].
      assert (nm' <> nm) as Hne.
      { intros ->. pose proof (inv_owner _ _ HI _ _ _ _ Hown Es').
        congruence. }
      apply (attempts_same (doConnect nm' m)); try done.
      unfold doConnect. apply loop_head_other; [|lia|done].
      apply (attempts_same m); try done. simpl.
      by rewrite lookup_app_l. }
    destruct (state s'); try done; by apply (attempts_same m).
  - destruct (doConnects m !! q) as [[t|]|] eqn:Eq; try done.
    destruct (decide (q = p)) as [->|Hne].
    + destruct (pc t) eqn:Epc, r; try done; injection Hstep as <-.
      * destruct HA as (tr & Hs & Hp). rewrite Eq in Hp. simpl in Hp.
        rewrite Epc in Hp.
        eapply (attempts_intro m _ tr [_] []); [done| | | |]; simpl;
          try done.
        -- by rewrite app_nil_r.
        -- rewrite list_lookup_insert_eq by done. simpl.
           by rewrite !app_nil_r, Nat.add_0_r.
      * apply catch_block_own; [done|done|by rewrite Epc].
    + pose proof (running_is_own _ _ _ _ HI Hsome Hown Eq Hne) as Hnm.
      destruct (pc t), r; try done; injection Hstep as <-.
      * eapply (attempts_quiet m _ [_] []); [done| | | | | | |]; simpl;
          try done.
        -- by rewrite app_nil_r.
        -- by rewrite list_lookup_insert_ne.
      * by apply catch_block_other.
  - destruct (doConnects m !! q) as [[t|]|] eqn:Eq; try done.
    destruct (decide (q = p)) as [->|Hne].
    + destruct (pc t) eqn:Epc, r as [ts|e]; try done; injection Hstep as <-.
      * destruct HA as (tr & Hs & Hp). rewrite Eq in Hp. simpl in Hp.
        rewrite Epc in Hp.
        destruct Hp as (Hnm & HR & Hcs & Hlast & Herr & Hk & Hfs & Hle).
        eapply (attempts_intro m _ tr [_] []); [done| | | |]; simpl;
          try done.
        -- by rewrite app_nil_r.
        -- rewrite list_lookup_insert_eq by done. cbn. rewrite Hnm.
           rewrite String.eqb_refl. cbn.
           rewrite !app_nil_r. repeat split; lia.
      * apply catch_block_own; [done|done|by rewrite Epc].
    + pose proof (running_is_own _ _ _ _ HI Hsome Hown Eq Hne) as Hnm.
      destruct (pc t), r as [ts|e]; try done; injection Hstep as <-.
      * eapply (attempts_quiet m _ [_] []); [done| | | | | | |]; simpl;
          try done.
        -- by rewrite app_nil_r.
        -- cbn. destruct (String.eqb_spec nm (dc_server t));
             [congruence|done].
        -- by rewrite list_lookup_insert_ne.
      * by apply catch_block_other.
  - destruct (doConnects m !! q) as [[t|]|] eqn:Eq; try done.
    destruct (pc t) eqn:Epc; try done; injection Hstep as <-.
    destruct (decide (q = p)) as [->|Hne].
    + by apply loop_head_own.
    + apply loop_head_other; [done|done|]. simpl.
      by eapply running_is_own.
  - destruct (callers m !! c) as [[q|nm' q|]|]; try done;
      destruct (doConnects m !! q) as [[|r]|]; try done;
      injection Hstep as <-; by apply (attempts_same m).
  - destruct (disconnecting m !! d); [done|]. injection Hstep as <-.
    unfold disconnectServer. destruct (servers m !! nm') as [s'|]; [|done].
    destruct (_wrapper s').
    + eapply (attempts_quiet m _ [_] []); [done| | | | | | |]; simpl;
        try done. by rewrite app_nil_r.
    + eapply (attempts_quiet m _ [_] []); [done| | | | | | |]; simpl;
        try done. by rewrite app_nil_r.
  - destruct (disconnecting m !! d); [|done]. injection Hstep as <-.
    eapply (attempts_quiet m _ [_] []); [done| | | | | | |]; simpl;
      try done. by rewrite app_nil_r.
  - destruct (wrappers m !! w); [|done]. injection Hstep as <-.
    eapply (attempts_quiet m _ [_] []); [done| | | | | | |]; simpl;
      try done. by rewrite app_nil_r.
Qed.

Lemma exec_attempts c0 ls : forall m m',
  Inv false m -> is_Some (servers m !! nm) ->
  callers m !! c0 = Some (AwaitOwner nm p) ->
  exec m ls = Some m' ->
  callers m' !! c0 = Some (AwaitOwner nm p) ->
  attempts_since nm p R m0 m -> attempts_since nm p R m0 m'.
Proof.
  induction ls as [|l ls IH]; intros m m' HI Hsome Hown; simpl.
  - by intros [= <-].
  - destruct (step m l) as [m1|] eqn:E; [|done]. intros Hex Hend HA.
    assert (callers m1 !! c0 = Some (AwaitOwner nm p)) as Hown1.
    { destruct (step_caller _ _ _ _ _ E Hown) as [?|(q & r & _ & _ & Hf)];
        [done|].
      destruct (exec_caller _ _ _ _ _ Hex Hf) as [H|[r' H]]; congruence. }
    apply (IH m1 m'); try done.
    + eapply step_Inv; [done|done|done].
    + by eapply step_servers_some.
    + by eapply step_attempts.
Qed.
End Attempts.

(** What [progress] says of the number of calls of [connect]. *)
Lemma progress_bounds nm R st cs fs k :
  progress nm R st cs fs k -> (1 <= length cs <= S R)%nat.
Proof.
  unfold progress. destruct st as [[t|[|e]]|]; [| | |done].
  - intros (_ & _ & -> & _ & _ & _ & H). destruct (pc t); lia.
  - lia.
  - lia.
Qed.

(** C4, as amended. A call of [connectServer] for a server that is not
    connected and has no attempt under way starts [doConnect] and waits
    for its promise as the owner. As long as the owner has not gone on,
    whatever else happens, no other [doConnect] is started for that
    server: the log holds one first attempt more than before. In that
    time [connect] is called for the server by that one [doConnect]
    only, once for each of its attempts and each time on a wrapper
    constructed for the attempt: once at the start and once more after
    each failed attempt, between 1 and [retries + 1] times ([progress]).
    The promise is fulfilled when an attempt has connected and listed
    the tools, and rejected with the message of the last failure when
    [retries + 1] attempts have failed. Every call of [connectServer]
    for the server made in that time, like the first one, observes that
    one promise: from then on it either waits for it, and can go on as
    soon as the promise has settled, finishing with its outcome, or it
    has finished with that outcome. *)
Theorem connectServer_single_doConnect (cfg : McpPluginConfig)
    (ls0 : list Label) (m0 : McpServerManager) (nm : string)
    (s : ManagedServer) (c0 : nat) (ls1 : list Label)
    (m1 : McpServerManager) (c : nat) (ls2 : list Label)
    (m2 : McpServerManager) :
  exec (new cfg) ls0 = Some m0 ->
  servers m0 !! nm = Some s -> state s <> connected ->
  connectPromise s = None ->
  let p := length (doConnects m0) in
  let R := retries (defaults (mconfig m0)) in
  exec m0 (LConnectServer c0 nm :: ls1) = Some m1 ->
  callers m1 !! c0 = Some (AwaitOwner nm p) ->
  In (LConnectServer c nm) (LConnectServer c0 nm :: ls1) ->
  exec m1 ls2 = Some m2 ->
  starts nm (trace m1) = S (starts nm (trace m0)) /\
  (exists tr,
     trace m1 = trace m0 ++ tr /\
     NoDup (connects_for nm (wrappers m1) tr) /\
     (forall w, w ∈ connects_for nm (wrappers m1) tr ->
                (length (wrappers m0) <= w)%nat) /\
     (1 <= length (connects_for nm (wrappers m1) tr) <= S R)%nat /\
     progress nm R (doConnects m1 !! p)
       (connects_for nm (wrappers m1) tr) (failures nm tr)
       (successes nm tr)) /\
  observes p m2 c /\
  forall r, awaits p (callers m2 !! c) ->
            doConnects m2 !! p = Some (Done r) ->
            exists m3, step m2 (LResume c) = Some m3 /\
                       callers m3 !! c = Some (Finished r).
Proof.
  intros Hreach Hs Hst Hnone p R Hex Hown Hin Hex2.
  cbn [exec] in Hex.
  destruct (step m0 (LConnectServer c0 nm)) as [ma|] eqn:E; [|done].
  pose proof (reachable_Inv _ _ _ Hreach) as HI0.
  assert (Inv false ma) as HIa by (eapply step_Inv; [done|done|done]).
  simpl in E. destruct (callers m0 !! c0) eqn:Ec0; [done|].
  injection E as E.
  assert (ma = set_caller c0 (AwaitOwner nm p)
                 (upd_servers (alter (set_connectPromise (Some p)) nm)
                    (doConnect nm m0))) as Hma.
  { rewrite <- E. unfold connectServer. rewrite Hs, Hnone.
    by destruct (state s). }
  assert (callers ma !! c0 = Some (AwaitOwner nm p)) as Howna.
  { rewrite Hma. simpl. by rewrite lookup_insert_eq. }
  assert (window nm p ma) as HWa.
  { rewrite Hma. split; simpl.
    - rewrite !lookup_alter_eq, Hs. by eexists.
    - rewrite !lookup_alter_eq, Hs. by intros s' [= <-]. }
  assert (starts nm (trace ma) = S (starts nm (trace m0))) as Hsa.
  { rewrite Hma. simpl. rewrite starts_snoc by done.
    rewrite starts_app. unfold starts at 2. simpl.
    rewrite String.eqb_refl. simpl. lia. }
  assert (attempts_since nm p R m0 ma) as HAa.
  { rewrite Hma.
    eapply (attempts_intro nm p R m0 m0 _ [] [_; _] [_]);
      [apply since_refl| | | |]; simpl.
    - by rewrite <- app_assoc.
    - done.
    - done.
    - rewrite list_lookup_insert_eq by (rewrite length_app; simpl; lia).
      rewrite connects_for_log_new.
      destruct (decide (nm = nm)); [|done]. simpl.
      repeat split; try done; lia. }
  destruct (exec_window nm p c0 ls1 ma m1 HIa HWa Howna Hex Hown)
    as [Hst1 Hobs].
  split; [by rewrite Hst1|]. split.
  { destruct (exec_attempts nm p R m0 c0 ls1 ma m1 HIa (proj1 HWa) Howna
                Hex Hown HAa) as (tr & (Ht & _ & Hb & Hn) & Hp).
    exists tr. split; [done|]. split.
    { unfold connects_for.
      by apply NoDup_ListNoDup, List.NoDup_filter, NoDup_ListNoDup. }
    split; [|split; [by eapply progress_bounds|done]].
    unfold connects_for. intros w [Hw _]%list_elem_of_In%List.filter_In.
    rewrite Forall_forall in Hb.
    apply list_elem_of_In in Hw. specialize (Hb _ Hw). lia. }
  assert (observes p m1 c) as Hc1.
  { destruct Hin as [[= <-]|Hin]; [|by apply Hobs]. left. by rewrite Hown. }
  split; [by eapply exec_observes|].
  intros r Hw Hr. by apply (resume_observes _ _ p).
Qed.

Lemma connectServer_single_doConnect_witness :
  exists m1 m2,
    exec (new web_config)
         [LConnectServer 0 "web"; LConnectServer 1 "web";
          LConnectSettled 0 (Rejected "ECONNREFUSED");
          LConnectServer 2 "web"; LTimer 0; LConnectSettled 0 Fulfilled;
          LListToolsSettled 0 (inl [read_tool]) 7] = Some m1 /\
    exec m1 [LResume 2; LResume 1] = Some m2 /\
    starts "web" (trace m1) = 1%nat /\
    (exists tr,
       trace m1 = [] ++ tr /\
       connects_for "web" (wrappers m1) tr = [0; 1]%nat /\
       failures "web" tr = ["ECONNREFUSED"%string] /\
       successes "web" tr = 1%nat /\
       (1 <= length (connects_for "web" (wrappers m1) tr) <= 3)%nat /\
       progress "web" 2 (Some (Done Fulfilled))
         (connects_for "web" (wrappers m1) tr) (failures "web" tr)
         (successes "web" tr)) /\
    observes 0 m2 2 /\
    callers m2 !! 2%nat = Some (Finished Fulfilled).
Proof.
  set (ls1 := [LConnectServer 1 "web";
               LConnectSettled 0 (Rejected "ECONNREFUSED");
               LConnectServer 2 "web"; LTimer 0;
               LConnectSettled 0 Fulfilled;
               LListToolsSettled 0 (inl [read_tool]) 7]).
  set (ls2 := [LResume 2; LResume 1]).
  assert (exists m1, exec (new web_config) (LConnectServer 0 "web" :: ls1)
                     = Some m1) as [m1 E1] by (vm_compute; eauto).
  assert (exists m2, exec m1 ls2 = Some m2) as [m2 E2].
  { vm_compute in E1. injection E1 as <-. vm_compute. eauto. }
  exists m1, m2. split; [exact E1|]. split; [exact E2|].
  assert (servers (new web_config) !! "web" = Some web_server) as H1
    by (vm_compute; reflexivity).
  assert (state web_server <> connected) as H2 by done.
  assert (callers m1 !! 0%nat = Some (AwaitOwner "web" 0)) as H3.
  { vm_compute in E1. injection E1 as <-. vm_compute. reflexivity. }
  assert (doConnects m1 !! 0%nat = Some (Done Fulfilled)) as H4.
  { vm_compute in E1. injection E1 as <-. vm_compute. reflexivity. }
  destruct (connectServer_single_doConnect web_config [] (new web_config)
              "web" web_server 0 ls1 m1 2 ls2 m2
              eq_refl H1 H2 eq_refl E1 H3)
    as (Hstarts & (tr & Htr & _ & _ & Hlen & Hp) & Hobs & _);
    [simpl; auto|exact E2|].
  split; [exact Hstarts|]. split; [|split; [exact Hobs|]].
  - exists tr. split; [exact Htr|].
    simpl in Htr, Hp. rewrite H4 in Hp. subst tr.
    split; [vm_compute in E1; injection E1 as <-; vm_compute; reflexivity|].
    split; [vm_compute in E1; injection E1 as <-; vm_compute; reflexivity|].
    split; [vm_compute in E1; injection E1 as <-; vm_compute; reflexivity|].
    split; [exact Hlen|exact Hp].
  - vm_compute in E1. injection E1 as <-. vm_compute in E2.
    injection E2 as <-. vm_compute. reflexivity.
Defined.

(** C4, as stated, fails: one [doConnect] is not one transport session.
    Two callers ask for the server at the same time; the first attempt
    connects a session and fails to list the tools; after the backoff
    the same [doConnect] constructs a second wrapper and connects a
    second session, which succeeds. There was one [doConnect] and there
    were two calls of [connect], on two wrappers; [disconnect] was never
    called on the first one. Both callers finish fulfilled. *)
Lemma connectServer_retry_connects_again :
  exists m,
    exec (new web_config)
         [LConnectServer 0 "web"; LConnectServer 1 "web";
          LConnectSettled 0 Fulfilled;
          LListToolsSettled 0 (inr "Request timed out"%string) 5;
          LTimer 0; LConnectSettled 0 Fulfilled;
          LListToolsSettled 0 (inl [read_tool]) 7;
          LResume 0; LResume 1] = Some m /\
    starts "web" (trace m) = 1%nat /\
    connects (trace m) = [0; 1]%nat /\
    wrappers m = ["web"; "web"]%string /\
    trace m
    = [ELog (LogConnecting "web" 0 2); EConnect 0; EListTools 0;
       ELog (LogFailed "web" "Request timed out"); ESetTimeout 1000;
       ELog (LogConnecting "web" 1 2); EConnect 1; EListTools 1;
       ELog (LogConnected "web" 1)] /\
    callers m !! 0%nat = Some (Finished Fulfilled) /\
    callers m !! 1%nat = Some (Finished Fulfilled).
Proof.
  eexists. split; [vm_compute; reflexivity|].
  repeat split; vm_compute; reflexivity.
Qed.

End DedupFacts.

(** *** Retries and backoff *)

Module RetryFacts.
Import Props Manager.

Local Arguments Nat.leb : simpl never.
Local Arguments Nat.ltb : simpl never.
Local Arguments Z.mul : simpl never.
Local Arguments Z.pow : simpl never.

Lemma exec_app m ls1 ls2 :
  exec m (ls1 ++ ls2) = exec m ls1 ≫= fun m1 => exec m1 ls2.
Proof.
  revert m. induction ls1 as [|l ls1 IH]; intros m; simpl; [done|].
  destruct (step m l); [apply IH|done].
Qed.

(** The [catch] block reads the locals of the attempt, not the [await]
    at which it failed. *)
Lemma catch_block_after_connect p t e m :
  catch_block p
    {| dc_server := dc_server t; dc_retries := dc_retries t;
       lastError := lastError t; attempt := attempt t;
       dc_client := dc_client t; pc := AwaitListTools |} e
    (upd_doConnects
       (<[p := Running {| dc_server := dc_server t;
                          dc_retries := dc_retries t;
                          lastError := lastError t; attempt := attempt t;
                          dc_client := dc_client t;
                          pc := AwaitListTools |}]>) m)
  = catch_block p t e m.
Proof.
  unfold catch_block, loop_head, loop_exit, upd_doConnects, add_log,
    add_effect, add_wrapper, upd_servers; simpl.
  by rewrite !list_insert_insert_eq.
Qed.

(** A failing attempt runs the [catch] block, after the call of
    [listTools] if [connect] went through. *)
Lemma attempt_fails_exec m p t x rest :
  doConnects m !! p = Some (Running t) -> pc t = AwaitConnect ->
  exec m (attempt_fails p x ++ rest)
  = exec (catch_block p t x.2
            (if x.1 then add_effect (EListTools (dc_client t)) m else m))
         rest.
Proof.
  intros Hp Hpc. destruct x as [[] e]; unfold attempt_fails; simpl.
  - rewrite Hp, Hpc. simpl.
    rewrite list_lookup_insert_eq by (by eapply lookup_lt_Some). simpl.
    by rewrite catch_block_after_connect.
  - by rewrite Hp, Hpc.
Qed.

(** A [doConnect] that has called [connect] for attempt [attempt t], with
    every attempt failing: [length xs] further attempts are made, each
    after a delay of 1000 * 2^i for the attempt i before it, and the
    promise rejects with the last error, which is also stored on the
    server with the state [error]. *)
Lemma failing_run xs : forall m p t x_last s,
  doConnects m !! p = Some (Running t) -> pc t = AwaitConnect ->
  (attempt t + length xs = dc_retries t)%nat ->
  S (dc_client t) = length (wrappers m) ->
  servers m !! dc_server t = Some s ->
  exists m',
    exec m (failing p (xs ++ [x_last])) = Some m' /\
    doConnects m' = <[p := Done (Rejected x_last.2)]> (doConnects m) /\
    trace m' = trace m
               ++ failing_effects (dc_server t) (dc_retries t) (attempt t)
                                  (dc_client t) (xs ++ [x_last]) /\
    wrappers m' = wrappers m ++ replicate (length xs) (dc_server t) /\
    callers m' = callers m /\
    servers m' !! dc_server t
    = Some (setState s Types.error (Some x_last.2)).
Proof.
  induction xs as [|x xs IH]; intros m p t x_last s Hp Hpc Hn Hw Hs.
  - simpl in Hn. cbn [app failing]. rewrite app_nil_r.
    rewrite <- (app_nil_r (attempt_fails p x_last)).
    rewrite (attempt_fails_exec _ _ t) by done.
    unfold catch_block.
    replace (attempt t <? dc_retries t)%nat with false
      by (symmetry; apply Nat.ltb_ge; lia).
    unfold loop_head. cbn [next_round attempt dc_retries].
    replace (S (attempt t) <=? dc_retries t)%nat with false
      by (symmetry; apply Nat.leb_gt; lia).
    eexists. split; [reflexivity|].
    destruct x_last as [[] e]; simpl;
      rewrite ?app_nil_r, lookup_alter_eq, Hs, <- ?app_assoc; done.
  - change (failing p ((x :: xs) ++ [x_last]))
      with (attempt_fails p x
            ++ match xs ++ [x_last] with
               | [] => []
               | _ :: _ => LTimer p :: failing p (xs ++ [x_last])
               end).
    change (failing_effects (dc_server t) (dc_retries t) (attempt t)
              (dc_client t) ((x :: xs) ++ [x_last]))
      with ((if x.1 then [EListTools (dc_client t)] else [])
            ++ ELog (LogFailed (dc_server t) x.2)
            :: match xs ++ [x_last] with
               | [] => []
               | _ :: _ =>
                   ESetTimeout (1000 * 2 ^ Z.of_nat (attempt t))
                   :: ELog (LogConnecting (dc_server t) (S (attempt t))
                                          (dc_retries t))
                   :: EConnect (S (dc_client t))
                   :: failing_effects (dc_server t) (dc_retries t)
                        (S (attempt t)) (S (dc_client t)) (xs ++ [x_last])
               end).
    destruct (xs ++ [x_last]) as [|y ys] eqn:Eys; [by destruct xs|].
    rewrite <- Eys. clear y ys Eys.
    rewrite (attempt_fails_exec _ _ t) by done.
    simpl in Hn. unfold catch_block.
    replace (attempt t <? dc_retries t)%nat with true
      by (symmetry; apply Nat.ltb_lt; lia).
    pose proof (lookup_lt_Some _ _ _ Hp) as Hlt.
    set (m0 := if x.1 then add_effect (EListTools (dc_client t)) m else m).
    assert (doConnects m0 = doConnects m /\ servers m0 = servers m /\
            wrappers m0 = wrappers m /\ callers m0 = callers m /\
            trace m0 = trace m
                       ++ (if x.1 then [EListTools (dc_client t)] else []))
      as (Hd0 & Hs0 & Hw0 & Hc0 & Ht0).
    { subst m0. destruct x.1; simpl; by rewrite ?app_nil_r. }
    cbn [exec step upd_doConnects doConnects add_effect add_log].
    rewrite list_lookup_insert_eq by (by rewrite Hd0). cbn [pc].
    unfold loop_head. cbn [next_round attempt dc_retries].
    replace (S (attempt t) <=? dc_retries t)%nat with true
      by (symmetry; apply Nat.leb_le; lia).
    match goal with
    | |- context [exec ?m2 (failing _ _)] =>
        destruct (IH m2 p
                    {| dc_server := dc_server t; dc_retries := dc_retries t;
                       lastError := Some x.2; attempt := S (attempt t);
                       dc_client := length (wrappers m0);
                       pc := AwaitConnect |}
                    x_last (setState s connecting None))
          as (m' & Hex & Hd & Ht & Hw' & Hc & Hsv)
    end.
    + simpl. by rewrite list_lookup_insert_eq
        by (by rewrite length_insert, Hd0).
    + done.
    + simpl. lia.
    + simpl. rewrite length_app. simpl. lia.
    + simpl. by rewrite lookup_alter_eq, Hs0, Hs.
    + exists m'. split; [exact Hex|]. simpl in *.
      rewrite Hd, Ht, Hw', Hc, Hsv, Hd0, Hw0, Hc0, Ht0, <- Hw.
      rewrite !list_insert_insert_eq, <- !app_assoc. done.
Qed.

(** C5. With [retries = 2] and a transport that fails at every attempt,
    [connectServer] makes exactly three attempts ([connect] is called on
    three wrappers), with nothing before the first, a delay of 1000 ms
    before the second and of 2000 ms before the third; it leaves the
    server in the state [error] with the message of the last failure, and
    it rejects with that last failure. *)
Theorem doConnect_retries_then_rejects (m : McpServerManager) (nm : string)
    (s : ManagedServer) (c : nat) (x0 x1 x2 : bool * string) :
  retries (defaults (mconfig m)) = 2%nat ->
  servers m !! nm = Some s -> state s <> connected ->
  connectPromise s = None -> callers m !! c = None ->
  let p := length (doConnects m) in
  let w := length (wrappers m) in
  exists m' s',
    exec m (LConnectServer c nm :: failing p [x0; x1; x2] ++ [LResume c])
    = Some m' /\
    trace m' = trace m
               ++ ELog (LogConnecting nm 0 2) :: EConnect w
               :: failing_effects nm 2 0 w [x0; x1; x2] /\
    connects (trace m') = connects (trace m) ++ [w; S w; S (S w)] /\
    timeouts (trace m') = timeouts (trace m) ++ [1000 * 2 ^ 0; 1000 * 2 ^ 1] /\
    servers m' !! nm = Some s' /\
    state s' = Types.error /\ error s' = Some x2.2 /\
    doConnects m' !! p = Some (Done (Rejected x2.2)) /\
    callers m' !! c = Some (Finished (Rejected x2.2)).
Proof.
  intros Hr Hs Hst Hnone Hc p w.
  cbn [exec step]. rewrite Hc.
  set (m1 := set_caller c (AwaitOwner nm p)
               (upd_servers (alter (set_connectPromise (Some p)) nm)
                  (doConnect nm m))).
  assert (connectServer c nm m = m1) as ->.
  { unfold connectServer. rewrite Hs, Hnone. by destruct (state s). }
  set (t0 := {| dc_server := nm; dc_retries := 2; lastError := None;
                attempt := 0; dc_client := w; pc := AwaitConnect |}).
  assert (length (doConnects m1) = S p) as Hlen.
  { subst m1. unfold doConnect, loop_head. simpl.
    rewrite length_insert, length_app. simpl. lia. }
  destruct (failing_run [x0; x1] m1 p t0 x2
              (set_connectPromise (Some p) (setState s connecting None)))
    as (m2 & Hex & Hd & Ht & Hw & Hcs & Hsv).
  { subst m1 t0 p. unfold doConnect, loop_head. simpl. rewrite Hr. simpl.
    rewrite list_lookup_insert_eq; [done|]. rewrite length_app. simpl. lia. }
  { done. }
  { done. }
  { subst m1. unfold doConnect, loop_head. simpl.
    rewrite length_app. simpl. lia. }
  { subst m1. unfold doConnect, loop_head. simpl.
    by rewrite !lookup_alter_eq, Hs. }
  rewrite exec_app.
  change (failing p [x0; x1; x2]) with (failing p ([x0; x1] ++ [x2])).
  rewrite Hex. cbn [mbind option_bind exec step].
  assert (callers m2 !! c = Some (AwaitOwner nm p)) as Hown.
  { rewrite Hcs. subst m1. simpl. by rewrite lookup_insert_eq. }
  assert (doConnects m2 !! p = Some (Done (Rejected x2.2))) as Hdone.
  { rewrite Hd. apply list_lookup_insert_eq. lia. }
  rewrite Hown, Hdone. subst t0. cbn [dc_server dc_retries attempt
                                        dc_client app] in Hsv, Ht.
  assert (trace m1 = trace m ++ [ELog (LogConnecting nm 0 2); EConnect w])
    as Ht1.
  { subst m1. unfold doConnect, loop_head. simpl.
    by rewrite Hr, <- app_assoc. }
  eexists _, _. split; [reflexivity|].
  cbn [trace servers doConnects callers connectServer_resume set_caller
         upd_servers].
  rewrite Ht, Ht1, lookup_alter_eq, Hsv, lookup_insert_eq, Hdone,
    <- !app_assoc.
  split; [done|].
  unfold connects, timeouts. rewrite !omap_app.
  destruct x0 as [[] e0], x1 as [[] e1], x2 as [[] e2]; by repeat split.
Qed.

Lemma doConnect_retries_then_rejects_witness :
  exists m' s',
    exec (new web_config)
         (LConnectServer 7 "web"
          :: failing 0 [(false, "ECONNREFUSED"); (false, "ECONNREFUSED");
                        (true, "Connection closed")]
          ++ [LResume 7]) = Some m' /\
    trace m'
    = [ELog (LogConnecting "web" 0 2); EConnect 0;
       ELog (LogFailed "web" "ECONNREFUSED"); ESetTimeout 1000;
       ELog (LogConnecting "web" 1 2); EConnect 1;
       ELog (LogFailed "web" "ECONNREFUSED"); ESetTimeout 2000;
       ELog (LogConnecting "web" 2 2); EConnect 2; EListTools 2;
       ELog (LogFailed "web" "Connection closed")] /\
    connects (trace m') = [0; 1; 2]%nat /\
    timeouts (trace m') = [1000; 2000] /\
    servers m' !! "web" = Some s' /\
    state s' = Types.error /\ error s' = Some "Connection closed" /\
    doConnects m' !! 0%nat = Some (Done (Rejected "Connection closed")) /\
    callers m' !! 7%nat = Some (Finished (Rejected "Connection closed")).
Proof.
  assert (servers (new web_config) !! "web" = Some web_server) as H1
    by (vm_compute; reflexivity).
  assert (state web_server <> connected) as H2 by done.
  exact (doConnect_retries_then_rejects (new web_config) "web" web_server 7
           (false, "ECONNREFUSED") (false, "ECONNREFUSED")
           (true, "Connection closed") eq_refl H1 H2 eq_refl
           (lookup_empty (M:=gmap nat) 7%nat)).
Defined.

End RetryFacts.
(* ===================================================================== *)
(** ** security.ts: the shape of the result                               *)
(* ===================================================================== *)

Module PolicyFacts.
Import JsString Props JsStringFacts Security SecurityFacts SecurityProps.

Local Arguments N.eqb : simpl never.

(** Whatever the trust level and the path taken, [applyTrustPolicy] makes
    one block out of each block, in order. *)
Lemma applyTrustPolicy_content result trust maxChars :
  content (applyTrustPolicy result trust maxChars)
  = map (pushed trust maxChars) (content result).
Proof.
  unfold applyTrustPolicy.
  destruct (TrustLevel_eqb trust trusted && forallb is_text (content result))
    eqn:E; [|apply generalPath_content].
  apply andb_prop in E as [Ht Hall]. destruct trust; try done.
  unfold fastPath. simpl.
  induction (content result) as [|b l IH]; [done|].
  simpl in Hall. apply andb_prop in Hall as [Hb Hl].
  simpl. f_equal; [|by apply IH]. by destruct b.
Qed.

Lemma applyTrustPolicy_isError result trust maxChars :
  isError (applyTrustPolicy result trust maxChars) = isError result.
Proof.
  unfold applyTrustPolicy.
  by destruct (TrustLevel_eqb trust trusted
               && forallb is_text (content result)).
Qed.

(** X10. [applyTrustPolicy] keeps the number of blocks and the error flag; no
    resource block is left in its result, whatever the trust level; and
    under [sanitize] nothing but text blocks is left. *)
Theorem applyTrustPolicy_keeps_shape (result : ToolCallResult)
    (trust : TrustLevel) (maxChars : Z) :
  length (content (applyTrustPolicy result trust maxChars))
  = length (content result) /\
  isError (applyTrustPolicy result trust maxChars) = isError result /\
  (forall r,
     ResourceBlock r ∉ content (applyTrustPolicy result trust maxChars)) /\
  forallb is_text (content (applyTrustPolicy result sanitize maxChars)) = true.
Proof.
  rewrite !applyTrustPolicy_content, applyTrustPolicy_isError, length_map.
  split_and!; try done.
  - intros r [b [Hb _]]%list_elem_of_fmap. by destruct b, trust.
  - apply forallb_forall. intros b [x [<- _]]%in_map_iff. by destruct x.
Qed.

(** X11. Under [untrusted] and [sanitize] every text that comes out of
    [applyTrustPolicy] starts with the prefix of the trust level, but for
    the text that stands for an image under [sanitize], which has no
    prefix. An image block comes out under [untrusted] only, and as it
    came in. *)
Theorem untrusted_output_is_marked (result : ToolCallResult)
    (trust : TrustLevel) (maxChars : Z) (i : nat) (b : ToolContent) :
  trust <> trusted ->
  content (applyTrustPolicy result trust maxChars) !! i = Some b ->
  match b with
  | TextBlock t =>
      (exists body, t = prefix_of trust ++ body) \/
      (trust = sanitize /\ t = IMAGE_REMOVED /\
       exists d mt, content result !! i = Some (ImageBlock d mt))
  | ImageBlock d mt =>
      trust = untrusted /\ content result !! i = Some (ImageBlock d mt)
  | ResourceBlock _ => False
  end.
Proof.
  intros Ht. rewrite applyTrustPolicy_content, list_lookup_fmap.
  destruct (content result !! i) as [x|] eqn:Ex; [|done].
  simpl. intros [= <-].
  destruct x as [t|d mt|r], trust; try done; unfold pushed; simpl;
    eauto 10.
Qed.

Lemma untrusted_output_is_marked_witness :
  let result := {| content := [TextBlock (lit "hi")]; isError := false |} in
  untrusted <> trusted /\
  content (applyTrustPolicy result untrusted 50) !! 0%nat
  = Some (TextBlock (UNTRUSTED_PREFIX ++ lit "hi")) /\
  ((exists body, UNTRUSTED_PREFIX ++ lit "hi" = prefix_of untrusted ++ body) \/
   (untrusted = sanitize /\ UNTRUSTED_PREFIX ++ lit "hi" = IMAGE_REMOVED /\
    exists d mt, content result !! 0%nat = Some (ImageBlock d mt))).
Proof.
  intros result.
  assert (untrusted <> trusted) as H1 by discriminate.
  assert (content (applyTrustPolicy result untrusted 50) !! 0%nat
          = Some (TextBlock (UNTRUSTED_PREFIX ++ lit "hi"))) as H2
    by (vm_compute; reflexivity).
  split; [exact H1|]. split; [exact H2|].
  exact (untrusted_output_is_marked result untrusted 50 0
           (TextBlock (UNTRUSTED_PREFIX ++ lit "hi")) H1 H2).
Defined.

(** *** Truncation *)

(** X15. A text longer than the limit is cut to the limit and the marker is
    appended after it: the result is longer than the limit, by the 26 code
    units of the marker and the digits of the limit. *)
Theorem truncate_exceeds_limit (t : jsstring) (maxChars : Z) :
  0 <= maxChars -> maxChars < Z.of_nat (length t) ->
  truncate t maxChars
  = take (Z.to_nat maxChars) t ++ truncation_marker maxChars /\
  Z.of_nat (length (truncate t maxChars))
  = maxChars + 26 + Z.of_nat (length (decimal maxChars)).
Proof.
  intros H0 Hlt. unfold truncate.
  destruct (Z.leb_spec (Z.of_nat (length t)) maxChars) as [Hle|_]; [lia|].
  rewrite slice0_take by done. split; [done|].
  rewrite !length_app, length_take. unfold lit. rewrite !length_map.
  simpl. lia.
Qed.

Lemma truncate_exceeds_limit_witness :
  0 <= 3 /\ 3 < Z.of_nat (length (lit "abcdefgh")) /\
  truncate (lit "abcdefgh") 3
  = take (Z.to_nat 3) (lit "abcdefgh") ++ truncation_marker 3 /\
  Z.of_nat (length (truncate (lit "abcdefgh") 3))
  = 3 + 26 + Z.of_nat (length (decimal 3)).
Proof.
  assert (0 <= 3) as H1 by lia.
  assert (3 < Z.of_nat (length (lit "abcdefgh"))) as H2 by (vm_compute; done).
  split; [exact H1|]. split; [exact H2|].
  exact (truncate_exceeds_limit (lit "abcdefgh") 3 H1 H2).
Defined.

(** *** Text that [stripDangerous] leaves alone *)

Section Noop.
Variable m : jsstring -> option jsstring.
Variable repl : jsstring.
Hypothesis Hm : consumes m.

(** Where the pattern matches nowhere, the scan copies the string. *)
Lemma replaceAll_noop s :
  (forall i, m (drop i s) = None) -> replaceAll m repl s = s.
Proof.
  induction s as [|c s IH]; intros Hnone;
    pose proof (Hnone 0%nat) as H0; simpl in H0;
    rewrite replaceAll_eq by done; rewrite H0; [done|].
  f_equal. apply IH. intros i. apply (Hnone (S i)).
Qed.
End Noop.

Lemma includes_false p s i :
  includes p s = false -> expect_str p (drop i s) = None.
Proof.
  revert i. induction s as [|c s IH]; intros i H.
  - rewrite drop_nil. simpl in H. by destruct (expect_str p []).
  - simpl in H. destruct (expect_str p (c :: s)) eqn:E; [done|].
    destruct i as [|i]; [done|]. simpl. by apply IH.
Qed.

Lemma not_elem_of_drop (x : N) s i : x ∉ s -> x ∉ drop i s.
Proof.
  intros H Hx. apply H.
  rewrite <- (take_drop i s). apply elem_of_app. by right.
Qed.

Lemma expect_ci_lt s x :
  LT ∉ s -> expect_ci (LT :: x) s = None.
Proof.
  intros H. destruct s as [|c s]; [done|]. simpl.
  destruct (ci_eqb LT c) eqn:E; [|done].
  destruct H. unfold ci_eqb, ascii_upper in E. apply N.eqb_eq in E.
  assert (c = LT) as ->; [|left].
  change (N.leb 97 LT && N.leb LT 122) with false in E. cbv iota in E.
  destruct (N.leb 97 c && N.leb c 122) eqn:Ec; [|done].
  apply andb_prop in Ec as [H1%N.leb_le H2%N.leb_le]. unfold LT in *. lia.
Qed.

(** The first three replacements leave a text without [<] and without
    ["!["] alone. *)
Lemma stripDangerous_first_passes t :
  LT ∉ t -> includes (lit "![") t = false ->
  replaceAll match_mdimage (lit "[image removed]")
    (replaceAll match_tag [] (replaceAll match_script [] t)) = t.
Proof.
  intros Hlt Himg.
  rewrite (replaceAll_noop match_script) with (s := t);
    [|apply consumes_match_script|].
  2:{ intros i. unfold match_script.
      change (lit "<script") with (LT :: lit "script").
      by rewrite expect_ci_lt by (by apply not_elem_of_drop). }
  rewrite (replaceAll_noop match_tag) with (s := t);
    [|apply consumes_match_tag|].
  2:{ intros i. unfold match_tag.
      destruct (drop i t) as [|c s] eqn:E; [done|]. simpl.
      destruct (N.eqb LT c) eqn:Ec; [|done]. apply N.eqb_eq in Ec.
      destruct (not_elem_of_drop LT t i Hlt). rewrite E, Ec. left. }
  rewrite (replaceAll_noop match_mdimage) with (s := t);
    [done|apply consumes_match_mdimage|].
  intros i. unfold match_mdimage. by rewrite includes_false.
Qed.

(** X13. A text without [<], without ["!["] and without ["data:"] comes out of
    [stripDangerous] as it went in. *)
Theorem stripDangerous_plain_text (t : jsstring) :
  LT ∉ t -> includes (lit "![") t = false ->
  includes (lit "data:") t = false ->
  stripDangerous t = t.
Proof.
  intros Hlt Himg Hdata. unfold stripDangerous.
  rewrite stripDangerous_first_passes by done.
  rewrite (replaceAll_noop match_datauri) with (s := t);
    [done|apply consumes_match_datauri|].
  intros i. unfold match_datauri. by rewrite includes_false.
Qed.

Lemma stripDangerous_plain_text_witness :
  (LT ∉ lit "2 + 2 = 4!") /\
  includes (lit "![") (lit "2 + 2 = 4!") = false /\
  includes (lit "data:") (lit "2 + 2 = 4!") = false /\
  stripDangerous (lit "2 + 2 = 4!") = lit "2 + 2 = 4!".
Proof.
  assert (LT ∉ lit "2 + 2 = 4!") as H1
    by (apply (bool_decide_unpack _); vm_compute; exact I).
  split; [exact H1|]. split; [vm_compute; reflexivity|].
  split; [vm_compute; reflexivity|].
  apply (stripDangerous_plain_text (lit "2 + 2 = 4!") H1);
    vm_compute; reflexivity.
Defined.

(** *** An image that [stripDangerous] lets through *)

(** A string that lacks a code unit of the pattern does not hold the
    pattern. *)
Lemma includes_lacking x p s : x ∈ p -> x ∉ s -> includes p s = false.
Proof.
  intros Hp Hs. induction s as [|c s IH].
  - simpl. destruct (expect_str p []) eqn:E; [|done].
    apply expect_str_app in E. destruct p; [by apply elem_of_nil in Hp|done].
  - simpl. destruct (expect_str p (c :: s)) eqn:E.
    + apply expect_str_app in E. destruct Hs. rewrite E.
      apply elem_of_app. by left.
    + apply IH. intros H. apply Hs. by right.
Qed.

Lemma includes_app_false p k s :
  (forall i, (i < length k)%nat -> expect_str p (drop i (k ++ s)) = None) ->
  includes p s = false -> includes p (k ++ s) = false.
Proof.
  intros Hk Hs. induction k as [|c k IH]; [done|].
  simpl. pose proof (Hk 0%nat) as H0. simpl in H0. rewrite H0 by lia.
  apply IH. intros i Hi. apply (Hk (S i)). simpl. lia.
Qed.

Lemma skip_while_stop (cls : N -> bool) u c r :
  forallb cls u = true -> cls c = false ->
  skip_while cls (u ++ c :: r) = c :: r.
Proof.
  intros Hu Hc. induction u as [|x u IH]; simpl.
  - by rewrite Hc.
  - simpl in Hu. apply andb_prop in Hu as [-> Hu]. by apply IH.
Qed.

(** X14. Where the text has a ["!"] right before a data URI and a link in
    parentheses right after it, the replacement of the data URI makes a
    Markdown image of them: the result of [stripDangerous] then holds an
    image link, which its own pattern for such links matches. *)
Theorem stripDangerous_can_make_image (u : jsstring) :
  u <> [] -> LT ∉ u -> cu "!" ∉ u -> cu ":" ∉ u -> cu ")" ∉ u ->
  stripDangerous (lit "!data:x,y(http://" ++ u ++ lit ")")
  = lit "![data-uri removed](http://" ++ u ++ lit ")" /\
  match_mdimage (lit "![data-uri removed](http://" ++ u ++ lit ")")
  = Some [].
Proof.
  intros Hne Hlt Hbang Hcolon Hparen. split.
  - unfold stripDangerous. rewrite stripDangerous_first_passes.
    + change (lit "!data:x,y(http://" ++ u ++ lit ")")
        with (cu "!" :: lit "data:x,y(http://" ++ u ++ lit ")").
      rewrite (replaceAll_eq _ _ consumes_match_datauri).
      assert (match_datauri (cu "!" :: lit "data:x,y(http://" ++ u
                             ++ lit ")") = None)
        as -> by (vm_compute; reflexivity).
      rewrite (replaceAll_eq _ _ consumes_match_datauri).
      assert (match_datauri (lit "data:x,y(http://" ++ u ++ lit ")")
              = Some (lit "(http://" ++ u ++ lit ")"))
        as -> by (vm_compute; reflexivity).
      rewrite (replaceAll_noop match_datauri)
        with (s := lit "(http://" ++ u ++ lit ")");
        [done|apply consumes_match_datauri|].
      intros i. unfold match_datauri. rewrite includes_false; [done|].
      apply includes_app_false.
      * intros j Hj.
        do 8 (destruct j as [|j]; [vm_compute; reflexivity|]).
        simpl in Hj. lia.
      * apply (includes_lacking (cu ":")).
        -- apply (bool_decide_unpack _). vm_compute. exact I.
        -- intros [?|Hin]%elem_of_app; [done|]. revert Hin.
           apply (bool_decide_unpack _). vm_compute. exact I.
    + intros [Hin|[?|Hin]%elem_of_app]%elem_of_app; [|done|];
        revert Hin; apply (bool_decide_unpack _); vm_compute; exact I.
    + change (lit "!data:x,y(http://" ++ u ++ lit ")")
        with (cu "!" :: lit "data:x,y(http://" ++ u ++ lit ")").
      cbn [includes].
      assert (expect_str (lit "![")
                (cu "!" :: lit "data:x,y(http://" ++ u ++ lit ")") = None)
        as -> by (vm_compute; reflexivity).
      apply (includes_lacking (cu "!")).
      * apply (bool_decide_unpack _). vm_compute. exact I.
      * intros [Hin|[?|Hin]%elem_of_app]%elem_of_app; [|done|];
          revert Hin; apply (bool_decide_unpack _); vm_compute; exact I.
  - destruct u as [|c u]; [done|].
    apply not_elem_of_cons in Hparen as [Hc Hparen].
    assert (match_mdimage (lit "![data-uri removed](http://"
                           ++ (c :: u) ++ lit ")")
            = match plus (neqb (cu ")")) ((c :: u) ++ lit ")") with
              | Some r5 => expect_str (lit ")") r5
              | None => None
              end) as -> by (vm_compute; reflexivity).
    assert (plus (neqb (cu ")")) ((c :: u) ++ lit ")") = Some (lit ")"))
      as ->; [|vm_compute; reflexivity].
    unfold plus. cbn [app].
    assert (neqb (cu ")") c = true) as ->.
    { unfold neqb. by apply negb_true_iff, N.eqb_neq. }
    f_equal. change (lit ")") with [cu ")"].
    apply skip_while_stop; [|vm_compute; reflexivity].
    apply forallb_forall. intros x Hx. unfold neqb.
    apply negb_true_iff, N.eqb_neq. intros <-.
    by apply Hparen, list_elem_of_In.
Qed.

Lemma stripDangerous_can_make_image_witness :
  stripDangerous (lit "!data:x,y(http://e.com/p)")
  = lit "![data-uri removed](http://e.com/p)" /\
  match_mdimage (lit "![data-uri removed](http://e.com/p)") = Some [].
Proof.
  assert (lit "e.com/p" <> []) as H0 by discriminate.
  assert (LT ∉ lit "e.com/p") as H1
    by (apply (bool_decide_unpack _); vm_compute; exact I).
  assert (cu "!" ∉ lit "e.com/p") as H2
    by (apply (bool_decide_unpack _); vm_compute; exact I).
  assert (cu ":" ∉ lit "e.com/p") as H3
    by (apply (bool_decide_unpack _); vm_compute; exact I).
  assert (cu ")" ∉ lit "e.com/p") as H4
    by (apply (bool_decide_unpack _); vm_compute; exact I).
  exact (stripDangerous_can_make_image (lit "e.com/p") H0 H1 H2 H3 H4).
Defined.

(** *** No tag in a sanitized text *)

Lemma decimal_no_angle n : (LT ∉ decimal n) /\ (GT ∉ decimal n).
Proof.
  assert (forall d, (LT ∉ lit (NilEmpty.string_of_uint d)) /\
                    (GT ∉ lit (NilEmpty.string_of_uint d))) as Hd.
  { induction d as [|d [IH1 IH2]|d [IH1 IH2]|d [IH1 IH2]|d [IH1 IH2]
                    |d [IH1 IH2]|d [IH1 IH2]|d [IH1 IH2]|d [IH1 IH2]
                    |d [IH1 IH2]|d [IH1 IH2]]; simpl;
      (split; [try apply not_elem_of_nil|try apply not_elem_of_nil]);
      apply not_elem_of_cons; (split; [by vm_compute|done]). }
  unfold decimal. destruct (Z.to_int n) as [d|d]; simpl.
  - destruct d; try apply Hd.
    split; apply not_elem_of_cons; (split; [by vm_compute|]);
      apply not_elem_of_nil.
  - destruct d;
      (split; apply not_elem_of_cons; (split; [by vm_compute|]));
      try apply Hd;
      (apply not_elem_of_cons; (split; [by vm_compute|]));
      apply not_elem_of_nil.
Qed.

Lemma clean_take s : forall n, clean s -> clean (take n s).
Proof.
  induction s as [|c s IH]; intros [|n]; simpl; try done.
  intros [Hc Hs]. split; [|auto]. intros ->.
  destruct (Hc eq_refl) as [Hh|Hn].
  - destruct n as [|n]; [right; apply not_elem_of_nil|left].
    by destruct s.
  - right. intros Hin. apply Hn.
    rewrite <- (take_drop n s). apply elem_of_app. by left.
Qed.

Lemma clean_app_plain s k :
  clean s -> LT ∉ k -> GT ∉ k -> clean (s ++ k).
Proof.
  intros Hs Hl Hg. induction s as [|c s IH]; simpl.
  - rewrite <- (app_nil_r k). by apply clean_app_l.
  - destruct Hs as [Hc Hs]. split; [|auto]. intros ->.
    destruct (Hc eq_refl) as [Hh|Hn].
    + left. by destruct s.
    + right. by intros [?|?]%elem_of_app.
Qed.

Lemma truncation_marker_no_angle n :
  (LT ∉ truncation_marker n) /\ (GT ∉ truncation_marker n).
Proof.
  destruct (decimal_no_angle n) as [H1 H2]. unfold truncation_marker.
  split; intros Hin;
    repeat (apply elem_of_app in Hin as [Hin|Hin]); try done;
    revert Hin; apply (bool_decide_unpack _); vm_compute; exact I.
Qed.

Lemma truncate_clean t maxChars : clean t -> clean (truncate t maxChars).
Proof.
  intros Hc. unfold truncate.
  destruct (Z.of_nat (length t) <=? maxChars); [done|].
  destruct (truncation_marker_no_angle maxChars).
  apply (clean_app_plain _ (truncation_marker maxChars)); [|done|done].
  unfold slice0. by apply clean_take.
Qed.

Lemma prefix_no_angle : LT ∉ SANITIZE_PREFIX.
Proof. apply (bool_decide_unpack _); vm_compute; exact I. Qed.

Lemma image_removed_clean : clean IMAGE_REMOVED.
Proof.
  rewrite <- (app_nil_r IMAGE_REMOVED). apply clean_app_l; [|done].
  apply (bool_decide_unpack _); vm_compute; exact I.
Qed.

Lemma sanitized_clean t maxChars :
  clean (applyTrustToText t sanitize maxChars).
Proof.
  unfold applyTrustToText.
  apply (clean_app_l SANITIZE_PREFIX); [apply prefix_no_angle|].
  apply truncate_clean, stripDangerous_clean.
Qed.

(** X12. Under [sanitize] no text of the result holds a tag: nothing in it
    matches [<[^>]+>], at any position, after the cut to [maxChars], with
    the marker and the prefix in place, be the text made from a text
    block, from a resource or from an image. *)
Theorem sanitized_result_has_no_tag (result : ToolCallResult)
    (maxChars : Z) (i : nat) (t : jsstring) :
  content (applyTrustPolicy result sanitize maxChars) !! i
  = Some (TextBlock t) ->
  forall j, match_tag (drop j t) = None.
Proof.
  rewrite applyTrustPolicy_content, list_lookup_fmap.
  destruct (content result !! i) as [x|]; [|done]. simpl.
  intros [= Ht] j. apply clean_no_tag.
  destruct x as [t0|d mt|r]; unfold pushed in Ht;
    cbn [processBlock last app default] in Ht; injection Ht as <-.
  - apply (sanitized_clean t0).
  - apply image_removed_clean.
  - apply (sanitized_clean (lit "Resource: " ++ uri r ++ [LF]
                            ++ nullish (text r) [])).
Qed.

Lemma sanitized_result_has_no_tag_witness :
  let result := {| content := [TextBlock (lit "<b>hi</b> <i")];
                   isError := false |} in
  content (applyTrustPolicy result sanitize 50) !! 0%nat
  = Some (TextBlock (SANITIZE_PREFIX ++ lit "hi <i")) /\
  match_tag (drop 77 (SANITIZE_PREFIX ++ lit "hi <i")) = None.
Proof.
  intros result.
  assert (content (applyTrustPolicy result sanitize 50) !! 0%nat
          = Some (TextBlock (SANITIZE_PREFIX ++ lit "hi <i"))) as H
    by (vm_compute; reflexivity).
  split; [exact H|].
  exact (sanitized_result_has_no_tag result 50 0 _ H 77%nat).
Defined.

End PolicyFacts.
(* ===================================================================== *)
(** ** client.ts: the counter and the queue                               *)
(* ===================================================================== *)

Module ClientQueueFacts.
Import Client ClientProps.

Lemma count_set_call f c s w :
  (count f (set_call c s w)
   + match calls w !! c with
     | Some o => if f o then 1 else 0
     | None => 0
     end
   = count f w + (if f s then 1 else 0))%nat.
Proof.
  unfold count. simpl.
  assert (forall o, calls w !! c = Some o -> f o = true ->
            size (filter (fun kv => f kv.2 = true) (calls w)) <> 0%nat) as Hpos.
  { intros o Ho Hf H0. apply map_size_empty_inv in H0.
    assert (filter (fun kv => f kv.2 = true) (calls w) !! c = Some o) as H1
      by (by apply map_lookup_filter_Some).
    rewrite H0 in H1. by rewrite lookup_empty in H1. }
  destruct (f s) eqn:Hs.
  - rewrite map_filter_insert_True by done. rewrite map_size_insert.
    destruct (filter (fun kv => f kv.2 = true) (calls w) !! c) as [x|] eqn:E.
    + apply map_lookup_filter_Some in E as [-> E]. simpl in E.
      rewrite E. simpl. lia.
    + apply map_lookup_filter_None in E as [->|E]; [simpl; lia|].
      destruct (calls w !! c) as [o|]; [|simpl; lia].
      specialize (E o eq_refl). simpl in E.
      destruct (f o); [done|simpl; lia].
  - rewrite map_filter_insert_False by (simpl; congruence).
    rewrite map_filter_delete, map_size_delete.
    destruct (filter (fun kv => f kv.2 = true) (calls w) !! c) as [x|] eqn:E.
    + apply map_lookup_filter_Some in E as [E1 E]. simpl in E.
      specialize (Hpos x E1 E). rewrite E1, E. simpl. lia.
    + apply map_lookup_filter_None in E as [->|E]; [simpl; lia|].
      destruct (calls w !! c) as [o|]; [|simpl; lia].
      specialize (E o eq_refl). simpl in E.
      destruct (f o); [done|simpl; lia].
Qed.

Lemma inFlight_count w : inFlight w = count is_InFlight w.
Proof. reflexivity. Qed.

Lemma count_ext f w w' : calls w = calls w' -> count f w = count f w'.
Proof. unfold count. by intros ->. Qed.

Lemma maxConcurrency_pos w : 1 <= maxConcurrency w.
Proof. unfold maxConcurrency. by destruct (transport (config w)). Qed.

(** What the [finally] block of [callTool] does to the counter, the queue
    and the statuses. *)
Lemma callTool_finally_effect w :
  (forall c, c ∈ callQueue w <-> calls w !! c = Some Queued) ->
  NoDup (callQueue w) ->
  let w' := callTool_finally w in
  pendingCalls w' = pendingCalls w - 1 /\
  inFlight w' = inFlight w /\
  (forall c, c ∈ callQueue w' <-> calls w' !! c = Some Queued) /\
  NoDup (callQueue w') /\
  config w' = config w /\ client w' = client w /\
  match callQueue w with
  | [] => woken w' = woken w /\ callQueue w' = [] /\ calls w' = calls w
  | next :: rest =>
      woken w' = S (woken w) /\ callQueue w' = rest /\
      calls w' = <[next := Woken]> (calls w)
  end.
Proof.
  intros Hq Hnd. unfold callTool_finally. simpl.
  destruct (callQueue w) as [|next rest] eqn:E; simpl.
  - rewrite E. by split_and!.
  - assert (calls w !! next = Some Queued) as Hnext
      by (apply Hq; left).
    apply NoDup_cons in Hnd as [Hnotin Hnd].
    pose proof (count_set_call is_InFlight next Woken w) as H1.
    pose proof (count_set_call is_Woken next Woken w) as H2.
    rewrite Hnext in H1, H2. cbn [is_InFlight is_Woken] in H1, H2.
    split_and!; try done.
    + rewrite !inFlight_count.
      rewrite (count_ext _ _ (set_call next Woken w)) by done.
      pose proof (inFlight_count w). lia.
    + intros c. split; intros Hc.
      * destruct (decide (c = next)) as [->|Hne]; [done|].
        rewrite lookup_insert_ne by done. apply Hq. by right.
      * destruct (decide (c = next)) as [->|Hne].
        -- by rewrite lookup_insert_eq in Hc.
        -- rewrite lookup_insert_ne in Hc by done.
           apply Hq in Hc. apply elem_of_cons in Hc as [?|?]; done.
    + unfold woken.
      rewrite (count_ext _ _ (set_call next Woken w)) by done.
      pose proof (inFlight_count w). lia.
Qed.

Lemma Acc_new cfg : Acc (new cfg).
Proof.
  split; simpl.
  - unfold inFlight. simpl. by rewrite map_filter_empty, map_size_empty.
  - intros c. rewrite lookup_empty. split; [by intros ?%elem_of_nil|done].
  - apply NoDup_nil_2.
Qed.

(** What [callTool] does from line 107 on, for an invocation that was
    woken ([old]) or that found a free slot. *)
Lemma callTool_admit_effect c w (old : bool) :
  calls w !! c = (if old then Some Woken else None) ->
  Acc w ->
  let w' := callTool_admit c w in
  Acc w' /\ config w' = config w /\
  match client w with
  | Some _ =>
      inFlight w' = S (inFlight w) /\
      (woken w' + (if old then 1 else 0) = woken w + 0)%nat /\
      callQueue w' = callQueue w
  | None =>
      inFlight w' = inFlight w /\
      (woken w' + (if old then 1 else 0)
       = woken w + match callQueue w with [] => 0 | _ :: _ => 1 end)%nat /\
      callQueue w' = tail (callQueue w)
  end.
Proof.
  intros Hc [Hp Hq Hnd]. unfold callTool_admit. simpl.
  assert (calls w !! c <> Some Queued) as HnQ
    by (rewrite Hc; by destruct old).
  assert (c ∉ callQueue w) as Hnotin by (by rewrite Hq).
  assert (match calls w !! c with
          | Some o => if is_InFlight o then 1%nat else 0%nat
          | None => 0%nat
          end = 0%nat) as HoI
    by (rewrite Hc; by destruct old).
  assert (match calls w !! c with
          | Some o => if is_Woken o then 1%nat else 0%nat
          | None => 0%nat
          end = if old then 1%nat else 0%nat) as HoW
    by (rewrite Hc; by destruct old).
  destruct (client w) eqn:Ecl; simpl.
  - pose proof (count_set_call is_InFlight c InFlight w) as H1.
    pose proof (count_set_call is_Woken c InFlight w) as H2.
    rewrite HoI in H1. rewrite HoW in H2. cbn [is_InFlight is_Woken] in H1, H2.
    assert (inFlight (set_call c InFlight (set_pending (pendingCalls w + 1) w))
            = S (inFlight w)) as HI.
    { rewrite inFlight_count, (count_ext _ _ (set_call c InFlight w)) by done.
      pose proof (inFlight_count w). lia. }
    split_and!; try done.
    split; simpl.
      * rewrite HI, Hp. lia.
      * intros c'. rewrite Hq. destruct (decide (c' = c)) as [->|Hne].
        -- rewrite lookup_insert_eq. split; [done|congruence].
        -- by rewrite lookup_insert_ne.
      * done.
  - destruct (callTool_finally_effect (set_pending (pendingCalls w + 1) w))
      as (Fp & FI & Fq & Fnd & Fcfg & Fcl & Fshape); [done|done|].
    set (w1 := callTool_finally (set_pending (pendingCalls w + 1) w)) in *.
    assert (calls w1 !! c = calls w !! c) as Hc1.
    { simpl in Fshape. destruct (callQueue w) as [|next rest] eqn:E.
      - destruct Fshape as (_ & _ & ->). done.
      - destruct Fshape as (_ & _ & ->). simpl.
        rewrite lookup_insert_ne; [done|].
        intros <-. apply Hnotin. left. }
    pose proof (count_set_call is_InFlight c (Threw NullClient) w1) as H1.
    pose proof (count_set_call is_Woken c (Threw NullClient) w1) as H2.
    rewrite Hc1, HoI in H1. rewrite Hc1, HoW in H2.
    cbn [is_InFlight is_Woken] in H1, H2.
    assert (inFlight (set_call c (Threw NullClient) w1) = inFlight w) as HI.
    { rewrite inFlight_count. pose proof (inFlight_count w1).
      change (inFlight (set_pending (pendingCalls w + 1) w))
        with (inFlight w) in FI. lia. }
    assert (c ∉ callQueue w1) as Hnotin1.
    { rewrite Fq, Hc1. done. }
    split_and!; try done.
    + split; simpl.
      * rewrite HI, Fp. simpl. lia.
      * intros c'. rewrite Fq. destruct (decide (c' = c)) as [->|Hne].
        -- rewrite lookup_insert_eq, Hc1. split; [done|congruence].
        -- by rewrite lookup_insert_ne.
      * done.
    + change (woken (set_call c (Threw NullClient) w1))
        with (count is_Woken (set_call c (Threw NullClient) w1)).
      simpl in Fshape. unfold woken in *.
      change (count is_Woken (set_pending (pendingCalls w + 1) w))
        with (count is_Woken w) in Fshape.
      destruct (callQueue w); destruct Fshape as (Fw & _ & _);
        destruct old; simpl in *; lia.
    + simpl in Fshape.
      destruct (callQueue w); by destruct Fshape as (_ & -> & _).
Qed.

(** One stretch of code other than the [finally] block of [disconnect]:
    the accounting is kept, somebody is left to wake the queue, and the
    ceiling is kept by every stretch but a call of [callTool] that arrives
    while a woken invocation has still to go on. *)
Lemma step_Acc w l w' :
  step w l = Some w' -> is_close l = false -> Acc w -> Prog w ->
  Acc w' /\ Prog w' /\ config w' = config w /\
  (match l with LCallTool _ => woken w = 0%nat | _ => True end ->
   Ceil w -> Ceil w').
Proof.
  intros Hstep Hl HA HP. pose proof (maxConcurrency_pos w) as Hmax.
  destruct l as [| s ok | | | c | c | c r]; simpl in Hstep; try done.
  - injection Hstep as <-. unfold connect. destruct (client w); [done|].
    split_and!; try done. by destruct HA.
  - case_bool_decide; [|done]. injection Hstep as <-.
    split_and!; try done. by destruct HA.
  - injection Hstep as <-. unfold disconnect. destruct (client w); [|done].
    split_and!; try done. by destruct HA.
  - destruct (calls w !! c) eqn:Ec; [done|]. injection Hstep as <-.
    unfold callTool. destruct (client w) eqn:Ecl.
    + destruct (pendingCalls w >=? maxConcurrency w) eqn:Eg.
      * destruct HA as [Hp Hq Hnd].
        assert (c ∉ callQueue w) as Hnotin by (rewrite Hq, Ec; done).
        pose proof (count_set_call is_InFlight c Queued w) as H1.
        pose proof (count_set_call is_Woken c Queued w) as H2.
        rewrite Ec in H1, H2. cbn [is_InFlight is_Woken] in H1, H2.
        assert (inFlight (set_call c Queued (set_queue (callQueue w ++ [c]) w))
                = inFlight w) as HI.
        { rewrite inFlight_count, (count_ext _ _ (set_call c Queued w))
            by done. pose proof (inFlight_count w). lia. }
        assert (woken (set_call c Queued (set_queue (callQueue w ++ [c]) w))
                = woken w) as HW.
        { unfold woken. rewrite (count_ext _ _ (set_call c Queued w))
            by done. lia. }
        split_and!; try done.
        -- split; simpl.
           ++ by rewrite HI.
           ++ intros c'. rewrite elem_of_app, list_elem_of_singleton, Hq.
              destruct (decide (c' = c)) as [->|Hne].
              ** rewrite lookup_insert_eq. split; [done|by right].
              ** rewrite lookup_insert_ne by done. split; [|by left].
                 by intros [?|?].
           ++ apply NoDup_app. split_and!; [done| |apply NoDup_singleton].
              intros x Hx ->%list_elem_of_singleton. done.
        -- intros _. rewrite HI, HW.
           apply Z.geb_le in Eg. rewrite Hp in Eg. lia.
        -- intros _. unfold Ceil. by rewrite HI, HW.
      * destruct (callTool_admit_effect c w false Ec HA) as (HA' & Hcfg & Hsh).
        rewrite Ecl in Hsh. destruct Hsh as (HI & HW & HQ).
        split_and!; try done.
        -- intros _. rewrite HI. lia.
        -- intros H0 HC. unfold Ceil, maxConcurrency in *. rewrite Hcfg, HI.
           destruct HA as [Hp _ _].
           assert (pendingCalls w
                   < default 4 (CONCURRENCY (transport (config w)))) by lia.
           lia.
    + destruct HA as [Hp Hq Hnd].
      pose proof (count_set_call is_InFlight c (Threw NotConnected) w) as H1.
      pose proof (count_set_call is_Woken c (Threw NotConnected) w) as H2.
      rewrite Ec in H1, H2. cbn [is_InFlight is_Woken] in H1, H2.
      assert (inFlight (set_call c (Threw NotConnected) w) = inFlight w) as HI.
      { rewrite inFlight_count. pose proof (inFlight_count w). lia. }
      assert (woken (set_call c (Threw NotConnected) w) = woken w) as HW.
      { unfold woken. lia. }
      split_and!; try done.
      * split; simpl.
        -- by rewrite HI.
        -- intros c'. rewrite Hq. destruct (decide (c' = c)) as [->|Hne].
           ++ rewrite lookup_insert_eq, Ec. split; done.
           ++ by rewrite lookup_insert_ne.
        -- done.
      * intros Hne. rewrite HI, HW. by apply HP.
      * intros _. unfold Ceil. by rewrite HI, HW.
  - destruct (calls w !! c) as [[]|] eqn:Ec; try done.
    injection Hstep as <-.
    destruct (callTool_admit_effect c w true Ec HA) as (HA' & Hcfg & Hsh).
    assert (0 < woken w)%nat as Hw1.
    { pose proof (count_set_call is_Woken c Queued w) as H2.
      rewrite Ec in H2. cbn [is_Woken] in H2. unfold woken. lia. }
    destruct (client w) eqn:Ecl.
    + destruct Hsh as (HI & HW & HQ). split_and!; try done.
      * intros _. rewrite HI. lia.
      * intros _ HC. unfold Ceil, maxConcurrency in *. rewrite Hcfg. lia.
    + destruct Hsh as (HI & HW & HQ). split_and!; try done.
      * intros Hne. rewrite HQ in Hne.
        destruct (callQueue w) as [|x q]; [done|]. lia.
      * intros _ HC. unfold Ceil, maxConcurrency in *. rewrite Hcfg.
        destruct (callQueue w); lia.
  - destruct (calls w !! c) as [[]|] eqn:Ec; try done.
    injection Hstep as <-.
    destruct HA as [Hp Hq Hnd].
    destruct (callTool_finally_effect w Hq Hnd)
      as (Fp & FI & Fq & Fnd & Fcfg & Fcl & Fshape).
    set (w1 := callTool_finally w) in *.
    assert (c ∉ callQueue w) as Hnotin by (rewrite Hq, Ec; done).
    assert (calls w1 !! c = Some InFlight) as Hc1.
    { destruct (callQueue w) as [|next rest] eqn:E.
      - by destruct Fshape as (_ & _ & ->).
      - destruct Fshape as (_ & _ & ->).
        rewrite lookup_insert_ne; [done|]. intros <-. apply Hnotin. left. }
    assert (exists x, callTool_settled c r w = set_call c x w1 /\
                      is_InFlight x = false /\ is_Woken x = false /\
                      x <> Queued) as (x & -> & Hx1 & Hx2 & Hx3).
    { unfold callTool_settled. fold w1. destruct r; eexists; done. }
    pose proof (count_set_call is_InFlight c x w1) as H1.
    pose proof (count_set_call is_Woken c x w1) as H2.
    rewrite Hc1, Hx1 in H1. rewrite Hc1, Hx2 in H2.
    cbn [is_InFlight is_Woken] in H1, H2.
    pose proof (inFlight_count w1) as E1.
    pose proof (inFlight_count (set_call c x w1)) as E2.
    assert (woken (set_call c x w1) = woken w1) as HW by (unfold woken; lia).
    split_and!; try done.
    + split; simpl.
      * rewrite Fp. lia.
      * intros c'. rewrite Fq. destruct (decide (c' = c)) as [->|Hne].
        -- rewrite lookup_insert_eq, Hc1. split; [done|congruence].
        -- by rewrite lookup_insert_ne.
      * done.
    + intros Hne. simpl in Hne. rewrite HW.
      destruct (callQueue w) as [|next rest]; destruct Fshape as (Fw & Fe & _);
        [by rewrite Fe in Hne|]. lia.
    + intros _ HC. unfold Ceil, maxConcurrency in *. simpl. rewrite Fcfg, HW.
      destruct (callQueue w) as [|next rest]; destruct Fshape as (Fw & _ & _);
        lia.
Qed.

Lemma exec_Acc ls : forall w w',
  exec w ls = Some w' -> no_close ls = true -> Acc w -> Prog w ->
  Acc w' /\ Prog w' /\ config w' = config w /\
  (calm w ls = true -> Ceil w -> Ceil w').
Proof.
  induction ls as [|l ls IH]; intros w w'; simpl.
  - intros [= <-] _ HA HP. done.
  - destruct (step w l) as [w1|] eqn:E; [|done].
    intros Hex [Hl Hls]%andb_prop HA HP.
    apply negb_true_iff in Hl.
    destruct (step_Acc _ _ _ E Hl HA HP) as (HA1 & HP1 & Hcfg1 & HC1).
    destruct (IH _ _ Hex Hls HA1 HP1) as (HA' & HP' & Hcfg' & HC').
    split_and!; try done; [congruence|].
    intros [H1 H2]%andb_prop HC. apply HC'; [done|]. apply HC1; [|done].
    destruct l; try done. by apply Nat.eqb_eq.
Qed.

Lemma Prog_new cfg : Prog (new cfg).
Proof. by intros H. Qed.

Lemma Ceil_new cfg : Ceil (new cfg).
Proof.
  unfold Ceil, woken, count, inFlight. simpl.
  rewrite !map_filter_empty, map_size_empty.
  pose proof (maxConcurrency_pos (new cfg)). simpl. lia.
Qed.

(** X1. As long as no [disconnect] completes, the counter is the number of
    calls in flight, so it is never negative, and the queue holds, once
    each, exactly the invocations that wait for a slot. *)
Theorem pendingCalls_counts_in_flight (cfg : McpServerConfig)
    (ls : list Label) (w : McpClientWrapper) :
  exec (new cfg) ls = Some w -> no_close ls = true ->
  pendingCalls w = Z.of_nat (inFlight w) /\
  (forall c, c ∈ callQueue w <-> calls w !! c = Some Queued) /\
  NoDup (callQueue w).
Proof.
  intros Hex Hnc.
  destruct (exec_Acc ls _ _ Hex Hnc (Acc_new cfg) (Prog_new cfg))
    as ([Hp Hq Hnd] & _). done.
Qed.

Lemma pendingCalls_counts_in_flight_witness :
  exists w,
    exec (new Props.stdio_config)
         [LConnect; LConnectSettled 0 true; LCallTool 1; LCallTool 2;
          LCallSettled 1 (SdkOk None None); LCallTool 3; LResume 2]
    = Some w /\
    pendingCalls w = 2 /\
    pendingCalls w = Z.of_nat (inFlight w) /\
    (forall c, c ∈ callQueue w <-> calls w !! c = Some Queued) /\
    NoDup (callQueue w).
Proof.
  eexists. split; [vm_compute; reflexivity|]. split; [reflexivity|].
  apply (pendingCalls_counts_in_flight Props.stdio_config
           [LConnect; LConnectSettled 0 true; LCallTool 1; LCallTool 2;
            LCallSettled 1 (SdkOk None None); LCallTool 3; LResume 2]);
    [vm_compute; reflexivity|reflexivity].
Defined.

(** X4. As long as no [disconnect] completes, an invocation in the queue is
    never left alone: a call is in flight, whose [finally] block will
    wake the head of the queue, or a woken invocation has still to go
    on. *)
Theorem callQueue_never_stranded (cfg : McpServerConfig)
    (ls : list Label) (w : McpClientWrapper) :
  exec (new cfg) ls = Some w -> no_close ls = true ->
  callQueue w <> [] -> (0 < inFlight w + woken w)%nat.
Proof.
  intros Hex Hnc.
  destruct (exec_Acc ls _ _ Hex Hnc (Acc_new cfg) (Prog_new cfg))
    as (_ & HP & _). exact HP.
Qed.

Lemma callQueue_never_stranded_witness :
  exists w,
    exec (new Props.stdio_config)
         [LConnect; LConnectSettled 0 true; LCallTool 1; LCallTool 2]
    = Some w /\
    callQueue w = [2%nat] /\ (0 < inFlight w + woken w)%nat.
Proof.
  eexists. split; [vm_compute; reflexivity|]. split; [reflexivity|].
  apply (callQueue_never_stranded Props.stdio_config
           [LConnect; LConnectSettled 0 true; LCallTool 1; LCallTool 2]);
    [vm_compute; reflexivity|reflexivity|discriminate].
Defined.

(** X2. The ceiling holds on the runs in which no [disconnect] completes and
    [callTool] is never called between the moment an invocation is woken
    and the moment it goes on: the calls in flight, together with the
    woken invocations, are at most [maxConcurrency]. *)
Theorem callTool_ceiling_when_calm (cfg : McpServerConfig)
    (ls : list Label) (w : McpClientWrapper) :
  exec (new cfg) ls = Some w -> no_close ls = true ->
  calm (new cfg) ls = true ->
  Z.of_nat (inFlight w + woken w) <= maxConcurrency w /\
  maxConcurrency w = default 4 (CONCURRENCY (transport cfg)).
Proof.
  intros Hex Hnc Hcalm.
  destruct (exec_Acc ls _ _ Hex Hnc (Acc_new cfg) (Prog_new cfg))
    as (_ & _ & Hcfg & HC).
  split; [exact (HC Hcalm (Ceil_new cfg))|].
  unfold maxConcurrency. by rewrite Hcfg.
Qed.

Lemma callTool_ceiling_when_calm_witness :
  exists w,
    exec (new Props.stdio_config)
         [LConnect; LConnectSettled 0 true; LCallTool 1; LCallTool 2;
          LCallSettled 1 (SdkOk None None); LResume 2; LCallTool 3]
    = Some w /\
    callQueue w = [3%nat] /\
    Z.of_nat (inFlight w + woken w) <= maxConcurrency w /\
    maxConcurrency w = 1.
Proof.
  eexists. split; [vm_compute; reflexivity|]. split; [reflexivity|].
  apply (callTool_ceiling_when_calm Props.stdio_config
           [LConnect; LConnectSettled 0 true; LCallTool 1; LCallTool 2;
            LCallSettled 1 (SdkOk None None); LResume 2; LCallTool 3]);
    [vm_compute; reflexivity|reflexivity|vm_compute; reflexivity].
Defined.

(** *** The order of the queue *)

Lemma before_tail c1 c2 next rest :
  next <> c1 -> before c1 c2 (next :: rest) -> before c1 c2 rest.
Proof.
  intros Hne (q1 & q2 & q3 & E). destruct q1 as [|x q1]; simpl in E.
  - congruence.
  - injection E as _ ->. by exists q1, q2, q3.
Qed.

Lemma before_snoc c1 c2 q c : before c1 c2 q -> before c1 c2 (q ++ [c]).
Proof.
  intros (q1 & q2 & q3 & ->). exists q1, q2, (q3 ++ [c]).
  by rewrite <- !app_assoc, <- !app_comm_cons, <- app_assoc.
Qed.

Lemma Stay_set_call c1 c2 c x w :
  c <> c1 \/ x <> Queued -> Stay c1 c2 w -> Stay c1 c2 (set_call c x w).
Proof.
  intros Hcx [Hs Hb]. unfold Stay. simpl.
  destruct (decide (c = c1)) as [->|Hne].
  - rewrite lookup_insert_eq. split; [done|]. intros [= ->]. by destruct Hcx.
  - by rewrite lookup_insert_ne.
Qed.

Lemma Stay_finally c1 c2 w :
  Stay c1 c2 w -> Stay c1 c2 (callTool_finally w).
Proof.
  intros [Hs Hb]. unfold callTool_finally. simpl.
  destruct (callQueue w) as [|next rest] eqn:E; simpl.
  - unfold Stay. simpl. by rewrite E.
  - unfold Stay. simpl. destruct (decide (next = c1)) as [->|Hne].
    + rewrite lookup_insert_eq. done.
    + rewrite lookup_insert_ne by done. split; [done|].
      intros H. eapply before_tail; eauto.
Qed.

Lemma Stay_admit c1 c2 c w :
  calls w !! c <> Some Queued -> Stay c1 c2 w ->
  Stay c1 c2 (callTool_admit c w).
Proof.
  intros Hc HS. unfold callTool_admit. simpl.
  assert (c <> c1 \/ calls w !! c1 <> Some Queued) as Hcase.
  { destruct (decide (c = c1)) as [->|]; [by right|by left]. }
  destruct (client w).
  - destruct Hcase as [Hne|Hnq].
    + apply Stay_set_call; [by left|done].
    + apply Stay_set_call; [by right|done].
  - apply Stay_set_call; [by right|].
    by apply (Stay_finally c1 c2 (set_pending (pendingCalls w + 1) w)).
Qed.

Lemma step_Stay c1 c2 w l w' :
  step w l = Some w' -> is_close l = false ->
  Stay c1 c2 w -> Stay c1 c2 w'.
Proof.
  intros Hstep Hl HS.
  destruct l as [| s ok | | | c | c | c r]; simpl in Hstep; try done.
  - injection Hstep as <-. unfold connect. by destruct (client w).
  - case_bool_decide; [|done]. by injection Hstep as <-.
  - injection Hstep as <-. unfold disconnect. by destruct (client w).
  - destruct (calls w !! c) eqn:Ec; [done|]. injection Hstep as <-.
    assert (c <> c1) as Hne.
    { intros ->. destruct HS as [[? Hs] _]. congruence. }
    unfold callTool. destruct (client w).
    + destruct (pendingCalls w >=? maxConcurrency w).
      * apply Stay_set_call; [by left|]. destruct HS as [Hs Hb].
        split; [done|]. simpl. intros H. by apply before_snoc, Hb.
      * apply Stay_admit; [by rewrite Ec|done].
    + apply Stay_set_call; [by left|done].
  - destruct (calls w !! c) as [[]|] eqn:Ec; try done.
    injection Hstep as <-. apply Stay_admit; [by rewrite Ec|done].
  - destruct (calls w !! c) as [[]|] eqn:Ec; try done.
    injection Hstep as <-. unfold callTool_settled.
    destruct r; (apply Stay_set_call; [by right|by apply Stay_finally]).
Qed.

Lemma exec_Stay c1 c2 ls : forall w w',
  exec w ls = Some w' -> no_close ls = true ->
  Stay c1 c2 w -> Stay c1 c2 w'.
Proof.
  induction ls as [|l ls IH]; intros w w'; simpl.
  - by intros [= <-].
  - destruct (step w l) as [w1|] eqn:E; [|done].
    intros Hex [Hl Hls]%andb_prop HS. apply negb_true_iff in Hl.
    eauto using step_Stay.
Qed.

Lemma no_close_app ls1 ls2 :
  no_close (ls1 ++ ls2) = true ->
  no_close ls1 = true /\ no_close ls2 = true.
Proof. unfold no_close. rewrite forallb_app. apply andb_prop. Qed.

(** X3. The queue is first in, first out: as long as no [disconnect]
    completes, of two invocations in the queue the later one is not woken
    before the earlier one. *)
Theorem callQueue_fifo (cfg : McpServerConfig) (ls0 ls1 : list Label)
    (w w' : McpClientWrapper) (c1 c2 : nat) :
  exec (new cfg) ls0 = Some w -> exec w ls1 = Some w' ->
  no_close (ls0 ++ ls1) = true ->
  before c1 c2 (callQueue w) ->
  calls w' !! c1 = Some Queued -> calls w' !! c2 = Some Queued.
Proof.
  intros Hex0 Hex1 [Hn0 Hn1]%no_close_app Hb Hc1.
  destruct (exec_Acc ls0 _ _ Hex0 Hn0 (Acc_new cfg) (Prog_new cfg))
    as (HA & HP & _).
  destruct (exec_Acc ls1 _ _ Hex1 Hn1 HA HP) as ([_ Hq' _] & _).
  assert (Stay c1 c2 w) as HS.
  { destruct HA as [_ Hq _]. split; [|done].
    exists Queued. apply Hq. destruct Hb as (q1 & q2 & q3 & ->).
    apply elem_of_app. right. left. }
  destruct (exec_Stay c1 c2 ls1 _ _ Hex1 Hn1 HS) as [_ Hb'].
  destruct (Hb' Hc1) as (q1 & q2 & q3 & E).
  apply Hq'. rewrite E. apply elem_of_app. right. right.
  apply elem_of_app. right. left.
Qed.

Lemma callQueue_fifo_witness :
  exists w w',
    exec (new Props.stdio_config)
         [LConnect; LConnectSettled 0 true; LCallTool 1; LCallTool 2;
          LCallTool 3] = Some w /\
    callQueue w = [2%nat; 3%nat] /\
    exec w [LCallTool 4] = Some w' /\
    calls w' !! 2%nat = Some Queued /\ calls w' !! 3%nat = Some Queued.
Proof.
  eexists _, _. split; [vm_compute; reflexivity|]. split; [reflexivity|].
  split; [vm_compute; reflexivity|]. split; [vm_compute; reflexivity|].
  eapply (callQueue_fifo Props.stdio_config
           [LConnect; LConnectSettled 0 true; LCallTool 1; LCallTool 2;
            LCallTool 3] [LCallTool 4] _ _ 2%nat 3%nat);
    [vm_compute; reflexivity|vm_compute; reflexivity|reflexivity
    |by exists [], [], []|vm_compute; reflexivity].
Defined.

End ClientQueueFacts.
(* ===================================================================== *)
(** ** manager.ts: the servers and their fields                           *)
(* ===================================================================== *)

Module ServerFacts.
Import Props Manager ManagerFacts ManagerProps.

Lemma identity_alter (f : ManagedServer -> ManagedServer) nm
    (ss : gmap string ManagedServer) :
  (forall s, identity (f s) = identity s) ->
  identity <$> alter f nm ss = identity <$> ss.
Proof.
  intros Hf. apply map_eq. intros k. rewrite !lookup_fmap.
  destruct (decide (nm = k)) as [->|Hne].
  - rewrite lookup_alter_eq. destruct (ss !! k); simpl; [|done].
    by rewrite Hf.
  - by rewrite lookup_alter_ne.
Qed.

Lemma identity_loop_exit p t m :
  identity <$> servers (loop_exit p t m) = identity <$> servers m /\
  mconfig (loop_exit p t m) = mconfig m.
Proof. unfold loop_exit. simpl. by rewrite identity_alter. Qed.

Lemma identity_loop_head p t m :
  identity <$> servers (loop_head p t m) = identity <$> servers m /\
  mconfig (loop_head p t m) = mconfig m.
Proof.
  unfold loop_head. destruct (attempt t <=? dc_retries t)%nat.
  - simpl. by rewrite identity_alter.
  - apply identity_loop_exit.
Qed.

Lemma identity_catch_block p t e m :
  identity <$> servers (catch_block p t e m) = identity <$> servers m /\
  mconfig (catch_block p t e m) = mconfig m.
Proof.
  unfold catch_block. destruct (attempt t <? dc_retries t)%nat; [done|].
  exact (identity_loop_head _ _ (add_log (LogFailed (dc_server t) e) m)).
Qed.

Lemma identity_connectServer c nm m :
  identity <$> servers (connectServer c nm m) = identity <$> servers m /\
  mconfig (connectServer c nm m) = mconfig m.
Proof.
  unfold connectServer. destruct (servers m !! nm) as [s|]; [|done].
  destruct (state s); try done;
    (destruct (connectPromise s); [done|];
     cbn [servers mconfig set_caller upd_servers];
     rewrite identity_alter by done; unfold doConnect;
     exact (identity_loop_head _ _ (upd_doConnects _ m))).
Qed.

Lemma identity_disconnect_finish nm m :
  identity <$> servers (disconnect_finish nm m) = identity <$> servers m /\
  mconfig (disconnect_finish nm m) = mconfig m.
Proof. unfold disconnect_finish. simpl. by rewrite identity_alter. Qed.

Lemma step_identity m l m' :
  step m l = Some m' ->
  identity <$> servers m' = identity <$> servers m /\
  mconfig m' = mconfig m.
Proof.
  intros Hstep.
  destruct l as [c nm|p r|p r now|p|c|d nm|d|w msg]; simpl in Hstep.
  - destruct (callers m !! c); [done|]. injection Hstep as <-.
    apply identity_connectServer.
  - destruct (doConnects m !! p) as [[t|]|]; try done.
    destruct (pc t), r; try done; injection Hstep as <-; [done|].
    apply identity_catch_block.
  - destruct (doConnects m !! p) as [[t|]|]; try done.
    destruct (pc t), r; try done; injection Hstep as <-.
    + simpl. by rewrite identity_alter.
    + apply identity_catch_block.
  - destruct (doConnects m !! p) as [[t|]|]; try done.
    destruct (pc t); try done; injection Hstep as <-.
    apply identity_loop_head.
  - destruct (callers m !! c) as [[q|nm q|]|]; try done;
      destruct (doConnects m !! q) as [[|r]|]; try done;
      injection Hstep as <-; simpl; [done|].
    by rewrite identity_alter.
  - destruct (disconnecting m !! d); [done|]. injection Hstep as <-.
    unfold disconnectServer. destruct (servers m !! nm) as [s|]; [|done].
    destruct (_wrapper s); [done|]. apply identity_disconnect_finish.
  - destruct (disconnecting m !! d); [|done]. injection Hstep as <-.
    apply (identity_disconnect_finish _ (upd_disconnecting (delete d) m)).
  - destruct (wrappers m !! w); [|done]. injection Hstep as <-.
    unfold onError. simpl. by rewrite identity_alter.
Qed.

Lemma exec_identity ls : forall m m',
  exec m ls = Some m' ->
  identity <$> servers m' = identity <$> servers m /\
  mconfig m' = mconfig m.
Proof.
  induction ls as [|l ls IH]; intros m m'; simpl.
  - by intros [= <-].
  - destruct (step m l) as [m1|] eqn:E; [|done]. intros Hex.
    destruct (step_identity _ _ _ E) as [H1 H2].
    destruct (IH _ _ Hex) as [H3 H4]. split; congruence.
Qed.

Lemma identity_new cfg nm :
  identity <$> servers (new cfg) !! nm
  = (fun c => (nm, c)) <$> configured cfg nm.
Proof.
  simpl. unfold initializeServers, configured.
  rewrite map_lookup_imap.
  destruct (config_servers cfg !! nm) as [c|]; simpl; [|done].
  by destruct (enabled c).
Qed.

Lemma reachable_servers cfg ls m nm :
  exec (new cfg) ls = Some m ->
  identity <$> servers m !! nm = (fun c => (nm, c)) <$> configured cfg nm.
Proof.
  intros Hex. destruct (exec_identity _ _ _ Hex) as [Hid Hcfg].
  rewrite <- identity_new, <- !lookup_fmap. by rewrite Hid.
Qed.

(** X5. The manager never adds, removes or renames a server: in every state
    the servers are the enabled entries of the configuration, each under
    the key of its entry, with that key as its name and that entry as its
    configuration. *)
Theorem servers_are_enabled_entries (cfg : McpPluginConfig)
    (ls : list Label) (m : McpServerManager) (nm : string) :
  exec (new cfg) ls = Some m ->
  mconfig m = cfg /\
  match servers m !! nm with
  | Some s => name s = nm /\ config_servers cfg !! nm = Some (config s) /\
              enabled (config s) = true
  | None => forall c, config_servers cfg !! nm = Some c -> enabled c = false
  end.
Proof.
  intros Hex. destruct (exec_identity _ _ _ Hex) as [Hid Hcfg].
  split; [done|].
  pose proof (reachable_servers _ _ _ nm Hex) as H.
  unfold configured in H.
  destruct (servers m !! nm) as [s|]; simpl in H.
  - destruct (config_servers cfg !! nm) as [c|]; [|done].
    destruct (enabled c) eqn:Een; [|done]. simpl in H.
    injection H as H1 H2. by subst c.
  - intros c Hc. rewrite Hc in H. by destruct (enabled c).
Qed.

Lemma servers_are_enabled_entries_witness :
  exists m,
    exec (new web_config)
         [LConnectServer 0 "web"; LConnectSettled 0 (Rejected "ENOENT")]
    = Some m /\
    mconfig m = web_config /\
    match servers m !! "web"%string with
    | Some s => name s = "web"%string /\
                config_servers web_config !! "web"%string = Some (config s) /\
                enabled (config s) = true
    | None => forall c, config_servers web_config !! "web"%string = Some c ->
                        enabled c = false
    end.
Proof.
  eexists. split; [vm_compute; reflexivity|].
  apply (servers_are_enabled_entries web_config
           [LConnectServer 0 "web"; LConnectSettled 0 (Rejected "ENOENT")]).
  vm_compute; reflexivity.
Defined.

(** X6. A name that is not the key of an enabled entry, be it missing or
    disabled: [connectServer] rejects with the unknown-server error and
    does nothing else, and [disconnectServer] does nothing at all. *)
Theorem unknown_server_is_rejected (cfg : McpPluginConfig)
    (ls : list Label) (m : McpServerManager) (nm : string) (c d : nat) :
  exec (new cfg) ls = Some m -> configured cfg nm = None ->
  connectServer c nm m
  = set_caller c (Finished (Rejected ("Unknown MCP server: " +:+ nm))) m /\
  disconnectServer d nm m = m.
Proof.
  intros Hex Hnone. pose proof (reachable_servers _ _ _ nm Hex) as H.
  rewrite Hnone in H. unfold connectServer, disconnectServer.
  by destruct (servers m !! nm).
Qed.

Lemma unknown_server_is_rejected_witness :
  exists m,
    exec (new web_config) [LConnectServer 0 "web"] = Some m /\
    configured web_config "files" = None /\
    connectServer 1 "files" m
    = set_caller 1 (Finished (Rejected "Unknown MCP server: files")) m /\
    disconnectServer 2 "files" m = m.
Proof.
  eexists. split; [vm_compute; reflexivity|]. split; [reflexivity|].
  apply (unknown_server_is_rejected web_config [LConnectServer 0 "web"]);
    [vm_compute; reflexivity|reflexivity].
Defined.

(** *** The fields of a server agree *)

Lemma Coherent_wrappers m m' nm s :
  (forall w x, wrappers m !! w = Some x -> wrappers m' !! w = Some x) ->
  Coherent m nm s -> Coherent m' nm s.
Proof. intros Hw [H1 H2 H3 H4]. split; eauto. Qed.

(** Fields that coherence does not read. *)
Lemma CohInv_ext p0 m m' :
  servers m' = servers m -> wrappers m' = wrappers m ->
  doConnects m' = doConnects m -> CohInv p0 m -> CohInv p0 m'.
Proof.
  intros Hs Hw Hd [H1 H2]. split.
  - intros nm s. rewrite Hs. intros H.
    eapply Coherent_wrappers; [|by apply H1]. by rewrite Hw.
  - intros p t Hp. rewrite Hd, Hw. by apply (H2 p t).
Qed.

Lemma CohInv_weaken p0 m : CohInv None m -> CohInv p0 m.
Proof. intros [H1 H2]. split; [done|]. intros p t _. by apply (H2 p t). Qed.

Lemma CohInv_add_wrapper p0 x m : CohInv p0 m -> CohInv p0 (add_wrapper x m).
Proof.
  intros [H1 H2]. split; simpl.
  - intros nm s H. eapply Coherent_wrappers; [|by apply H1].
    intros w y. simpl. apply lookup_app_l_Some.
  - intros p t Hp H. apply lookup_app_l_Some. by apply (H2 p t).
Qed.

Lemma CohInv_alter p0 m nm f :
  (forall s, servers m !! nm = Some s -> Coherent m nm s ->
             Coherent m nm (f s)) ->
  CohInv p0 m -> CohInv p0 (upd_servers (alter f nm) m).
Proof.
  intros Hf [H1 H2]. split; simpl; [|done].
  intros nm' s [[<- (x & Hx & ->)]|[_ H]]%lookup_alter_Some.
  - eapply (Coherent_wrappers m); [done|]. eauto.
  - eapply (Coherent_wrappers m); [done|]. eauto.
Qed.

(** A promise settles, or its [doConnect] goes on with a wrapper that was
    constructed for its server. *)
Lemma CohInv_set_promise p0 m p x :
  p0 = None \/ p0 = Some p ->
  (forall t, x = Running t ->
             wrappers m !! dc_client t = Some (dc_server t)) ->
  CohInv p0 m -> CohInv None (upd_doConnects (<[p := x]>) m).
Proof.
  intros Hp0 Hx [H1 H2]. split; simpl.
  { intros nm s Hs. eapply Coherent_wrappers; [|by apply H1]. done. }
  intros q t _ [(-> & -> & _)|[Hne Hq]]%list_lookup_insert_Some.
  - by apply Hx.
  - apply (H2 q t); [|done]. destruct Hp0 as [->| ->]; congruence.
Qed.

Lemma Coherent_setState m nm s st e :
  st <> connected -> state s <> connected ->
  Coherent m nm s -> Coherent m nm (setState s st e).
Proof.
  intros Hst Hs [H1 H2 H3 H4]. split; simpl; try done.
  split; [|done]. intros Hw. by apply H1 in Hw.
Qed.

Lemma CohInv_loop_exit p0 p t m :
  p0 = None \/ p0 = Some p ->
  (forall s, servers m !! dc_server t = Some s -> state s <> connected) ->
  CohInv p0 m -> CohInv None (loop_exit p t m).
Proof.
  intros Hp0 Hst HC. unfold loop_exit.
  apply (CohInv_set_promise p0); [done|done|].
  apply CohInv_alter; [|done].
  intros s Hs. apply Coherent_setState; [done|by apply Hst].
Qed.

Lemma CohInv_loop_head p0 p t m :
  p0 = None \/ p0 = Some p ->
  (forall s, servers m !! dc_server t = Some s -> state s <> connected) ->
  CohInv p0 m -> CohInv None (loop_head p t m).
Proof.
  intros Hp0 Hst HC. unfold loop_head.
  destruct (attempt t <=? dc_retries t)%nat; [|by apply (CohInv_loop_exit p0)].
  apply (CohInv_set_promise p0); [done| |].
  - intros t' [= <-]. simpl. by apply list_lookup_middle.
  - apply CohInv_add_wrapper.
    apply (CohInv_ext _ (upd_servers
                           (alter (fun s => setState s connecting None)
                                  (dc_server t)) m)); try done.
    apply CohInv_alter; [|done].
    intros s Hs. apply Coherent_setState; [done|by apply Hst].
Qed.

Lemma CohInv_catch_block p t e m :
  doConnects m !! p = Some (Running t) ->
  (forall s, servers m !! dc_server t = Some s -> state s <> connected) ->
  CohInv None m -> CohInv None (catch_block p t e m).
Proof.
  intros Hp Hst HC. unfold catch_block.
  destruct (attempt t <? dc_retries t)%nat.
  - apply (CohInv_set_promise None); [by left| |].
    + intros t' [= <-]. simpl. destruct HC as [_ H2]. by apply (H2 p t).
    + by apply (CohInv_ext _ m).
  - apply (CohInv_loop_head None); [by left|done|].
    by apply (CohInv_ext _ m).
Qed.

Lemma CohInv_disconnect_finish nm m :
  CohInv None m -> CohInv None (disconnect_finish nm m).
Proof.
  intros HC. unfold disconnect_finish.
  apply (CohInv_ext _ (upd_servers (alter clear_server nm) m)); try done.
  apply CohInv_alter; [|done].
  intros s Hs [H1 H2 H3 H4]. split; simpl; try done.
Qed.

Lemma CohInv_new cfg : CohInv None (new cfg).
Proof.
  split.
  - intros nm s Hs. simpl in Hs. unfold initializeServers in Hs.
    rewrite map_lookup_imap in Hs.
    destruct (config_servers cfg !! nm) as [c|]; simpl in Hs; [|done].
    destruct (enabled c); [|done]. injection Hs as <-.
    split; simpl; try done.
  - intros p t _ Hp. done.
Qed.

Lemma CohInv_push_promise m x :
  CohInv None m ->
  CohInv (Some (length (doConnects m)))
         (upd_doConnects (fun ps => ps ++ [x]) m).
Proof.
  intros [H1 H2]. split; simpl.
  - intros nm s Hs. eapply Coherent_wrappers; [|by apply H1]. done.
  - intros q t Hq [[_ Hq']|[-> _]]%lookup_snoc_Some; [|done].
    by apply (H2 q t).
Qed.

(** Every step other than a call of an [onError] closure keeps the
    fields of every server in agreement. *)
Lemma step_CohInv m l m' :
  is_onError l = false -> step m l = Some m' ->
  Inv false m -> CohInv None m -> CohInv None m'.
Proof.
  intros Hl Hstep HI HC.
  assert (forall p t, doConnects m !! p = Some (Running t) ->
            forall s, servers m !! dc_server t = Some s ->
                      state s <> connected) as Hrun.
  { intros p t Hp s Hs. by destruct (inv_running _ _ HI _ _ _ Hp Hs). }
  destruct l as [c nm|p r|p r now|p|c|d nm|d|w msg]; simpl in Hstep;
    [| | | | | | |done].
  - destruct (callers m !! c) eqn:Ec; [done|]. injection Hstep as <-.
    unfold connectServer. destruct (servers m !! nm) as [s|] eqn:Es;
      [|by apply (CohInv_ext _ m)].
    destruct (state s) eqn:Est; try (by apply (CohInv_ext _ m));
      (destruct (connectPromise s) eqn:Ep; [by apply (CohInv_ext _ m)|];
       match goal with
       | |- CohInv None (set_caller _ _ ?m2) =>
           apply (CohInv_ext _ m2); try done
       end;
       (apply CohInv_alter;
        [by intros s' _ [H1 H2 H3 H4]; split|]);
       unfold doConnect;
       apply (CohInv_loop_head (Some (length (doConnects m))));
       [by right
       |simpl; intros s' Hs'; rewrite Es in Hs'; injection Hs' as <-;
        congruence
       |]);
      by apply CohInv_push_promise.
  - destruct (doConnects m !! p) as [[t|]|] eqn:Ep; try done.
    destruct (pc t), r; try done; injection Hstep as <-.
    + apply (CohInv_set_promise None); [by left| |].
      * intros t' [= <-]. simpl. destruct HC as [_ H2]. by apply (H2 p t).
      * by apply (CohInv_ext _ m).
    + apply CohInv_catch_block; eauto.
  - destruct (doConnects m !! p) as [[t|]|] eqn:Ep; try done.
    destruct (pc t), r; try done; injection Hstep as <-.
    + apply (CohInv_set_promise None); [by left|done|].
      match goal with
      | |- CohInv None (add_log _ ?m2) => apply (CohInv_ext _ m2); try done
      end.
      apply CohInv_alter; [|done].
      intros s Hs [H1 H2 H3 H4]. split; simpl; try done.
      intros w [= <-]. destruct HC as [_ HW]. by apply (HW p t).
    + apply CohInv_catch_block; eauto.
  - destruct (doConnects m !! p) as [[t|]|] eqn:Ep; try done.
    destruct (pc t); try done; injection Hstep as <-.
    apply (CohInv_loop_head None); [by left|simpl; eauto|done].
  - destruct (callers m !! c) as [[q|nm q|]|] eqn:Ec; try done;
      destruct (doConnects m !! q) as [[|r]|] eqn:Eq; try done;
      injection Hstep as <-; simpl.
    + by apply (CohInv_ext _ m).
    + match goal with
      | |- CohInv None (set_caller _ _ ?m2) =>
          apply (CohInv_ext _ m2); try done
      end.
      apply CohInv_alter; [|done]. by intros s' _ [H1 H2 H3 H4]; split.
  - destruct (disconnecting m !! d); [done|]. injection Hstep as <-.
    unfold disconnectServer. destruct (servers m !! nm) as [s|]; [|done].
    destruct (_wrapper s); [by apply (CohInv_ext _ m)|].
    by apply CohInv_disconnect_finish.
  - destruct (disconnecting m !! d); [|done]. injection Hstep as <-.
    apply CohInv_disconnect_finish. by apply (CohInv_ext _ m).
Qed.

Lemma exec_CohInv ls : forall m m',
  forallb (fun l => negb (is_onError l)) ls = true ->
  exec m ls = Some m' -> Inv false m -> CohInv None m -> CohInv None m'.
Proof.
  induction ls as [|l ls IH]; intros m m'; simpl.
  - by intros _ [= <-].
  - intros [Hl Hls]%andb_prop. apply negb_true_iff in Hl.
    destruct (step m l) as [m1|] eqn:E; [|done]. intros Hex HI HC.
    apply (IH m1); [done|done| |].
    + eapply step_Inv; [done|done|done].
    + eapply step_CohInv; eauto.
Qed.

(** X7. As long as no [onError] closure is called, a server has a wrapper
    exactly when it is connected, its [client] is that wrapper, a
    connected server has no error recorded, and the wrapper is one that
    the manager constructed for this very server. *)
Theorem wrapper_iff_connected (cfg : McpPluginConfig) (ls : list Label)
    (m : McpServerManager) (nm : string) (s : ManagedServer) :
  forallb (fun l => negb (is_onError l)) ls = true ->
  exec (new cfg) ls = Some m ->
  servers m !! nm = Some s ->
  (is_Some (_wrapper s) <-> state s = connected) /\
  client s = _wrapper s /\
  (state s = connected -> error s = None) /\
  (forall w, _wrapper s = Some w -> wrappers m !! w = Some nm).
Proof.
  intros Hls Hex Hs.
  destruct (exec_CohInv ls _ _ Hls Hex (Inv_new false cfg) (CohInv_new cfg))
    as [H _].
  by destruct (H nm s Hs).
Qed.

Lemma wrapper_iff_connected_witness :
  exists m s,
    exec (new web_config)
         [LConnectServer 0 "web"; LConnectSettled 0 Fulfilled;
          LListToolsSettled 0 (inl [read_tool]) 7; LResume 0] = Some m /\
    servers m !! "web"%string = Some s /\
    state s = connected /\
    (is_Some (_wrapper s) <-> state s = connected) /\
    client s = _wrapper s /\
    (state s = connected -> error s = None) /\
    (forall w, _wrapper s = Some w -> wrappers m !! w = Some "web"%string).
Proof.
  eexists _, _. split; [vm_compute; reflexivity|].
  split; [vm_compute; reflexivity|]. split; [reflexivity|].
  eapply (wrapper_iff_connected web_config
            [LConnectServer 0 "web"; LConnectSettled 0 Fulfilled;
             LListToolsSettled 0 (inl [read_tool]) 7; LResume 0]
            _ "web"); [reflexivity| |]; vm_compute; reflexivity.
Defined.

End ServerFacts.
(* ===================================================================== *)
(** ** manager.ts: a connection that succeeds after retries               *)
(* ===================================================================== *)

Module ReconnectFacts.
Import Props Manager ManagerProps RetryFacts.

Local Arguments Nat.leb : simpl never.
Local Arguments Nat.ltb : simpl never.
Local Arguments Z.mul : simpl never.
Local Arguments Z.pow : simpl never.

(** A [doConnect] that has called [connect] for attempt [attempt t], with
    [length xs] attempts failing while retries are left: after each of
    them the timer is set to 1000 * 2^i for the attempt i that failed, and
    when it fires the next attempt calls [connect] on a new wrapper. *)
Lemma retrying_run xs : forall m p t s,
  doConnects m !! p = Some (Running t) -> pc t = AwaitConnect ->
  (attempt t + length xs <= dc_retries t)%nat ->
  S (dc_client t) = length (wrappers m) ->
  servers m !! dc_server t = Some s ->
  exists m' le,
    exec m (retrying p xs) = Some m' /\
    doConnects m'
    = <[p := Running {| dc_server := dc_server t;
                        dc_retries := dc_retries t; lastError := le;
                        attempt := (attempt t + length xs)%nat;
                        dc_client := (dc_client t + length xs)%nat;
                        pc := AwaitConnect |}]> (doConnects m) /\
    trace m' = trace m
               ++ retrying_effects (dc_server t) (dc_retries t) (attempt t)
                                   (dc_client t) xs /\
    wrappers m' = wrappers m ++ replicate (length xs) (dc_server t) /\
    callers m' = callers m /\
    servers m' !! dc_server t
    = Some (match xs with [] => s | _ :: _ => setState s connecting None end).
Proof.
  induction xs as [|x xs IH]; intros m p t s Hp Hpc Hn Hw Hs.
  - exists m, (lastError t). simpl. rewrite !Nat.add_0_r, !app_nil_r.
    split_and!; try done.
    symmetry. apply list_insert_id. rewrite Hp. f_equal. f_equal.
    destruct t; simpl in *. by subst.
  - simpl in Hn.
    change (retrying p (x :: xs))
      with ((attempt_fails p x ++ [LTimer p]) ++ retrying p xs).
    rewrite <- app_assoc.
    rewrite (attempt_fails_exec _ _ t) by done.
    unfold catch_block.
    replace (attempt t <? dc_retries t)%nat with true
      by (symmetry; apply Nat.ltb_lt; lia).
    pose proof (lookup_lt_Some _ _ _ Hp) as Hlt.
    set (m0 := if x.1 then add_effect (EListTools (dc_client t)) m else m).
    assert (doConnects m0 = doConnects m /\ servers m0 = servers m /\
            wrappers m0 = wrappers m /\ callers m0 = callers m /\
            trace m0 = trace m
                       ++ (if x.1 then [EListTools (dc_client t)] else []))
      as (Hd0 & Hs0 & Hw0 & Hc0 & Ht0).
    { subst m0. destruct x.1; simpl; by rewrite ?app_nil_r. }
    cbn [app exec step upd_doConnects doConnects add_effect add_log].
    rewrite list_lookup_insert_eq by (by rewrite Hd0). cbn [pc].
    unfold loop_head. cbn [next_round attempt dc_retries].
    replace (S (attempt t) <=? dc_retries t)%nat with true
      by (symmetry; apply Nat.leb_le; lia).
    match goal with
    | |- context [exec ?m2 (retrying _ _)] =>
        destruct (IH m2 p
                    {| dc_server := dc_server t; dc_retries := dc_retries t;
                       lastError := Some x.2; attempt := S (attempt t);
                       dc_client := length (wrappers m0);
                       pc := AwaitConnect |}
                    (setState s connecting None))
          as (m' & le & Hex & Hd & Ht & Hw' & Hc & Hsv)
    end.
    + simpl. by rewrite list_lookup_insert_eq
        by (by rewrite length_insert, Hd0).
    + done.
    + simpl. lia.
    + simpl. rewrite length_app. simpl. lia.
    + simpl. by rewrite lookup_alter_eq, Hs0, Hs.
    + exists m', le. split; [exact Hex|]. simpl in *.
      rewrite Hd, Ht, Hw', Hc, Hsv, Hd0, Hw0, Hc0, Ht0, <- Hw.
      rewrite !list_insert_insert_eq, <- !app_assoc.
      replace (S (dc_client t) + length xs)%nat
        with (dc_client t + S (length xs))%nat by lia.
      replace (S (attempt t + length xs))
        with (attempt t + S (length xs))%nat by lia.
      split_and!; try done. by destruct xs.
Qed.

Lemma timeouts_retrying nm n xs : forall a w,
  timeouts (retrying_effects nm n a w xs)
  = map (fun i => 1000 * 2 ^ Z.of_nat i) (seq a (length xs)).
Proof.
  unfold timeouts. induction xs as [|x xs IH]; intros a w; [done|].
  cbn [retrying_effects length seq map]. rewrite omap_app.
  destruct x.1; simpl; by rewrite IH.
Qed.

Lemma connects_retrying nm n xs : forall a w,
  connects (retrying_effects nm n a w xs) = seq (S w) (length xs).
Proof.
  unfold connects. induction xs as [|x xs IH]; intros a w; [done|].
  cbn [retrying_effects length seq]. rewrite omap_app.
  destruct x.1; simpl; by rewrite IH.
Qed.

(** X8. A connection that succeeds after [length xs] failed attempts, while
    retries are left: the delays are 1000 ms, 2000 ms, 4000 ms and so on,
    each attempt calls [connect] on a wrapper of its own, and in the end
    the server is connected through the last wrapper, with the tools that
    were listed, the time of the listing and no error, and the promise of
    [connectServer] is fulfilled. *)
Theorem doConnect_succeeds_after_retries (m : McpServerManager)
    (nm : string) (s : ManagedServer) (c : nat) (xs : list (bool * string))
    (ts : list McpToolInfo) (now : Z) :
  (length xs <= retries (defaults (mconfig m)))%nat ->
  servers m !! nm = Some s -> state s <> connected ->
  connectPromise s = None -> callers m !! c = None ->
  let p := length (doConnects m) in
  let w := length (wrappers m) in
  let n := retries (defaults (mconfig m)) in
  let k := length xs in
  exists m' s',
    exec m (LConnectServer c nm
            :: retrying p xs
            ++ [LConnectSettled p Fulfilled;
                LListToolsSettled p (inl ts) now; LResume c])
    = Some m' /\
    trace m' = trace m
               ++ ELog (LogConnecting nm 0 n) :: EConnect w
               :: retrying_effects nm n 0 w xs
               ++ [EListTools (w + k); ELog (LogConnected nm (length ts))] /\
    connects (trace m') = connects (trace m) ++ seq w (S k) /\
    timeouts (trace m')
    = timeouts (trace m) ++ map (fun i => 1000 * 2 ^ Z.of_nat i) (seq 0 k) /\
    servers m' !! nm = Some s' /\
    state s' = connected /\ tools s' = ts /\ error s' = None /\
    lastPing s' = Some now /\
    _wrapper s' = Some (w + k)%nat /\ client s' = Some (w + k)%nat /\
    connectPromise s' = None /\
    doConnects m' !! p = Some (Done Fulfilled) /\
    callers m' !! c = Some (Finished Fulfilled).
Proof.
  intros Hk Hs Hst Hnone Hc p w n k.
  cbn [exec step]. rewrite Hc.
  set (m1 := set_caller c (AwaitOwner nm p)
               (upd_servers (alter (set_connectPromise (Some p)) nm)
                  (doConnect nm m))).
  assert (connectServer c nm m = m1) as ->.
  { unfold connectServer. rewrite Hs, Hnone. by destruct (state s). }
  set (t0 := {| dc_server := nm; dc_retries := n; lastError := None;
                attempt := 0; dc_client := w; pc := AwaitConnect |}).
  assert (length (doConnects m1) = S p) as Hlen.
  { subst m1. unfold doConnect, loop_head. simpl.
    rewrite length_insert, length_app. simpl. lia. }
  destruct (retrying_run xs m1 p t0
              (set_connectPromise (Some p) (setState s connecting None)))
    as (m2 & le & Hex & Hd & Ht & Hw & Hcs & Hsv).
  { subst m1 t0 p. unfold doConnect, loop_head. simpl.
    rewrite list_lookup_insert_eq; [done|]. rewrite length_app. simpl. lia. }
  { done. }
  { subst t0 k. simpl. lia. }
  { subst m1. unfold doConnect, loop_head. simpl.
    rewrite length_app. simpl. lia. }
  { subst m1. unfold doConnect, loop_head. simpl.
    by rewrite !lookup_alter_eq, Hs. }
  rewrite exec_app, Hex.
  cbn [mbind option_bind exec step].
  assert (doConnects m2 !! p
          = Some (Running {| dc_server := nm; dc_retries := n;
                             lastError := le; attempt := (0 + k)%nat;
                             dc_client := (w + k)%nat;
                             pc := AwaitConnect |})) as Hrun.
  { rewrite Hd. apply list_lookup_insert_eq. lia. }
  rewrite Hrun. cbn [pc upd_doConnects doConnects add_effect].
  rewrite list_lookup_insert_eq by (rewrite Hd, length_insert; lia).
  cbn [pc dc_server dc_client dc_retries attempt lastError
       upd_doConnects doConnects add_effect add_log upd_servers callers].
  assert (callers m2 !! c = Some (AwaitOwner nm p)) as Hown.
  { rewrite Hcs. subst m1. simpl. by rewrite lookup_insert_eq. }
  rewrite Hown.
  rewrite list_lookup_insert_eq
    by (rewrite !length_insert, Hd, length_insert; lia).
  assert (trace m1 = trace m ++ [ELog (LogConnecting nm 0 n); EConnect w])
    as Ht1.
  { subst m1. unfold doConnect, loop_head. simpl.
    by rewrite <- app_assoc. }
  subst t0. cbn [dc_server dc_retries attempt dc_client] in Ht, Hsv.
  eexists _, _. split; [reflexivity|].
  cbn [trace servers doConnects callers connectServer_resume set_caller
         upd_servers upd_doConnects add_log add_effect].
  rewrite Ht, Ht1, !lookup_alter_eq, Hsv, lookup_insert_eq, <- !app_assoc.
  split; [done|].
  unfold connects, timeouts. rewrite !omap_app.
  fold (timeouts (retrying_effects nm n 0 w xs)).
  fold (connects (retrying_effects nm n 0 w xs)).
  rewrite timeouts_retrying, connects_retrying. simpl.
  rewrite ?app_nil_r.
  split; [done|]. split; [done|].
  split; [reflexivity|].
  rewrite list_lookup_insert_eq
    by (rewrite !length_insert, Hd, length_insert; lia).
  destruct xs; by split_and!.
Qed.

Lemma doConnect_succeeds_after_retries_witness :
  exists m' s',
    exec (new web_config)
         (LConnectServer 7 "web"
          :: retrying 0 [(false, "ECONNREFUSED"); (true, "Connection closed")]
          ++ [LConnectSettled 0 Fulfilled;
              LListToolsSettled 0 (inl [read_tool]) 42; LResume 7])
    = Some m' /\
    trace m'
    = [ELog (LogConnecting "web" 0 2); EConnect 0;
       ELog (LogFailed "web" "ECONNREFUSED"); ESetTimeout 1000;
       ELog (LogConnecting "web" 1 2); EConnect 1; EListTools 1;
       ELog (LogFailed "web" "Connection closed"); ESetTimeout 2000;
       ELog (LogConnecting "web" 2 2); EConnect 2; EListTools 2;
       ELog (LogConnected "web" 1)] /\
    connects (trace m') = [0; 1; 2]%nat /\
    timeouts (trace m') = [1000; 2000] /\
    servers m' !! "web"%string = Some s' /\
    state s' = connected /\ tools s' = [read_tool] /\ error s' = None /\
    lastPing s' = Some 42 /\
    _wrapper s' = Some 2%nat /\ client s' = Some 2%nat /\
    connectPromise s' = None /\
    doConnects m' !! 0%nat = Some (Done Fulfilled) /\
    callers m' !! 7%nat = Some (Finished Fulfilled).
Proof.
  assert (servers (new web_config) !! "web"%string = Some web_server) as H1
    by (vm_compute; reflexivity).
  assert (state web_server <> connected) as H2 by done.
  assert (length [(false, "ECONNREFUSED"%string);
                  (true, "Connection closed"%string)]
          <= retries (defaults (mconfig (new web_config))))%nat as H0
    by (apply le_n).
  exact (doConnect_succeeds_after_retries (new web_config) "web" web_server 7
           [(false, "ECONNREFUSED"%string);
            (true, "Connection closed"%string)]
           [read_tool] 42 H0 H1 H2 eq_refl
           (lookup_empty (M:=gmap nat) 7%nat)).
Defined.

End ReconnectFacts.
(* ===================================================================== *)
(** ** manager.ts: what a status reports                                  *)
(* ===================================================================== *)

Module StatusFacts.
Import Props Manager ManagerFacts ManagerProps ServerFacts Status.

(** X9. As long as no [onError] closure is called, [getServerStatus] answers
    [null] exactly for the names that are not the key of an enabled entry
    of the configuration; a status carries the key as its name and the
    transport of the entry, it counts the tools that it lists, it lists
    tools for a connected server only, and it reports no error for a
    connected server. *)
Theorem getServerStatus_reports (cfg : McpPluginConfig) (ls : list Label)
    (m : McpServerManager) (nm : string) :
  forallb (fun l => negb (is_onError l)) ls = true ->
  exec (new cfg) ls = Some m ->
  match getServerStatus nm m with
  | None => configured cfg nm = None
  | Some st =>
      status_name st = nm /\
      (exists c, configured cfg nm = Some c /\
                 status_transport st = transport c) /\
      toolCount st = length (status_tools st) /\
      (toolCount st <> 0%nat -> status_state st = connected) /\
      (status_state st = connected -> status_error st = None)
  end.
Proof.
  intros Hls Hex. unfold getServerStatus.
  pose proof (reachable_servers _ _ _ nm Hex) as Hid.
  destruct (servers m !! nm) as [s|] eqn:Es; simpl in *.
  - destruct (configured cfg nm) as [c|]; [|done]. injection Hid as H1 H2.
    assert (Inv true m) as HI
      by (eapply exec_Inv; [done|done|apply Inv_new]).
    destruct (exec_CohInv ls _ _ Hls Hex (Inv_new false cfg) (CohInv_new cfg))
      as [HC _].
    destruct (HC nm s Es) as [_ _ Herr _].
    split_and!; try done.
    + exists c. by subst c.
    + by rewrite length_map.
    + intros Hn. eapply (inv_tools _ _ HI eq_refl); [done|].
      by destruct (tools s).
  - by destruct (configured cfg nm).
Qed.

Lemma getServerStatus_reports_witness :
  exists m st,
    exec (new web_config)
         [LConnectServer 0 "web"; LConnectSettled 0 Fulfilled;
          LListToolsSettled 0 (inl [read_tool]) 7; LResume 0] = Some m /\
    getServerStatus "web" m = Some st /\
    status_name st = "web"%string /\
    (exists c, configured web_config "web" = Some c /\
               status_transport st = transport c) /\
    toolCount st = length (status_tools st) /\
    (toolCount st <> 0%nat -> status_state st = connected) /\
    (status_state st = connected -> status_error st = None).
Proof.
  eexists _, _. split; [vm_compute; reflexivity|].
  split; [vm_compute; reflexivity|].
  pose proof (getServerStatus_reports web_config
                [LConnectServer 0 "web"; LConnectSettled 0 Fulfilled;
                 LListToolsSettled 0 (inl [read_tool]) 7; LResume 0]
                _ "web" eq_refl
                ltac:(vm_compute; reflexivity)) as H.
  exact H.
Defined.

End StatusFacts.
(* ===================================================================== *)
(** ** config.ts: properties                                              *)
(* ===================================================================== *)

Module ConfigFacts.
Import Config Transport.

Lemma positive_default (x : option Z) (d : Z) :
  positive x = true -> 0 < d -> 0 < default d x.
Proof. destruct x as [n|]; simpl; [|done]. intros H%Z.ltb_lt. done. Qed.

Lemma detectTransport_not_auto srv : detectTransport srv <> auto.
Proof.
  unfold detectTransport.
  destruct (raw_transport srv) as [[]|]; try done;
    by destruct (truthy (raw_command srv)), (truthy (raw_url srv)).
Qed.

(** What [parseConfig] returns when the schema accepts the input. *)
Lemma parseConfig_Some raw cfg :
  parseConfig raw = Some cfg ->
  let parsed := default {| raw_servers := None; raw_defaults := None |} raw in
  match raw_defaults parsed with
  | Some d => valid_defaults d = true
  | None => True
  end /\
  map_Forall (fun _ srv => valid_server srv = true)
             (default ∅ (raw_servers parsed)) /\
  parsed_servers cfg
  = parse_server (parsed_defaults cfg)
    <$> delete "__proto__"%string (default ∅ (raw_servers parsed)) /\
  defaults_trust (parsed_defaults cfg)
  = default untrusted (raw_defaults parsed ≫= raw_defaults_trust) /\
  defaults_timeout (parsed_defaults cfg)
  = default 30000 (raw_defaults parsed ≫= raw_defaults_timeout) /\
  retries (parsed_defaults cfg)
  = default 2%nat (Z.to_nat <$> (raw_defaults parsed ≫= raw_retries)) /\
  defaults_maxResultChars (parsed_defaults cfg)
  = default 50000 (raw_defaults parsed ≫= raw_defaults_maxResultChars).
Proof.
  intros H parsed. unfold parseConfig, schema_parse in H. fold parsed in H.
  destruct (raw_defaults parsed) as [d|] eqn:Ed;
    destruct (raw_servers parsed) as [ss|] eqn:Es; simpl in H.
  - destruct (valid_defaults d) eqn:Ev; [|done]. simpl in H.
    case_bool_decide; [|done]. simpl in H. rewrite Ed, Es in H.
    injection H as <-. simpl. done.
  - destruct (valid_defaults d) eqn:Ev; [|done]. simpl in H.
    rewrite Ed, Es in H. injection H as <-. simpl.
    split_and!; try done; apply map_Forall_empty.
  - case_bool_decide; [|done]. simpl in H. rewrite Ed, Es in H.
    injection H as <-. simpl. done.
  - rewrite Ed, Es in H. injection H as <-. simpl.
    split_and!; try done; apply map_Forall_empty.
Qed.

Lemma parsed_defaults_positive raw cfg :
  parseConfig raw = Some cfg ->
  0 < defaults_timeout (parsed_defaults cfg) /\
  0 < defaults_maxResultChars (parsed_defaults cfg).
Proof.
  intros (Hd & _ & _ & _ & -> & _ & ->)%parseConfig_Some.
  destruct (raw_defaults _) as [d|]; simpl; [|done].
  unfold valid_defaults in Hd.
  apply andb_prop in Hd as [[H1 _]%andb_prop H2].
  split; by apply positive_default.
Qed.

(** X16. [parseConfig] keeps every server of the input under its key, the
    disabled ones too, but for a server under the key ["__proto__"], and
    it invents none. In its result every timeout and
    every limit on the result size is positive, and every server has a
    transport other than ["auto"], for which the table [CONCURRENCY] has
    an entry. *)
Theorem parseConfig_well_formed (raw : option RawConfig)
    (cfg : PluginConfig) :
  parseConfig raw = Some cfg ->
  dom (parsed_servers cfg)
  = dom (default ∅ (raw ≫= raw_servers)) ∖ {["__proto__"%string]} /\
  0 < defaults_timeout (parsed_defaults cfg) /\
  0 < defaults_maxResultChars (parsed_defaults cfg) /\
  forall nm s, parsed_servers cfg !! nm = Some s ->
    transport (base s) <> auto /\
    is_Some (Client.CONCURRENCY (transport (base s))) /\
    0 < maxResultChars (base s) /\ 0 < timeout (base s).
Proof.
  intros H. destruct (parsed_defaults_positive _ _ H) as [Ht Hm].
  destruct (parseConfig_Some _ _ H) as (_ & Hall & Hs & _).
  split_and!; try done.
  - rewrite Hs, dom_fmap_L, dom_delete_L. by destruct raw.
  - intros nm s. rewrite Hs, lookup_fmap.
    destruct (delete _ _ !! nm) as [srv|] eqn:E; [|done].
    simpl. intros [= <-]. simpl.
    pose proof (detectTransport_not_auto srv) as Hauto.
    apply lookup_delete_Some in E as [_ E].
    specialize (Hall _ _ E). simpl in Hall. unfold valid_server in Hall.
    apply andb_prop in Hall as [H1 H2].
    split_and!; try done; [|by apply positive_default..].
    by destruct (detectTransport srv).
Qed.

Lemma parseConfig_well_formed_witness :
  parseConfig (Some remote_raw) = Some remote_config /\
  dom (parsed_servers remote_config)
  = dom (default ∅ (Some remote_raw ≫= raw_servers))
    ∖ {["__proto__"%string]} /\
  0 < defaults_timeout (parsed_defaults remote_config) /\
  0 < defaults_maxResultChars (parsed_defaults remote_config) /\
  forall nm s, parsed_servers remote_config !! nm = Some s ->
    transport (base s) <> auto /\
    is_Some (Client.CONCURRENCY (transport (base s))) /\
    0 < maxResultChars (base s) /\ 0 < timeout (base s).
Proof.
  assert (parseConfig (Some remote_raw) = Some remote_config) as H
    by (vm_compute; reflexivity).
  split; [exact H|].
  exact (parseConfig_well_formed (Some remote_raw) remote_config H).
Defined.

Lemma parse_server_toRawServer d s :
  transport (base s) <> auto -> parse_server d (toRawServer s) = s.
Proof.
  intros Ht. destruct s as [[en tr co ur tu mx ti] ar ev he tf].
  unfold parse_server, toRawServer, detectTransport. simpl in *.
  by destruct tr.
Qed.

(** X17. Parsing is idempotent: a configuration that [parseConfig] returned,
    handed to [parseConfig] again, is accepted and returned as it is. *)
Theorem parseConfig_idempotent (raw : option RawConfig)
    (cfg : PluginConfig) :
  parseConfig raw = Some cfg -> parseConfig (Some (toRaw cfg)) = Some cfg.
Proof.
  intros H.
  destruct (parsed_defaults_positive _ _ H) as [Ht Hm].
  assert (forall nm s, parsed_servers cfg !! nm = Some s ->
            transport (base s) <> auto /\
            0 < maxResultChars (base s) /\ 0 < timeout (base s)) as Hall.
  { destruct (parseConfig_Some _ _ H) as (_ & Hall & Hs & _).
    intros nm s. rewrite Hs, lookup_fmap.
    destruct (delete _ _ !! nm) as [srv|] eqn:E; [|done].
    simpl. intros [= <-]. simpl.
    apply lookup_delete_Some in E as [_ E].
    specialize (Hall _ _ E). simpl in Hall. unfold valid_server in Hall.
    apply andb_prop in Hall as [H1 H2].
    destruct (parsed_defaults_positive _ _ H) as [Ht' Hm'].
    split_and!; [apply detectTransport_not_auto|by apply positive_default..]. }
  assert (parsed_servers cfg !! "__proto__"%string = None) as Hproto.
  { destruct (parseConfig_Some _ _ H) as (_ & _ & -> & _).
    by rewrite lookup_fmap, lookup_delete_eq. }
  unfold parseConfig, schema_parse. simpl.
  unfold valid_defaults. simpl.
  assert ((0 <? defaults_timeout (parsed_defaults cfg)) = true) as ->
    by (by apply Z.ltb_lt).
  assert ((0 <? defaults_maxResultChars (parsed_defaults cfg)) = true) as ->
    by (by apply Z.ltb_lt).
  assert ((0 <=? Z.of_nat (retries (parsed_defaults cfg))) = true) as ->
    by (apply Z.leb_le; lia).
  simpl. rewrite bool_decide_eq_true_2.
  2:{ intros nm srv. rewrite lookup_fmap.
      destruct (parsed_servers cfg !! nm) as [s|] eqn:E; [|done].
      simpl. intros [= <-]. destruct (Hall _ _ E) as (_ & H1 & H2).
      unfold valid_server. simpl.
      apply andb_true_intro. split; by apply Z.ltb_lt. }
  destruct cfg as [ss [dt dti dr dm]]. simpl in *. rewrite Nat2Z.id.
  f_equal. f_equal.
  rewrite delete_id by (by rewrite lookup_fmap, Hproto).
  rewrite <- map_fmap_compose.
  apply map_eq. intros nm. rewrite lookup_fmap.
  destruct (ss !! nm) as [s|] eqn:E; [|done]. simpl. f_equal.
  apply parse_server_toRawServer. by destruct (Hall _ _ E).
Qed.

Lemma parseConfig_idempotent_witness :
  parseConfig (Some remote_raw) = Some remote_config /\
  parseConfig (Some (toRaw remote_config)) = Some remote_config.
Proof.
  assert (parseConfig (Some remote_raw) = Some remote_config) as H
    by (vm_compute; reflexivity).
  split; [exact H|].
  exact (parseConfig_idempotent (Some remote_raw) remote_config H).
Defined.

(** *** The transport of a parsed server *)

Section Transports.
Variable valid_url : string -> bool.
Variable process_env : gmap string string.

(** The two models of [createTransport] agree:
    [Client.createTransport] says whether [createTransport] gets as far
    as the constructor of a transport. *)
Lemma createTransport_agrees (cfg : ServerConfig) :
  Client.createTransport (base cfg) = true <->
  forall e, createTransport valid_url process_env cfg = inr e ->
            exists u, e = InvalidUrl u.
Proof.
  unfold Client.createTransport, createTransport, createStdioTransport,
    createHttpTransport, createSseTransport.
  destruct (transport (base cfg)).
  - destruct (command (base cfg)) as [c|]; simpl.
    + destruct (String.eqb_spec c ""); simpl.
      * split; [done|]. intros H. by destruct (H _ eq_refl).
      * split; [by intros _ e|done].
    + split; [done|]. intros H. by destruct (H _ eq_refl).
  - destruct (url (base cfg)) as [u|]; simpl.
    + destruct (String.eqb_spec u ""); simpl.
      * split; [done|]. intros H. by destruct (H _ eq_refl).
      * split; [|done].
        intros _ e. destruct (valid_url u); [done|]. intros [= <-]. eauto.
    + split; [done|]. intros H. by destruct (H _ eq_refl).
  - destruct (url (base cfg)) as [u|]; simpl.
    + destruct (String.eqb_spec u ""); simpl.
      * split; [done|]. intros H. by destruct (H _ eq_refl).
      * split; [|done].
        intros _ e. destruct (valid_url u); [done|]. intros [= <-]. eauto.
    + split; [done|]. intros H. by destruct (H _ eq_refl).
  - split; [done|]. intros H. by destruct (H _ eq_refl).
Qed.

(** X18. For a server of a parsed configuration, [createTransport] never
    throws the unknown-transport error. When the transport was detected,
    not given, it never asks for a [url], and it asks for a [command]
    exactly when the input has neither a [command] nor a [url] that is
    not empty: such a server is accepted by [parseConfig] and can never be
    connected. *)
Theorem detected_transport_is_creatable (raw : option RawConfig)
    (cfg : PluginConfig) (nm : string) (srv : RawServer) :
  parseConfig raw = Some cfg ->
  default ∅ (raw ≫= raw_servers) !! nm = Some srv ->
  nm <> "__proto__"%string ->
  exists s,
    parsed_servers cfg !! nm = Some s /\
    createTransport valid_url process_env s <> inr UnknownTransport /\
    (raw_transport srv = None \/ raw_transport srv = Some auto ->
     (forall k, createTransport valid_url process_env s
                <> inr (RequiresUrl k)) /\
     (createTransport valid_url process_env s = inr RequiresCommand <->
      truthy (raw_command srv) = false /\ truthy (raw_url srv) = false)).
Proof.
  intros H Hsrv Hnm. destruct (parseConfig_Some _ _ H) as (_ & _ & Hs & _).
  assert (default ∅ (raw_servers
            (default {| raw_servers := None; raw_defaults := None |} raw))
          !! nm = Some srv) as Hsrv' by (by destruct raw).
  exists (parse_server (parsed_defaults cfg) srv).
  split; [by rewrite Hs, lookup_fmap, lookup_delete_ne, Hsrv'|].
  unfold createTransport, createStdioTransport, createHttpTransport,
    createSseTransport, parse_server, detectTransport, truthy. simpl.
  split.
  - destruct (raw_transport srv) as [[]|];
      destruct (raw_command srv) as [c|];
      destruct (raw_url srv) as [u|]; simpl;
      repeat (match goal with
              | |- context [String.eqb ?x ""] => destruct (String.eqb x "")
              | |- context [valid_url ?x] => destruct (valid_url x)
              end; simpl); done.
  - intros Hauto. split.
    + intros k.
      destruct Hauto as [-> | ->];
      destruct (raw_command srv) as [c|];
      destruct (raw_url srv) as [u|]; simpl;
      repeat (match goal with
              | |- context [String.eqb ?x ""] =>
                  destruct (String.eqb x "") eqn:?
              | |- context [valid_url ?x] => destruct (valid_url x)
              end; simpl); try done; congruence.
    + destruct Hauto as [-> | ->];
      destruct (raw_command srv) as [c|];
      destruct (raw_url srv) as [u|]; simpl;
      repeat (match goal with
              | |- context [String.eqb ?x ""] =>
                  destruct (String.eqb x "") eqn:?
              | |- context [valid_url ?x] => destruct (valid_url x)
              end; simpl); try (split; [done|by intros [? ?]]);
      try (split; [done|done]); try (split; [congruence|by intros [? ?]]).
Qed.

End Transports.

Lemma detected_transport_is_creatable_witness :
  exists s,
    parsed_servers remote_config !! "remote"%string = Some s /\
    createTransport (fun _ => true) ∅ s <> inr UnknownTransport /\
    (raw_transport (mkRawServer None None None None None
                      (Some "https://mcp.example.com"%string) None None None
                      None None) = None \/
     raw_transport (mkRawServer None None None None None
                      (Some "https://mcp.example.com"%string) None None None
                      None None) = Some auto ->
     (forall k, createTransport (fun _ => true) ∅ s <> inr (RequiresUrl k)) /\
     (createTransport (fun _ => true) ∅ s = inr RequiresCommand <->
      truthy None = false /\
      truthy (Some "https://mcp.example.com"%string) = false)).
Proof.
  assert (parseConfig (Some remote_raw) = Some remote_config) as H
    by (vm_compute; reflexivity).
  assert ("remote"%string <> "__proto__"%string) as Hne by discriminate.
  exact (detected_transport_is_creatable (fun _ => true) ∅
           (Some remote_raw) remote_config "remote"
           (mkRawServer None None None None None
              (Some "https://mcp.example.com"%string) None None None None
              None)
           H ltac:(vm_compute; reflexivity) Hne).
Defined.

End ConfigFacts.
(* ===================================================================== *)
(** ** bridge.ts: properties of the bridged tools                         *)
(* ===================================================================== *)

Module BridgeToolsFacts.
Import JsString Props Security Bridge BridgeFacts Config BridgeTools.
Import SecurityFacts PolicyFacts.

(** *** The filter *)

(** A tool passes the filter when it is not on the deny list and, where
    there is an allow list that is not empty, it is on the allow list. *)
Lemma passesFilter_spec (nm : string) (filter : option ToolFilter) :
  passesFilter nm filter = true <->
  (forall d, filter ≫= deny = Some d -> nm ∉ d) /\
  (forall a, filter ≫= allow = Some a -> a <> [] -> nm ∈ a).
Proof.
  unfold passesFilter. destruct filter as [[a d]|]; simpl; [|by split].
  destruct d as [d|]; [case_bool_decide as Hd|].
  - split; [done|]. intros [H _]. by destruct (H d eq_refl).
  - destruct a as [[|x a]|]; simpl.
    + split; [|done]. intros _. split; [by intros ? [= <-]|].
      by intros ? [= <-].
    + rewrite bool_decide_eq_true. split.
      * intros H. split; [by intros ? [= <-]|]. by intros ? [= <-].
      * intros [_ H]. by apply H.
    + split; [|done]. intros _. split; [by intros ? [= <-]|done].
  - destruct a as [[|x a]|]; simpl.
    + split; [|done]. intros _. split; [done|]. by intros ? [= <-].
    + rewrite bool_decide_eq_true. split.
      * intros H. split; [done|]. by intros ? [= <-].
      * intros [_ H]. by apply H.
    + by split.
Qed.

Section Bridge.
Context {Value : Type}.
Variable truthy_value : Value -> bool.
Variable string_value : string -> Value.
Variable stringify : ToolContent -> jsstring.

Lemma createBridgedTools_labels serverName (tools : list ToolInfo) config :
  map label (createBridgedTools truthy_value string_value stringify
                                 serverName tools config)
  = List.filter (fun n => passesFilter n (toolFilter config))
                (map (fun t => name (info t)) tools).
Proof.
  unfold BridgeTools.createBridgedTools. rewrite map_map. simpl.
  induction tools as [|t tools IH]; [done|]. simpl.
  destruct (passesFilter (name (info t)) (toolFilter config)); simpl;
    by rewrite IH.
Qed.

(** X19. The bridged tools are the tools that pass the filter, in the order in
    which the server listed them: a tool on the deny list is left out even
    when it is on the allow list, and an empty allow list lets every tool
    through. The label of a bridged tool is the name of its tool. *)
Theorem createBridgedTools_applies_filter (serverName : string)
    (tools : list ToolInfo) (config : ServerConfig) (nm : string) :
  sublist (map label (createBridgedTools truthy_value string_value stringify
                                 serverName tools config))
          (map (fun t => name (info t)) tools) /\
  (nm ∈ map label (createBridgedTools truthy_value string_value stringify
                                 serverName tools config) <->
   nm ∈ map (fun t => name (info t)) tools /\
   (forall d, toolFilter config ≫= deny = Some d -> nm ∉ d) /\
   (forall a, toolFilter config ≫= allow = Some a -> a <> [] -> nm ∈ a)).
Proof.
  rewrite createBridgedTools_labels. split.
  - induction (map (fun t => name (info t)) tools) as [|x l IH]; [done|].
    simpl. destruct (passesFilter x (toolFilter config)).
    + by apply sublist_skip.
    + by apply sublist_cons.
  - rewrite list_elem_of_In, filter_In, <- list_elem_of_In, passesFilter_spec.
    done.
Qed.

(** *** The names *)

Lemma is_normal_safe_units s : is_normal s = true -> forallb is_safe s = true.
Proof.
  unfold is_normal. intros H.
  by apply andb_prop in H as [[[H _]%andb_prop _]%andb_prop _].
Qed.

(** X20. The name under which a tool is registered consists of the code units
    [[a-z0-9_]] only and starts with ["mcp_"], whatever the names of the
    server and of the tool; it is made from the label, and [execute] calls
    the server with the label, the name that the server gave. *)
Theorem bridged_names_are_safe (serverName : string)
    (tools : list ToolInfo) (config : ServerConfig) (b : BridgedTool) :
  b ∈ createBridgedTools truthy_value string_value stringify
                         serverName tools config ->
  bridged_name b = normalizeToolName (lit serverName) (lit (label b)) /\
  forallb is_safe (bridged_name b) = true /\
  (exists rest, bridged_name b = lit "mcp_" ++ rest) /\
  execute_calls b = label b.
Proof.
  unfold BridgeTools.createBridgedTools.
  intros [t [-> _]]%list_elem_of_fmap.
  cbn [bridged_name label execute_calls].
  split_and!; [done| |by eexists|done].
  unfold normalizeToolName. rewrite !forallb_app.
  rewrite (is_normal_safe_units (safe (lit serverName)))
    by apply safe_is_normal.
  rewrite (is_normal_safe_units (safe (lit (name (info t)))))
    by apply safe_is_normal.
  reflexivity.
Qed.

(** *** The conversion of a result *)

Lemma convertBlock_no_resource (f g : ToolContent -> jsstring) l :
  (forall r, ResourceBlock r ∉ l) ->
  map (convertBlock f) l = map (convertBlock g) l.
Proof.
  induction l as [|b l IH]; intros H; [done|]. simpl. f_equal.
  - destruct b; try done. destruct (H resource). left.
  - apply IH. intros r Hr. apply (H r). by right.
Qed.

Lemma secured_no_resource result trust maxChars r :
  ResourceBlock r ∉ content (applyTrustPolicy result trust maxChars).
Proof.
  rewrite applyTrustPolicy_content.
  intros [b [Hb _]]%list_elem_of_fmap. by destruct b, trust.
Qed.

(** X21. The fallback of [convertResult] that serialises a block with
    [JSON.stringify] is never taken: the trust policy has turned every
    resource block into text before, so the result is the same whatever
    [JSON.stringify] would return. *)
Theorem convertResult_never_stringifies (f g : ToolContent -> jsstring)
    (result : ToolCallResult) (config : ServerConfig) :
  convertResult f result config = convertResult g result config.
Proof.
  unfold convertResult.
  by rewrite (convertBlock_no_resource f g)
    by (intros r; apply secured_no_resource).
Qed.

Lemma lit_cons_ne_nil a x (k : jsstring) : lit (String a x) ++ k <> [].
Proof. done. Qed.

(** X22. The content that [convertResult] returns is never empty. For an
    error it is one text block, which starts with ["[MCP Error] "] and
    goes on with the texts of the result or, when there is none, with
    ["Unknown error"]; images are left out. Otherwise it has one block
    for each block of the result, or the one block ["(empty result)"]. *)
Theorem convertResult_never_empty (result : ToolCallResult)
    (config : ServerConfig) :
  let out := convertResult stringify result config in
  agent_content out <> [] /\
  (isError result = true ->
   details out = ErrorDetails /\
   exists t, agent_content out = [TextContent (lit "[MCP Error] " ++ t)] /\
             t <> []) /\
  (isError result = false ->
   details out = McpResult /\
   length (agent_content out) = Nat.max 1 (length (content result))).
Proof.
  unfold convertResult. rewrite applyTrustPolicy_isError.
  pose proof (applyTrustPolicy_content result (trust (base config))
                (maxResultChars (base config))) as Hc.
  assert (length (map (convertBlock stringify)
                      (content (applyTrustPolicy result (trust (base config))
                                  (maxResultChars (base config)))))
          = length (content result)) as Hlen
    by (by rewrite Hc, !length_map).
  destruct (isError result); simpl.
  - split_and!; [done| |done]. intros _. split; [done|].
    eexists. split; [reflexivity|].
    by destruct (join [LF] _).
  - destruct (map (convertBlock stringify) _) as [|c l] eqn:E;
      simpl in *; split_and!; try done; intros _; split; try done.
    + by rewrite <- Hlen.
    + rewrite <- Hlen. lia.
Qed.

(** *** The schema *)

(** X23. [normalizeSchema] returns a schema whose [type] counts as true, it
    changes no other member, it returns a schema that has such a [type] as
    it is, and a second pass changes nothing. *)
Theorem normalizeSchema_sets_type (schema : gmap string Value) :
  truthy_value (string_value "object") = true ->
  let out := normalizeSchema truthy_value string_value schema in
  (exists v, out !! "type"%string = Some v /\ truthy_value v = true) /\
  (forall k, k <> "type"%string -> out !! k = schema !! k) /\
  (forall v, schema !! "type"%string = Some v -> truthy_value v = true ->
             out = schema) /\
  normalizeSchema truthy_value string_value out = out.
Proof.
  intros Hobj. unfold normalizeSchema.
  destruct (schema !! "type"%string) as [v|] eqn:E.
  - destruct (truthy_value v) eqn:Ev; simpl.
    + split_and!; [by eauto|done|done|by rewrite E, Ev].
    + split_and!.
      * exists (string_value "object"). by rewrite lookup_insert_eq.
      * intros k Hk. by rewrite lookup_insert_ne.
      * intros ? [= <-]. congruence.
      * by rewrite lookup_insert_eq, Hobj.
  - simpl. split_and!.
    + exists (string_value "object"). by rewrite lookup_insert_eq.
    + intros k Hk. by rewrite lookup_insert_ne.
    + done.
    + by rewrite lookup_insert_eq, Hobj.
Qed.

End Bridge.

Lemma bridged_names_are_safe_witness :
  let config := {| base := Props.stdio_config; args := None; env := None;
                   headers := None; toolFilter := None |} in
  let tool := {| info := {| serverName := "My Server"; name := "read-file.v2";
                            description := None |};
                 inputSchema := (∅ : gmap string (option string)) |} in
  exists b,
    createBridgedTools example_truthy Some (fun _ => []) "My Server" [tool]
                       config = [b] /\
    bridged_name b = lit "mcp_my_server_read_file_v2" /\
    label b = "read-file.v2"%string /\
    bridged_name b = normalizeToolName (lit "My Server") (lit (label b)) /\
    forallb is_safe (bridged_name b) = true /\
    (exists rest, bridged_name b = lit "mcp_" ++ rest) /\
    execute_calls b = label b.
Proof.
  intros config tool. eexists. split; [reflexivity|].
  split; [vm_compute; reflexivity|]. split; [reflexivity|].
  apply (bridged_names_are_safe example_truthy Some (fun _ => [])
           "My Server" [tool] config).
  left.
Defined.

Lemma normalizeSchema_sets_type_witness :
  let schema : gmap string (option string) :=
    {[ "type"%string := Some ""%string;
       "title"%string := Some "args"%string ]} in
  let out := normalizeSchema example_truthy Some schema in
  example_truthy (Some "object"%string) = true /\
  out = {[ "type"%string := Some "object"%string;
           "title"%string := Some "args"%string ]} /\
  (exists v, out !! "type"%string = Some v /\ example_truthy v = true) /\
  (forall k, k <> "type"%string -> out !! k = schema !! k) /\
  (forall v, schema !! "type"%string = Some v -> example_truthy v = true ->
             out = schema) /\
  normalizeSchema example_truthy Some out = out.
Proof.
  intros schema out. split; [reflexivity|].
  split; [vm_compute; reflexivity|].
  exact (normalizeSchema_sets_type example_truthy Some schema eq_refl).
Defined.

(** *** The listing *)

(** X24. The name that [mcp.tools] and [mcp tools] show for a tool is the name
    under which the tool is registered, provided the names of the server
    and of the tool are in normal form. *)
Theorem listed_name_is_registered_name (s t : jsstring) :
  is_normal s = true -> is_normal t = true ->
  Index.fullName s t = normalizeToolName s t.
Proof.
  intros Hs Ht. unfold Index.fullName, normalizeToolName.
  by rewrite !safe_normal.
Qed.

Lemma listed_name_is_registered_name_witness :
  is_normal (lit "web") = true /\ is_normal (lit "read_file") = true /\
  Index.fullName (lit "web") (lit "read_file")
  = normalizeToolName (lit "web") (lit "read_file").
Proof.
  split; [vm_compute; reflexivity|]. split; [vm_compute; reflexivity|].
  apply listed_name_is_registered_name; vm_compute; reflexivity.
Defined.

(** Where a name is not in normal form the two names differ: the listing
    shows the name as it is, and the tool is registered under the
    normalised name. *)
Lemma listed_name_differs :
  Index.fullName (lit "My Server") (lit "read-file.v2")
  = lit "mcp_My Server_read-file.v2" /\
  normalizeToolName (lit "My Server") (lit "read-file.v2")
  = lit "mcp_my_server_read_file_v2".
Proof. split; vm_compute; reflexivity. Qed.

End BridgeToolsFacts.
(* ===================================================================== *)
(** ** registry.ts: properties                                            *)
(* ===================================================================== *)

Module RegistryFacts.
Import Config Transport ConfigFacts Registry.

(** *** Lookup *)

Lemma assoc_Some {A} k (l : list (string * A)) v :
  assoc k l = Some v -> (k, v) ∈ l.
Proof.
  induction l as [|[k' v'] l IH]; simpl; [done|].
  destruct (String.eqb_spec k k') as [->|Hne].
  - intros [= ->]. left.
  - intros H. right. auto.
Qed.

Lemma assoc_None {A} k (l : list (string * A)) :
  assoc k l = None -> k ∉ map fst l.
Proof.
  induction l as [|[k' v'] l IH]; simpl; [intros _; apply not_elem_of_nil|].
  destruct (String.eqb_spec k k') as [->|Hne]; [done|].
  intros H. apply not_elem_of_cons. auto.
Qed.

Lemma assoc_NoDup {A} k (l : list (string * A)) v :
  NoDup (map fst l) -> (k, v) ∈ l -> assoc k l = Some v.
Proof.
  induction l as [|[k' v'] l IH]; simpl; [by intros _ ?%elem_of_nil|].
  intros [Hk Hnd]%NoDup_cons [[= -> ->]|Hin]%elem_of_cons.
  - by rewrite String.eqb_refl.
  - destruct (String.eqb_spec k k') as [->|Hne]; [|auto].
    destruct Hk. apply list_elem_of_fmap. by exists (k', v).
Qed.

Lemma CATALOG_NoDup : NoDup (map fst CATALOG).
Proof. apply (bool_decide_unpack _). vm_compute. exact I. Qed.

(** X27. [getCatalogEntry] finds every entry that [listCatalog] lists, under
    its name, and no other entry; for a name that is not in the catalog it
    answers [undefined], unless the name is that of a member of
    [Object.prototype]: then it returns that member, which is no entry. *)
Theorem getCatalogEntry_finds (name : string) :
  (forall e, getCatalogEntry name = Some (Entry e) <->
             (name, e) ∈ listCatalog) /\
  (getCatalogEntry name = None <->
   (name ∉ map fst listCatalog) /\ (name ∉ OBJECT_PROTOTYPE)) /\
  (forall x, getCatalogEntry name = Some (Inherited x) <->
             x = name /\ (name ∉ map fst listCatalog) /\
             name ∈ OBJECT_PROTOTYPE).
Proof.
  assert (listCatalog = CATALOG) as ->.
  { unfold listCatalog. rewrite <- (map_id CATALOG) at 2.
    apply map_ext. by intros []. }
  unfold getCatalogEntry. destruct (assoc name CATALOG) as [e0|] eqn:E.
  - pose proof (assoc_Some _ _ _ E) as Hin.
    assert (name ∈ map fst CATALOG) as Hk
      by (apply list_elem_of_fmap; by exists (name, e0)).
    split_and!.
    + intros e. split; [by intros [= <-]|].
      intros He. apply (assoc_NoDup _ _ _ CATALOG_NoDup) in He. congruence.
    + split; [done|]. by intros [? _].
    + intros x. split; [done|]. by intros (_ & ? & _).
  - pose proof (assoc_None _ _ E) as Hk.
    split_and!.
    + intros e. split; [by case_bool_decide|].
      intros He. destruct Hk. apply list_elem_of_fmap. by exists (name, e).
    + case_bool_decide; split; try done. by intros [_ ?].
    + intros x. case_bool_decide; split; try done.
      * by intros [= <-].
      * by intros (-> & _).
      * by intros (_ & _ & ?).
Qed.

(** *** Grouping *)

Lemma fold_add_to_category l : forall acc cat,
  default [] (fold_left add_to_category l acc !! cat)
  = default [] (acc !! cat)
    ++ List.filter (fun ne => String.eqb (category ne.2) cat) l.
Proof.
  induction l as [|[n e] l IH]; intros acc cat; simpl.
  - by rewrite app_nil_r.
  - rewrite IH. unfold add_to_category. simpl.
    destruct (String.eqb_spec (category e) cat) as [->|Hne].
    + rewrite lookup_insert_eq. simpl. by rewrite <- app_assoc.
    + by rewrite lookup_insert_ne.
Qed.

Lemma fold_add_to_category_ne l : forall acc cat,
  (acc !! cat <> Some []) ->
  fold_left add_to_category l acc !! cat <> Some [].
Proof.
  induction l as [|[n e] l IH]; intros acc cat Hacc; simpl; [done|].
  apply IH. unfold add_to_category. simpl.
  destruct (decide (category e = cat)) as [->|Hne].
  - rewrite lookup_insert_eq. intros [= H]. by destruct (default [] _).
  - by rewrite lookup_insert_ne.
Qed.

(** X26. [listCatalogByCategory] files every entry of the catalog under its
    own category and under no other, keeps the order of the catalog
    within a category, and has no category without an entry. *)
Theorem listCatalogByCategory_partitions (cat : string) :
  default [] (listCatalogByCategory !! cat)
  = List.filter (fun ne => String.eqb (category ne.2) cat) listCatalog /\
  listCatalogByCategory !! cat <> Some [].
Proof.
  assert (listCatalog = CATALOG) as ->.
  { unfold listCatalog. rewrite <- (map_id CATALOG) at 2.
    apply map_ext. by intros []. }
  unfold listCatalogByCategory. split.
  - by rewrite fold_add_to_category, lookup_empty.
  - apply fold_add_to_category_ne. by rewrite lookup_empty.
Qed.

(** *** From the catalog to a connection *)

Section Catalog.
Variable valid_url : string -> bool.
Variable process_env : gmap string string.

Lemma CATALOG_npx name e :
  (name, e) ∈ CATALOG ->
  entry_command e = Some "npx"%string /\ name <> "__proto__"%string.
Proof.
  intros Hin.
  assert (Forall (fun ne => entry_command ne.2 = Some "npx"%string /\
                            ne.1 <> "__proto__"%string) CATALOG) as H
    by (repeat constructor; done).
  rewrite Forall_forall in H. by apply (H (name, e)).
Qed.

(** X25. A server added from the catalog as it stands, under the name of its
    entry: [parseConfig] accepts it and makes of it an enabled stdio
    server with the trust level of the entry and the default timeout and
    limit, and [createTransport] builds for it the transport that spawns
    the command of the entry with its arguments and its environment. *)
Theorem catalog_entry_connects (name : string) (e : CatalogEntry) :
  (name, e) ∈ CATALOG ->
  let raw := {| raw_servers := Some {[ name := catalogToConfig e None ]};
                raw_defaults := None |} in
  exists cfg s,
    parseConfig (Some raw) = Some cfg /\
    parsed_servers cfg = {[ name := s ]} /\
    parsed_defaults cfg = DEFAULT_DEFAULTS /\
    enabled (base s) = true /\ transport (base s) = stdio /\
    trust (base s) = entry_trust e /\
    timeout (base s) = 30000 /\ maxResultChars (base s) = 50000 /\
    createTransport valid_url process_env s
    = inl (StdioClientTransport "npx" (default [] (entry_args e))
             (default ∅ (entry_env e) ∪ process_env)).
Proof.
  intros [Hcmd Hname]%CATALOG_npx raw.
  destruct e as [de co ar ur en tr ca]. simpl in Hcmd. subst co.
  unfold parseConfig, schema_parse. simpl.
  rewrite bool_decide_eq_true_2
    by (by apply map_Forall_singleton).
  simpl. rewrite delete_singleton_ne by done. rewrite map_fmap_singleton.
  eexists _, _. split; [reflexivity|]. simpl.
  by split_and!.
Qed.

End Catalog.

Lemma catalog_entry_connects_witness :
  let e := npx "Web search via Brave Search API"
               ["-y"; "@modelcontextprotocol/server-brave-search"]%string
               (Some {[ "BRAVE_API_KEY"%string := ""%string ]}) untrusted
               "search" in
  let raw := {| raw_servers :=
                  Some {[ "brave-search"%string := catalogToConfig e None ]};
                raw_defaults := None |} in
  ("brave-search"%string, e) ∈ CATALOG /\
  exists cfg s,
    parseConfig (Some raw) = Some cfg /\
    parsed_servers cfg = {[ "brave-search"%string := s ]} /\
    parsed_defaults cfg = DEFAULT_DEFAULTS /\
    enabled (base s) = true /\ transport (base s) = stdio /\
    trust (base s) = untrusted /\
    timeout (base s) = 30000 /\ maxResultChars (base s) = 50000 /\
    createTransport (fun _ => true) {[ "PATH"%string := "/usr/bin"%string ]} s
    = inl (StdioClientTransport "npx"
             ["-y"; "@modelcontextprotocol/server-brave-search"]%string
             ({[ "BRAVE_API_KEY"%string := ""%string ]}
              ∪ {[ "PATH"%string := "/usr/bin"%string ]})).
Proof.
  intros e raw.
  assert (("brave-search"%string, e) ∈ CATALOG) as H.
  { unfold CATALOG. do 3 right. left. }
  split; [exact H|].
  exact (catalog_entry_connects (fun _ => true)
           {[ "PATH"%string := "/usr/bin"%string ]} "brave-search" e H).
Defined.

End RegistryFacts.
